(** * SML: content-addressed graph construction and graph-scoped retrieval

    A shallow embedding of [extract_and_index.py] and [graph_rag.py].

    Python [str] values are modelled as [string]; a character is a code
    point below 256 (Latin-1).  The external collaborators (the document
    extractor, the semantic index and the answerer) are inputs of the
    model: the paragraphs and tables of a document, the ranked hit list
    and the answering function. *)

From Stdlib Require Import ZArith NArith Ascii String List Bool Lia OrdersEx.
From stdpp Require Import base option list gmap sets strings pretty sorting.

Set Warnings "-register-all,-clear-no-such-hyp".

Local Open Scope string_scope.
Local Open Scope list_scope.

(** ** Python strings *)
Module Py.

Definition ord (c : ascii) : N := N_of_ascii c.
Definition chr (n : N) : ascii := ascii_of_N n.

Definition chars (s : string) : list ascii := list_ascii_of_string s.
Definition text (l : list ascii) : string := string_of_list_ascii l.

Definition between (lo hi n : N) : bool := ((lo <=? n) && (n <=? hi))%N.

(** [str.isspace] and the class [\s] on code points below 256. *)
Definition isspace (c : ascii) : bool :=
  between 9 13 (ord c) || between 28 32 (ord c)
  || (ord c =? 133)%N || (ord c =? 160)%N.

Definition isdigit (c : ascii) : bool := between 48 57 (ord c).

Definition lower_char (c : ascii) : ascii :=
  if between 65 90 (ord c)
     || (between 192 222 (ord c) && negb (ord c =? 215)%N)
  then chr (ord c + 32) else c.

(** [s.lower()] *)
Definition lower (s : string) : string := text (map lower_char (chars s)).

Fixpoint lstrip_chars (l : list ascii) : list ascii :=
  match l with
  | c :: l' => if isspace c then lstrip_chars l' else l
  | [] => []
  end.

(** [s.strip()] *)
Definition strip (s : string) : string :=
  text (rev (lstrip_chars (rev (lstrip_chars (chars s))))).

(** [s.replace(c, EmptyString)] for a one-character [c] *)
Definition remove_char (c : ascii) (s : string) : string :=
  text (filter (fun x => x <> c) (chars s)).

(** [s[:n]] *)
Definition slice_to (n : nat) (s : string) : string :=
  text (take n (chars s)).

(** [sep.join(parts)] *)
Fixpoint join (sep : string) (parts : list string) : string :=
  match parts with
  | [] => EmptyString
  | [p] => p
  | p :: rest => p ++ sep ++ join sep rest
  end.

Fixpoint split_chars (sep : ascii) (cur : list ascii) (l : list ascii)
  : list string :=
  match l with
  | [] => [text (rev cur)]
  | c :: l' =>
      if Ascii.eqb c sep then text (rev cur) :: split_chars sep [] l'
      else split_chars sep (c :: cur) l'
  end.

(** [s.split(sep)] for a one-character [sep] *)
Definition split (sep : ascii) (s : string) : list string :=
  split_chars sep [] (chars s).

(** Truthiness of a [str]. *)
Definition truthy (s : string) : bool :=
  match s with EmptyString => false | _ => true end.

End Py.

(** ** The fragment of [re] the program uses

    A backtracking matcher in continuation-passing style: alternatives
    are tried in the priority order of Python's engine (one more copy of
    a greedy repetition before fewer), and the first complete match
    wins. *)
Module Re.

Inductive regex : Type :=
| Eps
| Chr (p : ascii -> bool)
| Cat (r1 r2 : regex)
| Opt (r : regex)
| Rep (r : regex) (lo : nat) (hi : option nat)
| Grp (r : regex).

Section Matcher.
Context {A : Type}.

(** A continuation receives the text captured by group 1 so far and
    the input that is left. *)
Definition cont : Type := option (list ascii) -> list ascii -> option A.
Definition step : Type := list ascii -> option (list ascii) -> cont -> option A.

Fixpoint exactly (m : step) (n : nat) : step :=
  fun s g k =>
    match n with
    | 0 => k g s
    | S n' => m s g (fun g' s' => exactly m n' s' g' k)
    end.

Fixpoint upto (m : step) (n : nat) : step :=
  fun s g k =>
    match n with
    | 0 => k g s
    | S n' =>
        match m s g (fun g' s' => upto m n' s' g' k) with
        | Some a => Some a
        | None => k g s
        end
    end.

Fixpoint run (r : regex) : step :=
  fun s g k =>
    match r with
    | Eps => k g s
    | Chr p =>
        match s with
        | c :: s' => if p c then k g s' else None
        | [] => None
        end
    | Cat r1 r2 => run r1 s g (fun g' s' => run r2 s' g' k)
    | Opt r1 =>
        match run r1 s g k with
        | Some a => Some a
        | None => k g s
        end
    | Rep r1 lo hi =>
        exactly (run r1) lo s g (fun g' s' =>
          upto (run r1)
               (match hi with Some h => h - lo | None => length s' end)
               s' g' k)
    | Grp r1 =>
        run r1 s g (fun _ s' => k (Some (take (length s - length s') s)) s')
    end.
End Matcher.

(** [m.group(1)] of the match found at the start of [s], if any. *)
Definition match_here (r : regex) (s : list ascii) : option (list ascii) :=
  run r s None (fun g _ => Some (default [] g)).

(** [re.search]: the leftmost start position that matches. *)
Fixpoint search_chars (r : regex) (s : list ascii) : option (list ascii) :=
  match match_here r s with
  | Some g => Some g
  | None =>
      match s with
      | [] => None
      | _ :: s' => search_chars r s'
      end
  end.

Definition search (r : regex) (s : string) : option string :=
  Py.text <$> search_chars r (Py.chars s).

(** Pattern atoms. *)
Definition lit (c : ascii) : regex := Chr (Ascii.eqb c).
(** A literal under [re.IGNORECASE]. *)
Definition lit_i (c : ascii) : regex :=
  Chr (fun x => Ascii.eqb (Py.lower_char x) (Py.lower_char c)).
Definition digit : regex := Chr Py.isdigit.
Definition space : regex := Chr Py.isspace.
(** [.] without [re.DOTALL] *)
Definition dot : regex := Chr (fun x => negb (Ascii.eqb x "010"%char)).
Definition one_of (cs : list ascii) : regex :=
  Chr (fun x => existsb (Ascii.eqb x) cs).
Definition star (r : regex) : regex := Rep r 0 None.
Definition plus (r : regex) : regex := Rep r 1 None.

Fixpoint word_i (l : list ascii) : regex :=
  match l with
  | [] => Eps
  | c :: l' => Cat (lit_i c) (word_i l')
  end.

End Re.

(** ** [hashlib.blake2s] (RFC 7693), unkeyed, on 32-bit words held in [Z] *)
Module Blake2s.
Local Open Scope Z_scope.

Definition w32 (x : Z) : Z := x mod 2 ^ 32.
Definition add32 (a b : Z) : Z := w32 (a + b).
Definition rotr32 (x n : Z) : Z :=
  Z.lor (Z.shiftr x n) (w32 (Z.shiftl x (32 - n))).

Definition IV : list Z :=
  [0x6A09E667; 0xBB67AE85; 0x3C6EF372; 0xA54FF53A;
   0x510E527F; 0x9B05688C; 0x1F83D9AB; 0x5BE0CD19].

Definition SIGMA : list (list nat) :=
  ([ [0; 1; 2; 3; 4; 5; 6; 7; 8; 9; 10; 11; 12; 13; 14; 15];
    [14; 10; 4; 8; 9; 15; 13; 6; 1; 12; 0; 2; 11; 7; 5; 3];
    [11; 8; 12; 0; 5; 2; 15; 13; 10; 14; 3; 6; 7; 1; 9; 4];
    [7; 9; 3; 1; 13; 12; 11; 14; 2; 6; 5; 10; 4; 0; 15; 8];
    [9; 0; 5; 7; 2; 4; 10; 15; 14; 1; 11; 12; 6; 8; 3; 13];
    [2; 12; 6; 10; 0; 11; 8; 3; 4; 13; 7; 5; 15; 14; 1; 9];
    [12; 5; 1; 15; 14; 13; 4; 10; 0; 7; 6; 3; 9; 2; 8; 11];
    [13; 11; 7; 14; 12; 1; 3; 9; 5; 0; 15; 4; 8; 6; 2; 10];
    [6; 15; 14; 9; 11; 3; 0; 8; 12; 2; 13; 7; 1; 4; 10; 5];
    [10; 2; 8; 4; 7; 6; 1; 5; 15; 11; 9; 14; 3; 12; 13; 0] ])%nat.

Definition get (v : list Z) (i : nat) : Z := default 0 (v !! i).

Definition G (v : list Z) (a b c d : nat) (x y : Z) : list Z :=
  let v := <[a := add32 (add32 (get v a) (get v b)) x]> v in
  let v := <[d := rotr32 (Z.lxor (get v d) (get v a)) 16]> v in
  let v := <[c := add32 (get v c) (get v d)]> v in
  let v := <[b := rotr32 (Z.lxor (get v b) (get v c)) 12]> v in
  let v := <[a := add32 (add32 (get v a) (get v b)) y]> v in
  let v := <[d := rotr32 (Z.lxor (get v d) (get v a)) 8]> v in
  let v := <[c := add32 (get v c) (get v d)]> v in
  <[b := rotr32 (Z.lxor (get v b) (get v c)) 7]> v.

Definition round (m : list Z) (v : list Z) (s : list nat) : list Z :=
  let x (i : nat) := get m (default 0%nat (s !! i)) in
  let v := G v 0 4 8 12 (x 0%nat) (x 1%nat) in
  let v := G v 1 5 9 13 (x 2%nat) (x 3%nat) in
  let v := G v 2 6 10 14 (x 4%nat) (x 5%nat) in
  let v := G v 3 7 11 15 (x 6%nat) (x 7%nat) in
  let v := G v 0 5 10 15 (x 8%nat) (x 9%nat) in
  let v := G v 1 6 11 12 (x 10%nat) (x 11%nat) in
  let v := G v 2 7 8 13 (x 12%nat) (x 13%nat) in
  G v 3 4 9 14 (x 14%nat) (x 15%nat).

(** Little-endian word of at most four bytes. *)
Fixpoint word_le (bs : list Z) : Z :=
  match bs with
  | [] => 0
  | b :: bs' => b + 256 * word_le bs'
  end.

(** The sixteen message words of a block, zero padded. *)
Definition block_words (blk : list Z) : list Z :=
  map (fun i => word_le (take 4 (drop (4 * i) blk))) (seq 0%nat 16%nat).

(** The compression function F. *)
Definition compress (h : list Z) (blk : list Z) (t : Z) (last : bool)
  : list Z :=
  let m := block_words blk in
  let v := h ++ IV in
  let v := <[12%nat := Z.lxor (get v 12) (w32 t)]> v in
  let v := <[13%nat := Z.lxor (get v 13) (w32 (Z.shiftr t 32))]> v in
  let v := if last then <[14%nat := Z.lxor (get v 14) 0xFFFFFFFF]> v else v in
  let v := fold_left (round m) SIGMA v in
  map (fun i => Z.lxor (get h i) (Z.lxor (get v i) (get v (i + 8)))) (seq 0%nat 8%nat).

(** Every block but the last is compressed with the running byte
    count; the last one (possibly empty or full) sets the final flag. *)
Fixpoint absorb (fuel : nat) (h : list Z) (t : Z) (msg : list Z) : list Z :=
  match fuel with
  | O => compress h msg (t + Z.of_nat (length msg)) true
  | S fuel' =>
      if (length msg <=? 64)%nat
      then compress h msg (t + Z.of_nat (length msg)) true
      else absorb fuel' (compress h (take 64 msg) (t + 64) false)
                  (t + 64) (drop 64 msg)
  end.

Definition word_bytes (w : Z) : list Z :=
  map (fun i => Z.shiftr w (8 * Z.of_nat i) mod 256) (seq 0%nat 4%nat).

(** [blake2s(msg, digest_size=nn).digest()] *)
Definition digest (nn : nat) (msg : list Z) : list Z :=
  let h0 := <[0%nat := Z.lxor (get IV 0) (Z.lxor 0x01010000 (Z.of_nat nn))]> IV in
  take nn (flat_map word_bytes (absorb (length msg) h0 0 msg)).

Definition hex_char (n : Z) : ascii :=
  if n <? 10 then ascii_of_N (Z.to_N (48 + n)) else ascii_of_N (Z.to_N (87 + n)).

Definition hex_byte (b : Z) : list ascii := [hex_char (b / 16); hex_char (b mod 16)].

(** [.hexdigest()] *)
Definition hexdigest (nn : nat) (msg : list Z) : string :=
  Py.text (flat_map hex_byte (digest nn msg)).

(** [str.encode()]: UTF-8 of code points below 256. *)
Definition utf8_char (c : ascii) : list Z :=
  let n := Z.of_N (Py.ord c) in
  if n <? 128 then [n] else [192 + n / 64; 128 + n mod 64].

Definition encode (s : string) : list Z := flat_map utf8_char (Py.chars s).

End Blake2s.

(** ** Python floats read from decimal literals

    A float is a binary64.  A finite one is held as the shortest decimal
    that reads back as it, [units / 10^places] with no trailing zero in
    the fraction: the decimal [repr] prints, so equal floats are equal
    terms.  [Inf] is what [float] gives for a literal too large for a
    binary64.  [float] rounds its literal to the nearest binary64, ties
    to even ([nearest]); [shortest] then gives the decimal held.  A
    literal of at most 15 significant digits, not below [10^-300], is
    its own shortest decimal (a binary64 keeps 15 decimal digits), so
    [of_decimal] returns it as it is. *)
Module Float.

Inductive t : Type :=
| Dec (units : N) (places : nat)
| Inf.

Definition units (x : t) : N := match x with Dec u _ => u | Inf => 0%N end.

Definition places (x : t) : nat := match x with Dec _ p => p | Inf => 0 end.

Definition finite (x : t) : bool := match x with Dec _ _ => true | Inf => false end.

Fixpoint norm (u : N) (p : nat) : t :=
  match p with
  | O => Dec u 0
  | S p' => if (u mod 10 =? 0)%N then norm (u / 10) p' else Dec u p
  end.

(** The fraction [n / (d * 2^e)] as numerator and denominator. *)
Definition scale2 (n d : N) (e : Z) : N * N :=
  if (0 <=? e)%Z then (n, d * 2 ^ Z.to_N e)%N else (n * 2 ^ Z.to_N (- e), d)%N.

(** The fraction [n * 10^e / d]. *)
Definition scale10 (n d : N) (e : Z) : N * N :=
  if (0 <=? e)%Z then (n * 10 ^ Z.to_N e, d)%N else (n, d * 10 ^ Z.to_N (- e))%N.

(** The binary64 nearest to [n / d], ties to even, as [m * 2^e] with
    [2^52 <= m < 2^53], or with [m < 2^52] and [e = -1074]; [None] when
    the rounded value is beyond the largest binary64. *)
Definition nearest (nd : N * N) : option (N * Z) :=
  let '(n, d) := nd in
  if (n =? 0)%N then Some (0%N, (-1074)%Z)
  else
    let l := (Z.of_N (N.log2 n) - Z.of_N (N.log2 d))%Z in
    let lg := (let '(a, b) := scale2 n d l in if (b <=? a)%N then l else l - 1)%Z in
    let e := Z.max (lg - 52) (-1074) in
    let '(a, b) := scale2 n d e in
    let q := (a / b)%N in
    let r := (a mod b)%N in
    let m := if ((b <? 2 * r) || ((2 * r =? b) && N.odd q))%N then (q + 1)%N else q in
    let '(m, e) := if (m =? 2 ^ 53)%N then ((2 ^ 52)%N, (e + 1)%Z) else (m, e) in
    if (971 <? e)%Z then None else Some (m, e).

Fixpoint count_digits (fuel : nat) (n : N) : Z :=
  match fuel with
  | O => 1
  | S fuel' => if (n <? 10)%N then 1%Z else (1 + count_digits fuel' (n / 10))%Z
  end.

Fixpoint first_place (fuel : nat) (n d : N) (j : Z) : Z :=
  match fuel with
  | O => j
  | S fuel' => if (d <=? n * 10)%N then j else first_place fuel' (n * 10)%N d (j + 1)%Z
  end.

(** The [pt] with [10^(pt-1) <= n/d < 10^pt], for [n/d] a positive
    binary64 (the smallest is above [10^-324]). *)
Definition decimal_point (n d : N) : Z :=
  if (d <=? n)%N then count_digits (N.to_nat (N.size (n / d))) (n / d)
  else (- first_place 400 n d 0)%Z.

(** The decimal of [k] significant digits nearest to the binary64
    [m * 2^e], if it reads back as that binary64. *)
Definition with_digits (m : N) (e : Z) (k : Z) : option t :=
  let '(xn, xd) := scale2 m 1 (- e) in
  let s := (k - decimal_point xn xd)%Z in
  let '(yn, yd) := scale10 xn xd s in
  let lo := (yn / yd)%N in
  let r := (yn mod yd)%N in
  let back (c : N) := match nearest (scale10 c 1 (- s)) with
                      | Some (m', e') => (m' =? m)%N && (e' =? e)%Z
                      | None => false
                      end in
  let dec (c : N) := if (0 <=? s)%Z then norm c (Z.to_nat s)
                     else Dec (c * 10 ^ Z.to_N (- s)) 0 in
  let lo_ok := back lo in
  let hi_ok := negb (r =? 0)%N && back (lo + 1)%N in
  let hi_closer := ((yd <? 2 * r) || ((2 * r =? yd) && N.odd lo))%N in
  if lo_ok && hi_ok then Some (dec (if hi_closer then lo + 1 else lo)%N)
  else if lo_ok then Some (dec lo)
  else if hi_ok then Some (dec (lo + 1)%N)
  else None.

Fixpoint shortest_from (fuel : nat) (m : N) (e : Z) (k : Z) : t :=
  match fuel with
  | O => Dec 0 0
  | S fuel' =>
      match with_digits m e k with
      | Some x => x
      | None => shortest_from fuel' m e (k + 1)%Z
      end
  end.

(** The shortest decimal that reads back as the binary64 [m * 2^e];
    17 digits always do. *)
Definition shortest (m : N) (e : Z) : t :=
  if (m =? 0)%N then Dec 0 0 else shortest_from 17 m e 1.

(** The float read from the decimal [u / 10^p]. *)
Definition of_decimal (u : N) (p : nat) : t :=
  if (u <? 10 ^ 15)%N && (p <=? 300)%nat then norm u p
  else
    match nearest (u, 10 ^ N.of_nat p)%N with
    | Some (m, e) => shortest m e
    | None => Inf
    end.

Definition digit_value (c : ascii) : N := (Py.ord c - 48)%N.

Definition digits_value (l : list ascii) : N :=
  fold_left (fun acc c => (10 * acc + digit_value c)%N) l 0%N.

Fixpoint span_digits (l : list ascii) : list ascii * list ascii :=
  match l with
  | c :: l' =>
      if Py.isdigit c
      then let '(d, r) := span_digits l' in (c :: d, r)
      else ([], l)
  | [] => ([], [])
  end.

(** [float(s)] on a text of digits and points; [None] is ValueError. *)
Definition of_chars (l : list ascii) : option t :=
  let '(ip, rest) := span_digits l in
  match rest with
  | [] =>
      match ip with [] => None | _ => Some (of_decimal (digits_value ip) 0) end
  | c :: fp =>
      if Ascii.eqb c "."%char && forallb Py.isdigit fp
         && negb (Nat.eqb (length ip + length fp) 0)
      then Some (of_decimal (digits_value (ip ++ fp)) (length fp))
      else None
  end.

Definition of_string (s : string) : option t := of_chars (Py.chars s).

Fixpoint pad_left (n : nat) (l : list ascii) : list ascii :=
  match n with
  | O => l
  | S n' => if (length l <=? n')%nat then "0"%char :: pad_left n' l else l
  end.

Fixpoint strip_zeros (fuel : nat) (u : N) : N :=
  match fuel with
  | O => u
  | S fuel' =>
      if ((u mod 10 =? 0) && negb (u =? 0))%N then strip_zeros fuel' (u / 10)%N else u
  end.

(** The form with an exponent, [d.ddde+XX]: the digits of [u] without
    its trailing zeros, and the exponent [ex] on two digits at least. *)
Definition repr_exponent (u : N) (ex : Z) : string :=
  let mant := match Py.chars (pretty (strip_zeros (N.to_nat (N.size u)) u)) with
              | [] => EmptyString
              | [d] => Py.text [d]
              | d :: more => Py.text (d :: "."%char :: more)
              end in
  let ea := Z.abs_N ex in
  mant ++ "e" ++ (if (ex <? 0)%Z then "-" else "+")
       ++ (if (ea <? 10)%N then "0" else EmptyString) ++ pretty ea.

(** [repr(x)], which is also [str(x)]: with an exponent when the
    decimal point falls more than 16 places right of the first digit
    or more than 3 zeros left of it. *)
Definition repr (x : t) : string :=
  match x with
  | Inf => "inf"
  | Dec u0 p0 =>
      let x := norm u0 p0 in
      let u := units x in
      let p := places x in
      if (u =? 0)%N then "0.0"
      else
        let pt := (count_digits (N.to_nat (N.size u)) u - Z.of_nat p)%Z in
        if ((16 <? pt) || (pt <=? -4))%Z then repr_exponent u (pt - 1)
        else
          let scale := (10 ^ N.of_nat p)%N in
          pretty (u / scale)%N ++ "." ++
          match p with
          | O => "0"
          | S _ => Py.text (pad_left p (Py.chars (pretty (u mod scale)%N)))
          end
  end.

End Float.

(** ** [json.dumps(payload, ensure_ascii=False, sort_keys=True)] *)
Module Json.

Inductive value : Type :=
| Null
| Int (z : Z)
| Num (x : Float.t)
| Str (s : string)
| Arr (l : list value).

(** A Python [dict] with [str] keys, in insertion order. *)
Definition dict : Type := list (string * value).

Definition quote_mark : string := String "034"%char EmptyString.
Definition backslash : string := String "092"%char EmptyString.

Definition hex2 (n : N) : string :=
  Py.text [Blake2s.hex_char (Z.of_N (n / 16)); Blake2s.hex_char (Z.of_N (n mod 16))].

Definition escape_char (c : ascii) : string :=
  let n := Py.ord c in
  if (n =? 34)%N then backslash ++ quote_mark
  else if (n =? 92)%N then backslash ++ backslash
  else if (n =? 8)%N then backslash ++ "b"
  else if (n =? 12)%N then backslash ++ "f"
  else if (n =? 10)%N then backslash ++ "n"
  else if (n =? 13)%N then backslash ++ "r"
  else if (n =? 9)%N then backslash ++ "t"
  else if (n <? 32)%N then backslash ++ "u00" ++ hex2 n
  else String c EmptyString.

Definition quote (s : string) : string :=
  quote_mark ++ Py.join EmptyString (map escape_char (Py.chars s)) ++ quote_mark.

Fixpoint dumps_value (v : value) : string :=
  match v with
  | Null => "null"
  | Int z => pretty z
  | Num Float.Inf => "Infinity"
  | Num x => Float.repr x
  | Str s => quote s
  | Arr l => "[" ++ Py.join ", " (map dumps_value l) ++ "]"
  end.

(** Keys are compared by code point, as Python compares [str]. *)
Definition key_le (a b : string * value) : Prop := String.leb (fst a) (fst b) = true.

#[global] Instance key_le_dec a b : Decision (key_le a b).
Proof. unfold key_le. apply _. Defined.

Definition dumps_item (kv : string * value) : string :=
  quote (fst kv) ++ ": " ++ dumps_value (snd kv).

Definition dumps (d : dict) : string :=
  "{" ++ Py.join ", " (map dumps_item (merge_sort key_le d)) ++ "}".

End Json.

(** ** [networkx.DiGraph]: attribute dictionaries keyed by node and by edge *)
Module Nx.

Inductive attr : Type :=
| AStr (s : string)
| AInt (n : Z)
| ANum (x : Float.t)
| ANone.

#[global] Instance float_eq_dec : EqDecision Float.t.
Proof. solve_decision. Defined.
#[global] Instance attr_eq_dec : EqDecision attr.
Proof. solve_decision. Defined.

Record DiGraph : Type := {
  nodes : gmap string (gmap string attr);
  edges : gmap (string * string) (gmap string attr)
}.

Definition empty : DiGraph := {| nodes := ∅; edges := ∅ |}.

(** Setting attributes updates the dictionary already there. *)
Definition update {K} `{Countable K} (k : K) (new : gmap string attr)
    (m : gmap K (gmap string attr)) : gmap K (gmap string attr) :=
  <[k := new ∪ default ∅ (m !! k)]> m.

(** [g.add_node(n, **attrs)] *)
Definition add_node (g : DiGraph) (n : string) (attrs : gmap string attr) : DiGraph :=
  {| nodes := update n attrs (nodes g); edges := edges g |}.

(** [g.add_edge(u, v, **attrs)]: missing end points become nodes. *)
Definition add_edge (g : DiGraph) (u v : string) (attrs : gmap string attr) : DiGraph :=
  {| nodes := update v ∅ (update u ∅ (nodes g));
     edges := update (u, v) attrs (edges g) |}.

Definition merge {K} `{Countable K} (a b : gmap K (gmap string attr))
  : gmap K (gmap string attr) :=
  union_with (fun x y => Some (y ∪ x)) a b.

(** [nx.compose(G, H)]: union by identifier, [H]'s attributes win. *)
Definition compose (G H : DiGraph) : DiGraph :=
  {| nodes := merge (nodes G) (nodes H); edges := merge (edges G) (edges H) |}.

(** [G.nodes[n].get("label") == l] *)
Definition has_label (G : DiGraph) (n l : string) : Prop :=
  nodes G !! n ≫= (fun d => d !! "label") = Some (AStr l).

(** [str(v)] of an attribute value *)
Definition attr_str (v : attr) : string :=
  match v with
  | AStr s => s
  | AInt n => pretty n
  | ANum x => Float.repr x
  | ANone => "None"
  end.

End Nx.

(** ** extract_and_index.py *)
Module ExtractAndIndex.
Import Re.

Record LineItem : Type := {
  li_desc : string;
  li_qty : option Float.t;
  li_unit : option string;
  li_unit_cost : option Float.t;
  li_ext_cost : option Float.t;
  li_page : option nat
}.

Record DocMap : Type := {
  dm_doc_id : string;
  dm_docname : string;
  dm_vendor : option string;
  dm_grand_total : option Float.t;
  dm_items : list LineItem
}.

(** [\$?\s*([0-9]{1,3}(?:[, ][0-9]{3})*(?:\.[0-9]{2})?)] *)
Definition money_rx : regex :=
  Cat (Opt (lit "$"))
 (Cat (star space)
      (Grp (Cat (Rep digit 1 (Some 3))
           (Cat (star (Cat (one_of [","%char; " "%char]) (Rep digit 3 (Some 3))))
                (Opt (Cat (lit ".") (Rep digit 2 (Some 2)))))))).

Definition parse_money (s : string) : option Float.t :=
  let s := Py.remove_char " " (Py.remove_char "," s) in
  match search money_rx s with
  | Some g => Float.of_string g
  | None => None
  end.

Inductive payload : Type :=
| PDict (d : Json.dict)
| PStr (s : string).

Definition make_id (prefix : string) (p : payload) : string :=
  let p :=
    match p with
    | PDict d => Py.slice_to 2048 (Json.dumps d)
    | PStr s => s
    end in
  let h := Blake2s.hexdigest 8 (Blake2s.encode p) in
  prefix ++ ":" ++ h.

(** A fragment record; [c_page] is absent when the key is. *)
Record chunk : Type := {
  c_id : string;
  c_text : string;
  c_docname : string;
  c_source : string;
  c_type : string;
  c_page : option nat
}.

(** What [pdfplumber] gives for a page. *)
Inductive page_result : Type :=
| ExtractRaises
| NoTables
| Tables (ts : list (list (list (option string)))).

(** A PDF on disk, with what the extractors return for it. *)
Record pdf : Type := {
  pdf_name : string;
  pdf_path : string;
  pdf_size : Z;
  (** [textract(path)]: one text or a list of paragraphs *)
  pdf_textract : string + list string;
  (** [pdf.pages]; [None] when [pdfplumber.open] raises *)
  pdf_pages : option (list page_result)
}.

Fixpoint paragraph_loop (p : pdf) (doc_id : string) (i : nat) (chunks : list string)
  : list chunk :=
  match chunks with
  | [] => []
  | text :: rest =>
      let cid := make_id "PCH"
        (PDict [("doc", Json.Str doc_id); ("i", Json.Int (Z.of_nat i));
                ("t", Json.Str (Py.slice_to 300 text))]) in
      {| c_id := cid; c_text := text; c_docname := pdf_name p;
         c_source := pdf_path p; c_type := "paragraph"; c_page := None |}
      :: paragraph_loop p doc_id (S i) rest
  end.

Definition paragraph_chunks (p : pdf) (doc_id : string) : list chunk :=
  let chunks :=
    match pdf_textract p with
    | inl s => [s]
    | inr l => l
    end in
  paragraph_loop p doc_id 0 chunks.

(** [(c or EmptyString).strip()] for every cell *)
Definition row_cells (row : list (option string)) : list string :=
  map (fun c => Py.strip (default EmptyString c)) row.

Definition row_chunk (p : pdf) (doc_id : string) (page_index r_i : nat)
    (row : list (option string)) : option chunk :=
  let cells := row_cells row in
  if negb (existsb Py.truthy cells) then None
  else
    let rowtext := Py.join " | " cells in
    let cid := make_id "TBL"
      (PDict [("doc", Json.Str doc_id); ("p", Json.Int (Z.of_nat page_index));
              ("r", Json.Int (Z.of_nat r_i));
              ("c", Json.Arr (map Json.Str (take 10 cells)))]) in
    Some {| c_id := cid; c_text := rowtext; c_docname := pdf_name p;
            c_source := pdf_path p; c_type := "table-row";
            c_page := Some page_index |}.

Fixpoint rows_loop (p : pdf) (doc_id : string) (page_index r_i : nat)
    (table : list (list (option string))) : list chunk :=
  match table with
  | [] => []
  | row :: rest =>
      match row_chunk p doc_id page_index r_i row with
      | None => rows_loop p doc_id page_index (S r_i) rest
      | Some c => c :: rows_loop p doc_id page_index (S r_i) rest
      end
  end.

Definition tables_loop (p : pdf) (doc_id : string) (page_index : nat)
    (ts : list (list (list (option string)))) : list chunk :=
  flat_map (rows_loop p doc_id page_index 0) ts.

(** The generator ends at the first page whose extraction raises. *)
Fixpoint pages_loop (p : pdf) (doc_id : string) (page_index : nat)
    (pages : list page_result) : list chunk :=
  match pages with
  | [] => []
  | ExtractRaises :: _ => []
  | NoTables :: rest => pages_loop p doc_id (S page_index) rest
  | Tables ts :: rest =>
      tables_loop p doc_id page_index ts ++ pages_loop p doc_id (S page_index) rest
  end.

Definition table_rows (p : pdf) (doc_id : string) : list chunk :=
  match pdf_pages p with
  | None => []
  | Some pages => pages_loop p doc_id 1 pages
  end.

(** [Vendor\s*[:\-]\s*(.+)] and [Client\s*[:\-]\s*(.+)], ignoring case *)
Definition vendor_rx (label : string) : regex :=
  Cat (word_i (Py.chars label))
 (Cat (star space)
 (Cat (one_of [":"%char; "-"%char])
 (Cat (star space) (Grp (plus dot))))).

Fixpoint sniff_vendor_loop (pats : list string) (text : string) : option string :=
  match pats with
  | [] => None
  | pat :: rest =>
      match search (vendor_rx pat) text with
      | Some g => Some (Py.slice_to 120 (Py.strip g))
      | None => sniff_vendor_loop rest text
      end
  end.

Definition sniff_vendor (text : string) : option string :=
  sniff_vendor_loop ["Vendor"; "Client"] text.

(** The class [[0-9,\. ]] *)
Definition amount_char (x : ascii) : bool :=
  Py.isdigit x || existsb (Ascii.eqb x) [","%char; "."%char; " "%char].

(** [label + r".{0,40}\$?\s*([0-9][0-9,\. ]+)"], ignoring case *)
Definition total_rx (label : string) : regex :=
  Cat (word_i (Py.chars label))
 (Cat (Rep dot 0 (Some 40))
 (Cat (Opt (lit "$"))
 (Cat (star space) (Grp (Cat digit (plus (Chr amount_char))))))).

Fixpoint sniff_total_loop (labels : list string) (fulltext : string) : option Float.t :=
  match labels with
  | [] => None
  | label :: rest =>
      match search (total_rx label) fulltext with
      | Some g =>
          match Float.of_string (Py.remove_char " " (Py.remove_char "," g)) with
          | Some x => Some x
          | None => sniff_total_loop rest fulltext
          end
      | None => sniff_total_loop rest fulltext
      end
  end.

Definition sniff_grand_total (fulltext : string) : option Float.t :=
  sniff_total_loop ["grand total"; "contract total"; "total"] fulltext.

Import Nx.

Definition attrs (l : list (string * attr)) : gmap string attr := list_to_map l.

(** [rc.get("page")] *)
Definition page_attr (c : chunk) : attr :=
  match c_page c with
  | Some n => AInt (Z.of_nat n)
  | None => ANone
  end.

Definition page_json (c : chunk) : Json.value :=
  match c_page c with
  | Some n => Json.Int (Z.of_nat n)
  | None => Json.Null
  end.

(** One turn of the loop over the table rows: the chunk node, its
    [HAS_CHUNK] edge and, when the last cell reads as money, the line
    item. *)
Definition row_step (doc_id : string) (ent_id : option string)
    (st : DiGraph * list LineItem) (rc : chunk) : DiGraph * list LineItem :=
  let '(g, line_items) := st in
  let g := add_node g (c_id rc)
    (attrs [("label", AStr "Chunk"); ("type", AStr (c_type rc));
            ("page", page_attr rc); ("docname", AStr (c_docname rc))]) in
  let g := add_edge g doc_id (c_id rc) (attrs [("rel", AStr "HAS_CHUNK")]) in
  let parts := map Py.strip (Py.split "|" (c_text rc)) in
  let ext_cost :=
    if (2 <=? length parts)%nat then parse_money (List.last parts EmptyString)
    else None in
  match ext_cost with
  | None => (g, line_items)
  | Some ext =>
      let li := {| li_desc := Py.slice_to 200 (Py.join " | " (removelast parts));
                   li_qty := None; li_unit := None; li_unit_cost := None;
                   li_ext_cost := Some ext; li_page := c_page rc |} in
      let lid := make_id "LIT"
        (PDict [("doc", Json.Str doc_id); ("page", page_json rc);
                ("desc", Json.Str (li_desc li)); ("ext", Json.Num ext)]) in
      let g := add_node g lid
        (attrs [("label", AStr "LineItem"); ("ext_cost", ANum ext);
                ("page", page_attr rc); ("desc", AStr (li_desc li))]) in
      let g := add_edge g (c_id rc) lid (attrs [("rel", AStr "HAS_LINEITEM")]) in
      let g :=
        match ent_id with
        | Some e => add_edge g lid e (attrs [("rel", AStr "ITEM_FOR")])
        | None => g
        end in
      (g, line_items ++ [li])
  end.

(** One turn of the loop over the paragraphs. *)
Definition para_step (doc_id : string) (ent_id : option string)
    (g : DiGraph) (pc : chunk) : DiGraph :=
  let g := add_node g (c_id pc)
    (attrs [("label", AStr "Chunk"); ("type", AStr (c_type pc));
            ("docname", AStr (c_docname pc))]) in
  let g := add_edge g doc_id (c_id pc) (attrs [("rel", AStr "HAS_CHUNK")]) in
  match ent_id with
  | Some e => add_edge g (c_id pc) e (attrs [("rel", AStr "MENTIONS")])
  | None => g
  end.

(** [if vendor:] keeps a vendor that is present and not empty. *)
Definition vendor_found (vendor : option string) : option string :=
  match vendor with
  | Some v => if Py.truthy v then Some v else None
  | None => None
  end.

Definition entity_id (vendor : string) : string :=
  make_id "ENT" (PDict [("type", Json.Str "Vendor"); ("name", Json.Str vendor)]).

Definition document_id (p : pdf) : string :=
  make_id "DOC" (PDict [("name", Json.Str (pdf_name p)); ("size", Json.Int (pdf_size p))]).

Definition build_graph_and_maps (p : pdf) : DiGraph * DocMap * list chunk :=
  let doc_id := document_id p in
  let g := add_node Nx.empty doc_id
    (attrs [("label", AStr "Document"); ("docname", AStr (pdf_name p));
            ("path", AStr (pdf_path p))]) in
  let pchunks := paragraph_chunks p doc_id in
  let fulltext := Py.join (String "010" EmptyString) (map c_text pchunks) in
  let vendor := sniff_vendor fulltext in
  let gt := sniff_grand_total fulltext in
  let ent_id := entity_id <$> vendor_found vendor in
  let g :=
    match vendor_found vendor with
    | Some v =>
        let g := add_node g (entity_id v)
          (attrs [("label", AStr "Entity"); ("type", AStr "Vendor"); ("name", AStr v)]) in
        add_edge g doc_id (entity_id v) (attrs [("rel", AStr "HAS_ENTITY")])
    | None => g
    end in
  let row_chunks := table_rows p doc_id in
  let '(g, line_items) := fold_left (row_step doc_id ent_id) row_chunks (g, []) in
  let g := fold_left (para_step doc_id ent_id) pchunks g in
  let docmap := {| dm_doc_id := doc_id; dm_docname := pdf_name p; dm_vendor := vendor;
                   dm_grand_total := gt; dm_items := line_items |} in
  (g, docmap, row_chunks ++ pchunks).

(** The state of the indexing run: the corpus graph, the summaries and
    the fragments handed to the index. *)
Definition corpus_step (st : DiGraph * list DocMap * list chunk) (p : pdf)
  : DiGraph * list DocMap * list chunk :=
  let '(G, docmaps, all_chunks) := st in
  let '(g, dm, chunks) := build_graph_and_maps p in
  (compose G g, docmaps ++ [dm], all_chunks ++ chunks).

(** The loop of the main block over the PDFs, taken in sorted order. *)
Definition build_corpus (pdfs : list pdf) : DiGraph * list DocMap * list chunk :=
  fold_left corpus_step pdfs (Nx.empty, [], []).

(** [{c["id"]: c for c in all_chunks_for_index}]: a later fragment
    replaces an earlier one with the same id. *)
Definition chunk_map_of (all_chunks : list chunk) : gmap string chunk :=
  fold_left (fun m c => <[c_id c := c]> m) all_chunks ∅.

End ExtractAndIndex.

(** ** graph_rag.py *)
Module GraphRag.
Import Nx ExtractAndIndex.

(** A hit of the semantic index; only its id is read. *)
Record hit : Type := { h_id : string }.

(** A citation record built by [resolve_refs]. *)
Record citation : Type := {
  r_id : string;
  r_docname : option string;
  r_page : option nat;
  r_type : option string
}.

Definition is_target (entity_name : string) (d : gmap string attr) : Prop :=
  d !! "label" = Some (AStr "Entity")
  ∧ Py.lower (attr_str (default (AStr EmptyString) (d !! "name"))) = Py.lower entity_name.

#[global] Instance is_target_dec name d : Decision (is_target name d).
Proof. unfold is_target. apply _. Defined.

#[global] Instance has_label_dec G n l : Decision (has_label G n l).
Proof. unfold has_label. apply _. Defined.

Definition targets (G : DiGraph) (entity_name : string) : gset string :=
  dom (filter (fun kv => is_target entity_name (snd kv)) (nodes G)).

(** Sources of the edges into [ent] that are chunks. *)
Definition in_chunks (G : DiGraph) (ent : string) : gset string :=
  set_map fst
    (filter (fun e : string * string => snd e = ent ∧ has_label G (fst e) "Chunk")
            (dom (edges G))).

(** Targets of the edges out of [ent] that are chunks. *)
Definition out_chunks (G : DiGraph) (ent : string) : gset string :=
  set_map snd
    (filter (fun e : string * string => fst e = ent ∧ has_label G (snd e) "Chunk")
            (dom (edges G))).

Definition cids_for_entity (G : DiGraph) (entity_name : string) : gset string :=
  fold_left (fun cids ent => cids ∪ in_chunks G ent ∪ out_chunks G ent)
            (elements (targets G entity_name)) ∅.

(** [scope_cids and cid not in scope_cids]: [None] and the empty set
    are both false. *)
Definition out_of_scope (scope_cids : option (gset string)) (cid : string) : bool :=
  match scope_cids with
  | None => false
  | Some sc => negb (bool_decide (sc = ∅)) && negb (bool_decide (cid ∈ sc))
  end.

Fixpoint context_loop (chunk_map : gmap string chunk) (scope_cids : option (gset string))
    (k : nat) (hits : list hit) (texts : list string) : list string :=
  match hits with
  | [] => texts
  | h :: rest =>
      let cid := h_id h in
      if out_of_scope scope_cids cid then context_loop chunk_map scope_cids k rest texts
      else
        match chunk_map !! cid with
        | None => context_loop chunk_map scope_cids k rest texts
        | Some rec =>
            let texts := texts ++ [c_text rec] in
            if (k <=? length texts)%nat then texts
            else context_loop chunk_map scope_cids k rest texts
        end
  end.

Section Engine.
(** [emb.search(question, limit)] and the answerer [rag]. *)
Variable emb : string -> nat -> list hit.
Variable rag : string -> list string -> string * string * list string.

Definition top_context (chunk_map : gmap string chunk) (question : string)
    (scope_cids : option (gset string)) (k : nat) : list string :=
  context_loop chunk_map scope_cids k (emb question 60) [].

Definition resolve_refs (chunk_map : gmap string chunk) (refs : list string)
  : list citation :=
  map (fun rid =>
         let rec := chunk_map !! rid in
         {| r_id := rid;
            r_docname := c_docname <$> rec;
            r_page := rec ≫= c_page;
            r_type := c_type <$> rec |}) refs.

(** The scope set of [ask]. *)
Definition ask_scope (G : DiGraph) (entities : option (list string)) : gset string :=
  match entities with
  | None | Some [] => ∅
  | Some es => fold_left (fun scope e => scope ∪ cids_for_entity G e) es ∅
  end.

(** [scope or None] *)
Definition or_none (scope : gset string) : option (gset string) :=
  if bool_decide (scope = ∅) then None else Some scope.

(** The context [ask] hands to the answerer. *)
Definition ask_context (G : DiGraph) (chunk_map : gmap string chunk)
    (question : string) (entities : option (list string)) : list string :=
  top_context chunk_map question (or_none (ask_scope G entities)) 12.

Definition ask (G : DiGraph) (chunk_map : gmap string chunk)
    (question : string) (entities : option (list string))
  : string * list citation :=
  let ctx := ask_context G chunk_map question entities in
  let '(name, answer, refs) := rag question ctx in
  (answer, resolve_refs chunk_map refs).
End Engine.

End GraphRag.

(** * Properties *)

(** ** Retrieval: context assembly and citations *)
Section Retrieval.
Import Nx ExtractAndIndex GraphRag.

Implicit Types (chunk_map : gmap string chunk) (scope : option (gset string)).

(** The scope filter is active for a set that is given and not empty. *)
Definition active (scope : option (gset string)) : Prop :=
  ∃ sc, scope = Some sc ∧ sc ≠ ∅.

(** What a hit contributes, in the words of the design: nothing when a
    scope is active and does not hold its id, nothing when the fragment
    map does not know its id, and the text of its fragment otherwise. *)
Definition surviving_text chunk_map scope (h : hit) : option string :=
  match scope with
  | Some sc =>
      if decide (sc ≠ ∅ ∧ h_id h ∉ sc) then None
      else c_text <$> chunk_map !! h_id h
  | None => c_text <$> chunk_map !! h_id h
  end.

Lemma out_of_scope_spec scope cid :
  out_of_scope scope cid = true ↔ ∃ sc, scope = Some sc ∧ sc ≠ ∅ ∧ cid ∉ sc.
Proof.
  unfold out_of_scope. destruct scope as [sc|].
  - rewrite andb_true_iff, !negb_true_iff, !bool_decide_eq_false.
    split; [intros [??]; eauto | intros (? & [= <-] & ? & ?); done].
  - split; [done | intros (? & ? & _); done].
Qed.

Lemma context_loop_step chunk_map scope k h rest texts :
  context_loop chunk_map scope k (h :: rest) texts =
  match surviving_text chunk_map scope h with
  | None => context_loop chunk_map scope k rest texts
  | Some t =>
      if (k <=? length (texts ++ [t]))%nat then texts ++ [t]
      else context_loop chunk_map scope k rest (texts ++ [t])
  end.
Proof.
  simpl. unfold surviving_text.
  destruct (out_of_scope scope (h_id h)) eqn:Hs.
  - apply out_of_scope_spec in Hs as (sc & -> & ? & ?).
    rewrite decide_True by done. done.
  - assert (¬ ∃ sc, scope = Some sc ∧ sc ≠ ∅ ∧ h_id h ∉ sc) as Hn.
    { rewrite <- out_of_scope_spec. congruence. }
    destruct scope as [sc|].
    + rewrite decide_False by (intros [??]; apply Hn; eauto).
      by destruct (chunk_map !! h_id h).
    + by destruct (chunk_map !! h_id h).
Qed.

(** The loop is the first [k] surviving texts, in hit order. *)
Lemma context_loop_take chunk_map scope k hits texts :
  length texts < k →
  context_loop chunk_map scope k hits texts =
  take k (texts ++ omap (surviving_text chunk_map scope) hits).
Proof.
  revert texts. induction hits as [|h rest IH]; intros texts Hlt.
  - simpl. rewrite app_nil_r, take_ge; [done | lia].
  - rewrite context_loop_step. cbn [omap list_omap].
    destruct (surviving_text chunk_map scope h) as [t|]; [|by apply IH].
    destruct (k <=? length (texts ++ [t]))%nat eqn:Hk.
    + apply Nat.leb_le in Hk. rewrite length_app in Hk. simpl in Hk.
      replace (texts ++ t :: omap (surviving_text chunk_map scope) rest)
        with ((texts ++ [t]) ++ omap (surviving_text chunk_map scope) rest)
        by (by rewrite <- app_assoc).
      rewrite take_app_le by (rewrite length_app; simpl; lia).
      rewrite take_ge; [done | rewrite length_app; simpl; lia].
    + apply Nat.leb_gt in Hk. rewrite IH by done.
      by rewrite <- app_assoc.
Qed.

(** C4. [top_context] walks the hits in rank order, drops a hit that an
    active scope set does not hold, drops a hit the fragment map does
    not know, keeps the texts of the others in hit order, and stops at
    12: its result is the first 12 surviving texts, so never more than
    12 items. *)
Theorem top_context_first_12_surviving
    (emb : string → nat → list hit) chunk_map (question : string) scope :
  top_context emb chunk_map question scope 12 =
    take 12 (omap (surviving_text chunk_map scope) (emb question 60))
  ∧ (length (top_context emb chunk_map question scope 12) <= 12)%nat
  ∧ (∀ h t, surviving_text chunk_map scope h = Some t ↔
             (∃ rec, chunk_map !! h_id h = Some rec ∧ t = c_text rec)
             ∧ (∀ sc, scope = Some sc → sc ≠ ∅ → h_id h ∈ sc)).
Proof.
  assert (top_context emb chunk_map question scope 12 =
          take 12 (omap (surviving_text chunk_map scope) (emb question 60))) as Heq.
  { unfold top_context. rewrite context_loop_take by (simpl; lia). done. }
  split; [done|]. split.
  - rewrite Heq, length_take. lia.
  - intros h t. unfold surviving_text. rewrite <- fmap_Some.
    destruct scope as [sc|].
    + destruct (decide (sc ≠ ∅ ∧ h_id h ∉ sc)) as [[??]|Hn].
      * split; [done|]. intros [_ Hin]. exfalso. by eapply H0, Hin.
      * split; [|by intros [? _]]. intros Ht. split; [done|].
        intros ? [= <-] ?. destruct (decide (h_id h ∈ sc)); [done|].
        exfalso. by apply Hn.
    + split; [|by intros [? _]]. intros Ht. by split.
Qed.

(** C9. [resolve_refs] gives one citation per cited id, in the order of
    the ids; a known id carries the document name, page and kind of its
    fragment, an unknown id carries none of them. *)
Theorem resolve_refs_one_per_id chunk_map (refs : list string) :
  length (resolve_refs chunk_map refs) = length refs
  ∧ map r_id (resolve_refs chunk_map refs) = refs
  ∧ ∀ i rid, refs !! i = Some rid →
      ∃ c, resolve_refs chunk_map refs !! i = Some c
         ∧ r_id c = rid
         ∧ (chunk_map !! rid = None →
              r_docname c = None ∧ r_page c = None ∧ r_type c = None)
         ∧ (∀ rec, chunk_map !! rid = Some rec →
              r_docname c = Some (c_docname rec) ∧ r_page c = c_page rec
              ∧ r_type c = Some (c_type rec)).
Proof.
  unfold resolve_refs. split; [by rewrite length_map|]. split.
  - rewrite map_map. simpl. apply map_id.
  - intros i rid Hi. eexists. split.
    + change (@map string citation) with (@fmap list _ string citation).
      rewrite list_lookup_fmap, Hi. done.
    + simpl. split; [done|]. split.
      * intros ->. done.
      * intros rec ->. done.
Qed.

(** An entity list that matches no chunk leaves the scope unset, and the
    context is then the one of an unscoped question. *)
Lemma ask_context_empty_scope_unscoped
    (emb : string → nat → list hit) G chunk_map (question : string) entities :
  ask_scope G entities = ∅ →
  ask_context emb G chunk_map question entities =
  ask_context emb G chunk_map question None.
Proof. unfold ask_context. intros ->. done. Qed.

End Retrieval.

(** ** A scope that matches nothing *)
Section UnknownEntity.
Import Nx ExtractAndIndex GraphRag.

(** A corpus with one vendor, [ACME], mentioned by one paragraph. *)
Definition acme_graph : DiGraph :=
  let g := add_node Nx.empty "ENT:1"
    (attrs [("label", AStr "Entity"); ("type", AStr "Vendor"); ("name", AStr "ACME")]) in
  let g := add_node g "PCH:1"
    (attrs [("label", AStr "Chunk"); ("type", AStr "paragraph"); ("docname", AStr "a.pdf")]) in
  add_edge g "PCH:1" "ENT:1" (attrs [("rel", AStr "MENTIONS")]).

Definition acme_chunk : chunk :=
  {| c_id := "PCH:1"; c_text := "Payment is due in 30 days."; c_docname := "a.pdf";
     c_source := "data/pdfs/a.pdf"; c_type := "paragraph"; c_page := None |}.

Definition acme_chunk_map : gmap string chunk := chunk_map_of [acme_chunk].

Definition acme_index (question : string) (limit : nat) : list hit :=
  [{| h_id := "PCH:1" |}].

(** C1. Asking with a scope that names no entity of the graph: the
    candidate set is empty, and the context handed to the answerer is
    the unscoped one, holding the paragraph of another vendor. *)
Theorem ask_unknown_entity_gets_unscoped_context :
  ask_scope acme_graph (Some ["Globex"]) = ∅
  ∧ ask_context acme_index acme_graph acme_chunk_map "terms?" (Some ["Globex"])
    = ["Payment is due in 30 days."]
  ∧ ask_context acme_index acme_graph acme_chunk_map "terms?" (Some ["Globex"])
    = ask_context acme_index acme_graph acme_chunk_map "terms?" None.
Proof. vm_compute. done. Qed.

End UnknownEntity.

(** ** Money *)
Section Money.
Import ExtractAndIndex.

(** C2. Separators are removed before the pattern runs, so the first
    group of at most three digits is all that is read: both amounts of
    the claim come out as 123, and a text with no digit gives nothing. *)
Theorem parse_money_reads_three_digits :
  parse_money "$1,234.56" = Some (Float.Dec 123 0)
  ∧ parse_money "12 345" = Some (Float.Dec 123 0)
  ∧ parse_money "no numbers here" = None
  ∧ Float.of_string "1234.56" = Some (Float.Dec 123456 2)
  ∧ Float.of_string "12345.0" = Some (Float.Dec 12345 0).
Proof. vm_compute. done. Qed.

(** [float] and [repr] on literals beyond what a binary64 keeps: the
    literal is rounded, overflows to the infinity, and large and small
    values are written with an exponent. *)
Lemma float_is_binary64 :
  Float.of_string "9007199254740993" = Some (Float.Dec 9007199254740992 0)
  ∧ Float.of_string "0.1000000000000000055511151231257827" = Some (Float.Dec 1 1)
  ∧ Float.of_string "1234567890123456.7" = Some (Float.Dec 12345678901234568 1)
  ∧ Float.of_string (Py.text (repeat "9"%char 400)) = Some Float.Inf
  ∧ Float.repr (Float.Dec 10000000000000000 0) = "1e+16"
  ∧ Float.repr (Float.Dec 1000000000000000 0) = "1000000000000000.0"
  ∧ Float.repr (Float.Dec 1 5) = "1e-05"
  ∧ Float.repr (Float.Dec 1 4) = "0.0001"
  ∧ Float.repr Float.Inf = "inf"
  ∧ Json.dumps_value (Json.Num Float.Inf) = "Infinity".
Proof. vm_compute. done. Qed.

End Money.

(** ** Paragraph identifiers *)
Section ParagraphIds.
Import ExtractAndIndex.

(** The paragraphs the extractor gave, a single text being one. *)
Definition paragraphs (p : pdf) : list string :=
  match pdf_textract p with
  | inl s => [s]
  | inr l => l
  end.

Definition paragraph_id (doc_id : string) (i : nat) (text : string) : string :=
  make_id "PCH"
    (PDict [("doc", Json.Str doc_id); ("i", Json.Int (Z.of_nat i));
            ("t", Json.Str (Py.slice_to 300 text))]).

Lemma paragraph_loop_lookup p doc_id i0 chunks j :
  paragraph_loop p doc_id i0 chunks !! j =
  (fun text =>
     {| c_id := paragraph_id doc_id (i0 + j) text; c_text := text;
        c_docname := pdf_name p; c_source := pdf_path p;
        c_type := "paragraph"; c_page := None |}) <$> chunks !! j.
Proof.
  revert i0 j. induction chunks as [|t rest IH]; intros i0 j; [done|].
  destruct j as [|j]; cbn [paragraph_loop].
  - rewrite Nat.add_0_r. reflexivity.
  - change ((?x :: ?l) !! S j) with (l !! j).
    rewrite IH. replace (S i0 + j) with (i0 + S j) by lia. reflexivity.
Qed.

Lemma paragraph_id_prefix doc_id i t1 t2 :
  Py.slice_to 300 t1 = Py.slice_to 300 t2 →
  paragraph_id doc_id i t1 = paragraph_id doc_id i t2.
Proof. unfold paragraph_id. by intros ->. Qed.

(** C10. Two paragraphs at the same index of documents with the same
    id, whose texts agree on the first 300 characters, get the same
    chunk id, which is a function of the document id, the index and
    those 300 characters; in the chunk map the later fragment replaces
    the earlier one. *)
Theorem paragraph_ids_collide_on_300_prefix
    (p q : pdf) (doc_id : string) (i : nat) (t1 t2 : string) :
  paragraphs p !! i = Some t1 →
  paragraphs q !! i = Some t2 →
  Py.slice_to 300 t1 = Py.slice_to 300 t2 →
  ∃ c1 c2,
    paragraph_chunks p doc_id !! i = Some c1
    ∧ paragraph_chunks q doc_id !! i = Some c2
    ∧ c_text c1 = t1 ∧ c_text c2 = t2
    ∧ c_id c1 = paragraph_id doc_id i (Py.slice_to 300 t1)
    ∧ c_id c1 = c_id c2
    ∧ chunk_map_of [c1; c2] = {[ c_id c1 := c2 ]}.
Proof.
  intros H1 H2 Heq. unfold paragraph_chunks. fold (paragraphs p) (paragraphs q).
  rewrite !paragraph_loop_lookup, H1, H2. cbn [fmap option_fmap option_map].
  eexists _, _. split; [reflexivity|]. split; [reflexivity|].
  cbn [c_text c_id]. split; [reflexivity|]. split; [reflexivity|].
  rewrite !Nat.add_0_l. split; [|split].
  - apply paragraph_id_prefix. unfold Py.slice_to, Py.text, Py.chars.
    rewrite list_ascii_of_string_of_list_ascii, take_take. reflexivity.
  - apply paragraph_id_prefix, Heq.
  - unfold chunk_map_of. cbn [fold_left c_id].
    rewrite (paragraph_id_prefix _ _ _ _ Heq).
    rewrite insert_insert_eq, insert_empty. reflexivity.
Qed.

Definition two_long_paragraphs : string * string :=
  let a := Py.text (repeat "a"%char 300) in ((a ++ "first")%string, (a ++ "second")%string).

Definition one_paragraph (text : string) : pdf :=
  {| pdf_name := "a.pdf"; pdf_path := "data/pdfs/a.pdf"; pdf_size := 10;
     pdf_textract := inl text; pdf_pages := None |}.

Lemma paragraph_ids_collide_witness :
  ∃ c1 c2,
    paragraph_chunks (one_paragraph (fst two_long_paragraphs)) "DOC:0" !! 0 = Some c1
    ∧ paragraph_chunks (one_paragraph (snd two_long_paragraphs)) "DOC:0" !! 0 = Some c2
    ∧ c_text c1 = fst two_long_paragraphs ∧ c_text c2 = snd two_long_paragraphs
    ∧ c_id c1 = paragraph_id "DOC:0" 0 (Py.slice_to 300 (fst two_long_paragraphs))
    ∧ c_id c1 = c_id c2
    ∧ chunk_map_of [c1; c2] = {[ c_id c1 := c2 ]}.
Proof.
  apply (paragraph_ids_collide_on_300_prefix
           (one_paragraph (fst two_long_paragraphs))
           (one_paragraph (snd two_long_paragraphs)) "DOC:0" 0
           (fst two_long_paragraphs) (snd two_long_paragraphs));
    vm_compute; reflexivity.
Defined.

End ParagraphIds.

(** ** Entity scope *)
Section EntityScope.
Import Nx ExtractAndIndex GraphRag.

Implicit Types (G : DiGraph) (c ent name : string).

(** An edge between [c] and [ent], in either direction. *)
Definition one_hop G c ent : Prop :=
  (c, ent) ∈ dom (edges G) ∨ (ent, c) ∈ dom (edges G).

Lemma elem_of_targets G name ent :
  ent ∈ targets G name ↔ ∃ d, nodes G !! ent = Some d ∧ is_target name d.
Proof.
  unfold targets. rewrite elem_of_dom. unfold is_Some.
  setoid_rewrite map_lookup_filter_Some. naive_solver.
Qed.

Lemma elem_of_in_chunks G ent c :
  c ∈ in_chunks G ent ↔ (c, ent) ∈ dom (edges G) ∧ has_label G c "Chunk".
Proof.
  unfold in_chunks. rewrite elem_of_map. setoid_rewrite elem_of_filter. split.
  - intros ([u v] & -> & [Hv Hl] & Hin). simpl in *. by subst.
  - intros [Hin Hl]. exists (c, ent). simpl. done.
Qed.

Lemma elem_of_out_chunks G ent c :
  c ∈ out_chunks G ent ↔ (ent, c) ∈ dom (edges G) ∧ has_label G c "Chunk".
Proof.
  unfold out_chunks. rewrite elem_of_map. setoid_rewrite elem_of_filter. split.
  - intros ([u v] & -> & [Hv Hl] & Hin). simpl in *. by subst.
  - intros [Hin Hl]. exists (ent, c). simpl. done.
Qed.

Lemma elem_of_fold_union {A} (f : A → gset string) (l : list A) (acc : gset string) c :
  c ∈ fold_left (fun s x => s ∪ f x) l acc ↔ c ∈ acc ∨ ∃ x, x ∈ l ∧ c ∈ f x.
Proof.
  revert acc. induction l as [|x l IH]; intros acc; simpl.
  - split; [auto | intros [?|(? & Hx & _)]; [done | by apply elem_of_nil in Hx]].
  - rewrite IH, elem_of_union. split.
    + intros [[?|?]|(y & ? & ?)]; [by left | right; exists x | right; exists y];
        (split; [|done]); [by left | by right].
    + intros [?|(y & Hy & ?)]; [by left; left|].
      apply elem_of_cons in Hy as [->|?]; [by left; right | right; eauto].
Qed.

Lemma elem_of_cids_for_entity G name c :
  c ∈ cids_for_entity G name ↔
  ∃ ent d, nodes G !! ent = Some d ∧ is_target name d
           ∧ has_label G c "Chunk" ∧ one_hop G c ent.
Proof.
  unfold cids_for_entity, one_hop.
  assert (∀ l acc,
    fold_left (fun cids ent => cids ∪ in_chunks G ent ∪ out_chunks G ent) l acc =
    fold_left (fun s x => s ∪ (in_chunks G x ∪ out_chunks G x)) l acc) as Hfold.
  { induction l as [|x l IH]; intros acc; simpl; [done|].
    rewrite IH. f_equal. by rewrite (assoc_L (∪)). }
  rewrite Hfold, elem_of_fold_union.
  setoid_rewrite elem_of_elements. setoid_rewrite elem_of_targets.
  setoid_rewrite elem_of_union.
  setoid_rewrite elem_of_in_chunks. setoid_rewrite elem_of_out_chunks.
  split.
  - intros [Hc|(ent & (d & ? & ?) & Hc)]; [by apply not_elem_of_empty in Hc|].
    exists ent, d. naive_solver.
  - intros (ent & d & ? & ? & ? & Hc). right. exists ent. naive_solver.
Qed.

(** The crafted graph of the design: chunk A mentions entity X, chunk B
    mentions entity Y, chunk C mentions nothing. *)
Definition scope_graph : DiGraph :=
  let entity n := attrs [("label", AStr "Entity"); ("type", AStr "Vendor"); ("name", AStr n)] in
  let chunk_node := attrs [("label", AStr "Chunk"); ("type", AStr "paragraph")] in
  let g := add_node Nx.empty "X" (entity "X") in
  let g := add_node g "Y" (entity "Y") in
  let g := add_node g "A" chunk_node in
  let g := add_node g "B" chunk_node in
  let g := add_node g "C" chunk_node in
  let g := add_edge g "A" "X" (attrs [("rel", AStr "MENTIONS")]) in
  add_edge g "B" "Y" (attrs [("rel", AStr "MENTIONS")]).

(** C5. The candidate set of a list of requested names holds exactly the
    nodes labelled Chunk that share an edge, in either direction, with
    an Entity node whose name equals a requested name up to case; a
    requested name that matches no entity adds nothing; on the crafted
    graph, scoping to X gives A and neither B nor C. *)
Theorem ask_scope_is_one_hop_union G (names : list string) c :
  (c ∈ ask_scope G (Some names) ↔
     ∃ name ent d, name ∈ names ∧ nodes G !! ent = Some d
       ∧ d !! "label" = Some (AStr "Entity")
       ∧ Py.lower (attr_str (default (AStr EmptyString) (d !! "name"))) = Py.lower name
       ∧ has_label G c "Chunk" ∧ one_hop G c ent)
  ∧ (∀ name, targets G name = ∅ → cids_for_entity G name = ∅)
  ∧ ask_scope scope_graph (Some ["X"]) = {[ "A" ]}
  ∧ ask_scope scope_graph (Some ["x"; "nobody"]) = {[ "A" ]}.
Proof.
  split; [|split; [|split; vm_compute; reflexivity]].
  - assert (c ∈ ask_scope G (Some names) ↔
            ∃ name, name ∈ names ∧ c ∈ cids_for_entity G name) as ->.
    { unfold ask_scope. destruct names as [|n names].
      - split; [by intros ?%not_elem_of_empty | by intros (? & ?%elem_of_nil & _)].
      - rewrite elem_of_fold_union. split; [|by right].
        by intros [?%not_elem_of_empty|?]. }
    setoid_rewrite elem_of_cids_for_entity. unfold is_target. naive_solver.
  - intros name Hno. unfold cids_for_entity. rewrite Hno, elements_empty. done.
Qed.

End EntityScope.
(** ** Labels and relations of a graph under construction *)
Section GraphFacts.
Import Nx ExtractAndIndex.

Implicit Types (g G H : DiGraph) (n u v : string) (d : gmap string attr).

(** [G.nodes[n].get("label")] and the [rel] of an edge. *)
Definition node_label g n : option attr := nodes g !! n ≫= (fun d => d !! "label").
Definition edge_rel g u v : option attr := edges g !! (u, v) ≫= (fun d => d !! "rel").

Lemma has_label_node_label g n l : has_label g n l ↔ node_label g n = Some (AStr l).
Proof. done. Qed.

Lemma update_lookup {K} `{Countable K} (k k' : K) new (m : gmap K (gmap string attr)) key :
  update k new m !! k' ≫= (fun d => d !! key) =
  if decide (k = k')
  then match new !! key with
       | Some a => Some a
       | None => m !! k' ≫= (fun d => d !! key)
       end
  else m !! k' ≫= (fun d => d !! key).
Proof.
  unfold update. destruct (decide (k = k')) as [<-|Hne].
  - rewrite lookup_insert_eq. simpl. rewrite lookup_union.
    destruct (new !! key) as [a|] eqn:Hn.
    + by destruct (default ∅ (m !! k) !! key).
    + destruct (m !! k) as [old|]; simpl; [by destruct (old !! key)|by rewrite lookup_empty].
  - by rewrite lookup_insert_ne.
Qed.

Lemma node_label_add_node g n attrs m :
  node_label (add_node g n attrs) m =
  if decide (n = m)
  then match attrs !! "label" with Some a => Some a | None => node_label g m end
  else node_label g m.
Proof. unfold node_label, add_node. simpl. apply update_lookup. Qed.

Lemma node_label_add_edge g u v attrs m :
  node_label (add_edge g u v attrs) m = node_label g m.
Proof.
  unfold node_label, add_edge. simpl. rewrite !update_lookup, lookup_empty.
  repeat case_decide; done.
Qed.

Lemma edge_rel_add_node g n attrs u v :
  edge_rel (add_node g n attrs) u v = edge_rel g u v.
Proof. done. Qed.

Lemma edge_rel_add_edge g u v attrs u' v' :
  edge_rel (add_edge g u v attrs) u' v' =
  if decide ((u, v) = (u', v'))
  then match attrs !! "rel" with Some a => Some a | None => edge_rel g u' v' end
  else edge_rel g u' v'.
Proof. unfold edge_rel, add_edge. simpl. apply update_lookup. Qed.

Lemma merge_lookup {K} `{Countable K} (a b : gmap K (gmap string attr)) k key :
  merge a b !! k ≫= (fun d => d !! key) =
  match b !! k ≫= (fun d => d !! key) with
  | Some x => Some x
  | None => a !! k ≫= (fun d => d !! key)
  end.
Proof.
  unfold merge. rewrite lookup_union_with.
  destruct (a !! k) as [x|], (b !! k) as [y|]; simpl; try done.
  - rewrite lookup_union. by destruct (y !! key), (x !! key).
  - by destruct (y !! key).
Qed.

Lemma node_label_compose G H n :
  node_label (compose G H) n =
  match node_label H n with Some a => Some a | None => node_label G n end.
Proof. apply merge_lookup. Qed.

Lemma edge_rel_compose G H u v :
  edge_rel (compose G H) u v =
  match edge_rel H u v with Some a => Some a | None => edge_rel G u v end.
Proof. apply merge_lookup. Qed.

Lemma node_label_empty n : node_label Nx.empty n = None.
Proof. done. Qed.

Lemma edge_rel_empty u v : edge_rel Nx.empty u v = None.
Proof. done. Qed.

(** The first attribute of a literal attribute list. *)
Lemma attrs_head key a rest : attrs ((key, a) :: rest) !! key = Some a.
Proof. unfold attrs. simpl. apply lookup_insert_eq. Qed.

(** The label that goes with the kind an identifier starts with. *)
Definition kind_label (n : string) : option string :=
  let kind := Py.slice_to 4 n in
  if String.eqb kind "DOC:" then Some "Document"
  else if String.eqb kind "ENT:" then Some "Entity"
  else if String.eqb kind "PCH:" || String.eqb kind "TBL:" then Some "Chunk"
  else if String.eqb kind "LIT:" then Some "LineItem"
  else None.

Lemma make_id_form prefix p :
  ∃ h, make_id prefix p = (prefix ++ ":" ++ h)%string.
Proof. eexists. reflexivity. Qed.

Lemma kind_label_make_id prefix p l :
  (∀ h, kind_label (prefix ++ ":" ++ h)%string = Some l) →
  kind_label (make_id prefix p) = Some l.
Proof. intros Hk. destruct (make_id_form prefix p) as [h ->]. apply Hk. Qed.

Lemma kind_label_doc p : kind_label (make_id "DOC" p) = Some "Document".
Proof. apply kind_label_make_id. intros h. reflexivity. Qed.
Lemma kind_label_ent p : kind_label (make_id "ENT" p) = Some "Entity".
Proof. apply kind_label_make_id. intros h. reflexivity. Qed.
Lemma kind_label_pch p : kind_label (make_id "PCH" p) = Some "Chunk".
Proof. apply kind_label_make_id. intros h. reflexivity. Qed.
Lemma kind_label_tbl p : kind_label (make_id "TBL" p) = Some "Chunk".
Proof. apply kind_label_make_id. intros h. reflexivity. Qed.
Lemma kind_label_lit p : kind_label (make_id "LIT" p) = Some "LineItem".
Proof. apply kind_label_make_id. intros h. reflexivity. Qed.

End GraphFacts.

(** ** Table rows *)
Section TableRows.
Import Nx ExtractAndIndex.

Implicit Types (p : pdf) (row : list (option string)) (c : chunk).

(** A cell that is missing, empty or made of whitespace only. *)
Definition blank_cell (cell : option string) : Prop :=
  ∀ s, cell = Some s → Forall (fun x => Py.isspace x = true) (Py.chars s).

Definition blank_row row : Prop := Forall blank_cell row.

Lemma text_nil_iff (l : list ascii) : Py.text l = EmptyString ↔ l = [].
Proof. by destruct l. Qed.

Lemma truthy_false_iff (s : string) : Py.truthy s = false ↔ s = EmptyString.
Proof. by destruct s. Qed.

Lemma lstrip_nil_iff (l : list ascii) :
  Py.lstrip_chars l = [] ↔ Forall (fun x => Py.isspace x = true) l.
Proof.
  induction l as [|x l IH]; simpl; [by split; [constructor|]|].
  destruct (Py.isspace x) eqn:Hx.
  - rewrite IH. split; [by constructor | by inversion 1].
  - split; [done | inversion 1; congruence].
Qed.

Lemma lstrip_head (l : list ascii) x r :
  Py.lstrip_chars l = x :: r → Py.isspace x = false.
Proof.
  induction l as [|y l IH]; simpl; [done|].
  destruct (Py.isspace y) eqn:Hy; [done | congruence].
Qed.

Lemma strip_blank_iff (s : string) :
  Py.truthy (Py.strip s) = false ↔ Forall (fun x => Py.isspace x = true) (Py.chars s).
Proof.
  rewrite truthy_false_iff. unfold Py.strip. rewrite text_nil_iff. split.
  - intros Hr. apply (f_equal (@rev ascii)) in Hr. rewrite rev_involutive in Hr.
    simpl in Hr. apply lstrip_nil_iff, Forall_rev in Hr. rewrite rev_involutive in Hr.
    destruct (Py.lstrip_chars (Py.chars s)) as [|x r] eqn:Hl; [by apply lstrip_nil_iff|].
    apply lstrip_head in Hl. inversion Hr; congruence.
  - intros Hs. apply lstrip_nil_iff in Hs. by rewrite Hs.
Qed.

Lemma row_cells_blank_iff row :
  existsb Py.truthy (row_cells row) = false ↔ blank_row row.
Proof.
  unfold blank_row, row_cells. induction row as [|cell row IH]; simpl.
  - split; [constructor | done].
  - rewrite orb_false_iff, IH, Forall_cons. apply and_iff_compat_r.
    rewrite strip_blank_iff. unfold blank_cell. destruct cell as [s|]; simpl.
    + split; [by intros ? ? [= <-] | auto].
    + split; [done | constructor].
Qed.

(** The fragment record of a row that is not blank. *)
Definition row_record p (doc_id : string) (page_index r_i : nat) row : chunk :=
  let cells := row_cells row in
  {| c_id := make_id "TBL"
       (PDict [("doc", Json.Str doc_id); ("p", Json.Int (Z.of_nat page_index));
               ("r", Json.Int (Z.of_nat r_i));
               ("c", Json.Arr (map Json.Str (take 10 cells)))]);
     c_text := Py.join " | " cells; c_docname := pdf_name p;
     c_source := pdf_path p; c_type := "table-row";
     c_page := Some page_index |}.

Lemma row_chunk_None_iff p doc_id page_index r_i row :
  row_chunk p doc_id page_index r_i row = None ↔ blank_row row.
Proof.
  rewrite <- row_cells_blank_iff. unfold row_chunk.
  destruct (existsb Py.truthy (row_cells row)); simpl; split; done.
Qed.

Lemma row_chunk_Some_iff p doc_id page_index r_i row c :
  row_chunk p doc_id page_index r_i row = Some c ↔
  ¬ blank_row row ∧ c = row_record p doc_id page_index r_i row.
Proof.
  rewrite <- row_cells_blank_iff. unfold row_chunk, row_record.
  destruct (existsb Py.truthy (row_cells row)); simpl.
  - split; [intros [= <-]; by split | intros [_ ->]; done].
  - split; [done | by intros [? _]].
Qed.

Lemma elem_of_rows_loop p doc_id page_index r0 table c :
  c ∈ rows_loop p doc_id page_index r0 table ↔
  ∃ j row, table !! j = Some row ∧ ¬ blank_row row
           ∧ c = row_record p doc_id page_index (r0 + j) row.
Proof.
  revert r0. induction table as [|row table IH]; intros r0.
  - split; [by intros ?%elem_of_nil | by intros (? & ? & ? & _)].
  - cbn [rows_loop].
    assert (c ∈ rows_loop p doc_id page_index (S r0) table ↔
            ∃ j row', (row :: table) !! S j = Some row' ∧ ¬ blank_row row'
                      ∧ c = row_record p doc_id page_index (r0 + S j) row') as Hrest.
    { rewrite IH. by setoid_rewrite Nat.add_succ_comm. }
    destruct (row_chunk p doc_id page_index r0 row) as [c0|] eqn:Hrow.
    + apply row_chunk_Some_iff in Hrow as [Hnb ->].
      rewrite elem_of_cons, Hrest. split.
      * intros [->|(j & row' & ?)]; [exists 0, row | exists (S j), row'; done].
        rewrite Nat.add_0_r. done.
      * intros ([|j] & row' & Hj & ? & ->).
        -- left. injection Hj as <-. by rewrite Nat.add_0_r.
        -- right. eauto.
    + apply row_chunk_None_iff in Hrow. rewrite Hrest. split.
      * intros (j & row' & ?). eauto.
      * intros ([|j] & row' & Hj & Hnb & ->); [|eauto].
        injection Hj as <-. done.
Qed.

(** The page at position [j] is reached when no earlier page raises. *)
Definition reached (pages : list page_result) (j : nat) : Prop :=
  ∀ i, i < j → pages !! i ≠ Some ExtractRaises.

Lemma elem_of_pages_loop p doc_id i0 pages c :
  c ∈ pages_loop p doc_id i0 pages ↔
  ∃ j ts table r_i row,
    pages !! j = Some (Tables ts) ∧ reached pages j
    ∧ table ∈ ts ∧ table !! r_i = Some row ∧ ¬ blank_row row
    ∧ c = row_record p doc_id (i0 + j) r_i row.
Proof.
  revert i0. induction pages as [|pg pages IH]; intros i0.
  - split; [by intros ?%elem_of_nil | by intros (? & ? & ? & ? & ? & ? & _)].
  - assert (∀ j, pg ≠ ExtractRaises → reached pages j ↔ reached (pg :: pages) (S j)) as Hreach.
    { intros j Hpg. unfold reached. split.
      - intros Hr [|i] Hi; simpl; [congruence | apply Hr; lia].
      - intros Hr i Hi. apply (Hr (S i)). lia. }
    assert (pg ≠ ExtractRaises →
      (c ∈ pages_loop p doc_id (S i0) pages ↔
       ∃ j ts table r_i row,
         (pg :: pages) !! S j = Some (Tables ts) ∧ reached (pg :: pages) (S j)
         ∧ table ∈ ts ∧ table !! r_i = Some row ∧ ¬ blank_row row
         ∧ c = row_record p doc_id (i0 + S j) r_i row)) as Hrest.
    { intros Hpg. rewrite IH. setoid_rewrite (Hreach _ Hpg).
      by setoid_rewrite Nat.add_succ_comm. }
    destruct pg as [| |ts0]; cbn [pages_loop].
    + split; [by intros ?%elem_of_nil|].
      intros ([|j] & ts & table & r_i & row & Hj & Hr & _); [done|].
      exfalso. apply (Hr 0); [lia | done].
    + rewrite Hrest by done. split.
      * intros (j & ?). eauto.
      * intros ([|j] & ts & table & r_i & row & Hj & ?); [done | eauto 10].
    + rewrite elem_of_app, Hrest by done. unfold tables_loop.
      rewrite list_elem_of_In, in_flat_map. setoid_rewrite <- list_elem_of_In.
      setoid_rewrite elem_of_rows_loop. split.
      * intros [(table & Ht & r_i & row & ? & ? & ->)|(j & ?)]; [|eauto].
        exists 0, ts0, table, r_i, row. rewrite Nat.add_0_r.
        repeat split; try done. intros i Hi. lia.
      * intros ([|j] & ts & table & r_i & row & Hj & Hr & Ht & ? & ? & ->).
        -- left. injection Hj as <-. rewrite Nat.add_0_r. eauto 10.
        -- right. eauto 12.
Qed.

(** Where a table-row fragment comes from: a row that is not blank, in
    a table of a page that the generator reached. *)
Lemma elem_of_table_rows p doc_id c :
  c ∈ table_rows p doc_id ↔
  ∃ pages j ts table r_i row,
    pdf_pages p = Some pages
    ∧ pages !! j = Some (Tables ts) ∧ reached pages j
    ∧ table ∈ ts ∧ table !! r_i = Some row ∧ ¬ blank_row row
    ∧ c = row_record p doc_id (S j) r_i row.
Proof.
  unfold table_rows. destruct (pdf_pages p) as [pages|].
  - rewrite elem_of_pages_loop. split.
    + intros (j & ts & table & r_i & row & ?). exists pages, j, ts, table, r_i, row. done.
    + intros (? & j & ts & table & r_i & row & [= <-] & ?). eauto 10.
  - split; [by intros ?%elem_of_nil | by intros (? & ? & ? & ? & ? & ? & ? & _)].
Qed.

End TableRows.

(** ** What the builder keeps true of the graph *)
Section BuildInvariant.
Import Nx ExtractAndIndex.

Variable doc : string.
Variable ent : option string.
(** The identifiers of the fragments of the document. *)
Variable frag : string → Prop.

Record graph_inv (g : DiGraph) : Prop := {
  inv_kind : ∀ n a, node_label g n = Some a → Some a = AStr <$> kind_label n;
  inv_entity : ∀ n, node_label g n = Some (AStr "Entity") → ent = Some n;
  inv_chunk : ∀ n, node_label g n = Some (AStr "Chunk") → frag n;
  inv_has_chunk : ∀ u v, edge_rel g u v = Some (AStr "HAS_CHUNK") → u = doc ∧ frag v;
  inv_has_lineitem : ∀ u v, edge_rel g u v = Some (AStr "HAS_LINEITEM") → frag u;
  inv_mentions : ∀ u v, edge_rel g u v = Some (AStr "MENTIONS") → frag u
}.

Lemma graph_inv_empty : graph_inv Nx.empty.
Proof. by split. Qed.

Lemma graph_inv_add_node g n attrs l :
  graph_inv g →
  attrs !! "label" = Some (AStr l) →
  kind_label n = Some l →
  (l = "Entity" → ent = Some n) →
  (l = "Chunk" → frag n) →
  graph_inv (add_node g n attrs).
Proof.
  intros [Ik Ie Ic Ihc Ihl Im] Hl Hk He Hc. split; [| | |done|done|done].
  - intros m a. rewrite node_label_add_node, Hl.
    case_decide; [intros [= <-]; subst; by rewrite Hk | apply Ik].
  - intros m. rewrite node_label_add_node, Hl.
    case_decide; [intros [= ->]; subst; by apply He | apply Ie].
  - intros m. rewrite node_label_add_node, Hl.
    case_decide; [intros [= ->]; subst; by apply Hc | apply Ic].
Qed.

Lemma graph_inv_add_edge g u v attrs r :
  graph_inv g →
  attrs !! "rel" = Some (AStr r) →
  (r = "HAS_CHUNK" → u = doc ∧ frag v) →
  (r = "HAS_LINEITEM" → frag u) →
  (r = "MENTIONS" → frag u) →
  graph_inv (add_edge g u v attrs).
Proof.
  intros [Ik Ie Ic Ihc Ihl Im] Hr H1 H2 H3. split.
  - intros m a. rewrite node_label_add_edge. apply Ik.
  - intros m. rewrite node_label_add_edge. apply Ie.
  - intros m. rewrite node_label_add_edge. apply Ic.
  - intros u' v'. rewrite edge_rel_add_edge, Hr.
    case_decide as Heq; [injection Heq as <- <-; intros [= ->]; by apply H1 | apply Ihc].
  - intros u' v'. rewrite edge_rel_add_edge, Hr.
    case_decide as Heq; [injection Heq as <- <-; intros [= ->]; by apply H2 | apply Ihl].
  - intros u' v'. rewrite edge_rel_add_edge, Hr.
    case_decide as Heq; [injection Heq as <- <-; intros [= ->]; by apply H3 | apply Im].
Qed.

Lemma row_step_inv st rc :
  graph_inv (fst st) →
  kind_label (c_id rc) = Some "Chunk" → frag (c_id rc) →
  graph_inv (fst (row_step doc ent st rc)).
Proof.
  destruct st as [g items]. intros Hg Hk Hf. unfold row_step.
  match goal with |- context [add_edge (add_node g ?n ?a) ?u ?v ?b] =>
    assert (graph_inv (add_edge (add_node g n a) u v b)) as Hg1 end.
  { eapply graph_inv_add_edge; [| apply attrs_head | | |]; try done.
    eapply graph_inv_add_node; [done | apply attrs_head | done | done | done]. }
  destruct (if (2 <=? _)%nat then _ else _) as [ext|]; [|done].
  match goal with |- context [add_edge (add_node ?g0 ?n ?a) ?u ?v ?b] =>
    assert (graph_inv (add_edge (add_node g0 n a) u v b)) as Hg2 end.
  { eapply graph_inv_add_edge; [| apply attrs_head | | |]; try done.
    eapply graph_inv_add_node; [done | apply attrs_head | apply kind_label_lit | done | done]. }
  destruct ent as [e|]; [|done]. cbn [fst].
  eapply graph_inv_add_edge; [done | apply attrs_head | done | done | done].
Qed.

Lemma para_step_inv g pc :
  graph_inv g →
  kind_label (c_id pc) = Some "Chunk" → frag (c_id pc) →
  graph_inv (para_step doc ent g pc).
Proof.
  intros Hg Hk Hf. unfold para_step.
  match goal with |- context [add_edge (add_node g ?n ?a) ?u ?v ?b] =>
    assert (graph_inv (add_edge (add_node g n a) u v b)) as Hg1 end.
  { eapply graph_inv_add_edge; [| apply attrs_head | | |]; try done.
    eapply graph_inv_add_node; [done | apply attrs_head | done | done | done]. }
  destruct ent as [e|]; [|done].
  eapply graph_inv_add_edge; [done | apply attrs_head | done | done | done].
Qed.

Lemma fold_row_step_inv l st :
  graph_inv (fst st) →
  (∀ c, c ∈ l → kind_label (c_id c) = Some "Chunk" ∧ frag (c_id c)) →
  graph_inv (fst (fold_left (row_step doc ent) l st)).
Proof.
  revert st. induction l as [|c l IH]; intros st Hg Hl; [done|].
  simpl. apply IH.
  - apply row_step_inv; [done | apply Hl; left | apply Hl; left].
  - intros c' Hc'. apply Hl. by right.
Qed.

Lemma fold_para_step_inv l g :
  graph_inv g →
  (∀ c, c ∈ l → kind_label (c_id c) = Some "Chunk" ∧ frag (c_id c)) →
  graph_inv (fold_left (para_step doc ent) l g).
Proof.
  revert g. induction l as [|c l IH]; intros g Hg Hl; [done|].
  simpl. apply IH.
  - apply para_step_inv; [done | apply Hl; left | apply Hl; left].
  - intros c' Hc'. apply Hl. by right.
Qed.

(** A node that is neither a chunk nor a line item keeps its label
    through both loops. *)
Lemma row_step_keeps e st rc :
  kind_label e ≠ Some "Chunk" → kind_label e ≠ Some "LineItem" →
  kind_label (c_id rc) = Some "Chunk" →
  node_label (fst (row_step doc ent st rc)) e = node_label (fst st) e.
Proof.
  destruct st as [g items]. intros Hc Hl Hk. unfold row_step.
  destruct (if (2 <=? _)%nat then _ else _) as [ext|];
    [destruct ent as [e'|]|]; cbn [fst];
    rewrite ?node_label_add_edge, ?node_label_add_node, ?node_label_add_edge,
      ?node_label_add_node;
    repeat case_decide; subst; try done;
    try (exfalso; apply Hl, kind_label_lit); by exfalso.
Qed.

Lemma para_step_keeps e g pc :
  kind_label e ≠ Some "Chunk" →
  kind_label (c_id pc) = Some "Chunk" →
  node_label (para_step doc ent g pc) e = node_label g e.
Proof.
  intros Hc Hk. unfold para_step.
  destruct ent as [e'|];
    rewrite ?node_label_add_edge, ?node_label_add_node;
    case_decide; subst; done.
Qed.

Lemma fold_row_step_keeps e l st :
  kind_label e ≠ Some "Chunk" → kind_label e ≠ Some "LineItem" →
  (∀ c, c ∈ l → kind_label (c_id c) = Some "Chunk") →
  node_label (fst (fold_left (row_step doc ent) l st)) e = node_label (fst st) e.
Proof.
  intros Hc Hl. revert st. induction l as [|c l IH]; intros st Hk; [done|].
  simpl. rewrite IH by (intros; apply Hk; by right).
  apply row_step_keeps; [done | done | apply Hk; left].
Qed.

Lemma fold_para_step_keeps e l g :
  kind_label e ≠ Some "Chunk" →
  (∀ c, c ∈ l → kind_label (c_id c) = Some "Chunk") →
  node_label (fold_left (para_step doc ent) l g) e = node_label g e.
Proof.
  intros Hc. revert g. induction l as [|c l IH]; intros g Hk; [done|].
  simpl. rewrite IH by (intros; apply Hk; by right).
  apply para_step_keeps; [done | apply Hk; left].
Qed.

End BuildInvariant.

(** ** The graph of one document *)
Section BuiltGraph.
Import Nx ExtractAndIndex.

Implicit Types (p : pdf) (n : string).

(** The text the sniffers read, and the vendor the builder keeps. *)
Definition fulltext p : string :=
  Py.join (String "010" EmptyString) (map c_text (paragraph_chunks p (document_id p))).

Definition doc_vendor p : option string := vendor_found (sniff_vendor (fulltext p)).

Definition fragments p : list chunk :=
  table_rows p (document_id p) ++ paragraph_chunks p (document_id p).

Definition built_graph p : DiGraph := fst (fst (build_graph_and_maps p)).

Definition is_fragment p n : Prop := ∃ c, c ∈ fragments p ∧ n = c_id c.

(** The graph before the two loops: the document and its entity. *)
Definition graph_head p : DiGraph :=
  let doc_id := document_id p in
  let g := add_node Nx.empty doc_id
    (attrs [("label", AStr "Document"); ("docname", AStr (pdf_name p));
            ("path", AStr (pdf_path p))]) in
  match doc_vendor p with
  | Some v =>
      let g := add_node g (entity_id v)
        (attrs [("label", AStr "Entity"); ("type", AStr "Vendor"); ("name", AStr v)]) in
      add_edge g doc_id (entity_id v) (attrs [("rel", AStr "HAS_ENTITY")])
  | None => g
  end.

Lemma built_graph_unfold p :
  built_graph p =
  fold_left (para_step (document_id p) (entity_id <$> doc_vendor p))
    (paragraph_chunks p (document_id p))
    (fst (fold_left (row_step (document_id p) (entity_id <$> doc_vendor p))
            (table_rows p (document_id p)) (graph_head p, []))).
Proof.
  unfold built_graph, build_graph_and_maps, graph_head, doc_vendor, fulltext.
  destruct (fold_left (row_step _ _) _ _) as [g items]. reflexivity.
Qed.

Lemma build_fragments p : snd (build_graph_and_maps p) = fragments p.
Proof.
  unfold build_graph_and_maps, fragments.
  destruct (fold_left (row_step _ _) _ _) as [g items]. reflexivity.
Qed.

Lemma table_rows_kind p doc_id c :
  c ∈ table_rows p doc_id → kind_label (c_id c) = Some "Chunk".
Proof.
  rewrite elem_of_table_rows.
  intros (? & ? & ? & ? & ? & ? & _ & _ & _ & _ & _ & _ & ->). apply kind_label_tbl.
Qed.

Lemma paragraph_chunks_kind p doc_id c :
  c ∈ paragraph_chunks p doc_id → kind_label (c_id c) = Some "Chunk".
Proof.
  intros [i Hi]%list_elem_of_lookup. unfold paragraph_chunks in Hi.
  rewrite paragraph_loop_lookup in Hi.
  destruct (_ !! i) as [t|]; [|done]. injection Hi as <-. apply kind_label_pch.
Qed.

Lemma fragments_kind p c : c ∈ fragments p → kind_label (c_id c) = Some "Chunk".
Proof.
  unfold fragments. rewrite elem_of_app.
  intros [?|?]; [by eapply table_rows_kind | by eapply paragraph_chunks_kind].
Qed.

Lemma graph_head_inv p :
  graph_inv (document_id p) (entity_id <$> doc_vendor p) (is_fragment p) (graph_head p).
Proof.
  unfold graph_head.
  match goal with |- context [add_node Nx.empty ?n ?a] =>
    assert (graph_inv (document_id p) (entity_id <$> doc_vendor p) (is_fragment p)
              (add_node Nx.empty n a)) as Hg0 end.
  { eapply graph_inv_add_node;
      [apply graph_inv_empty | apply attrs_head | apply kind_label_doc | done | done]. }
  destruct (doc_vendor p) as [v|]; [|done].
  eapply graph_inv_add_edge; [| apply attrs_head | done | done | done].
  eapply graph_inv_add_node; [done | apply attrs_head | apply kind_label_ent | done | done].
Qed.

Lemma built_graph_inv p :
  graph_inv (document_id p) (entity_id <$> doc_vendor p) (is_fragment p) (built_graph p).
Proof.
  rewrite built_graph_unfold.
  apply fold_para_step_inv; [apply fold_row_step_inv; [apply graph_head_inv|]|].
  - intros c Hc. split; [by eapply table_rows_kind|].
    exists c. split; [|done]. unfold fragments. rewrite elem_of_app. by left.
  - intros c Hc. split; [by eapply paragraph_chunks_kind|].
    exists c. split; [|done]. unfold fragments. rewrite elem_of_app. by right.
Qed.

Lemma built_graph_keeps p e :
  kind_label e ≠ Some "Chunk" → kind_label e ≠ Some "LineItem" →
  node_label (built_graph p) e = node_label (graph_head p) e.
Proof.
  intros Hc Hl. rewrite built_graph_unfold.
  rewrite fold_para_step_keeps, fold_row_step_keeps; try done.
  - intros c ?. by eapply table_rows_kind.
  - intros c ?. by eapply paragraph_chunks_kind.
Qed.

Lemma kind_label_entity_id v : kind_label (entity_id v) = Some "Entity".
Proof. apply kind_label_ent. Qed.

Lemma kind_label_document_id p : kind_label (document_id p) = Some "Document".
Proof. apply kind_label_doc. Qed.

(** The Entity nodes of the graph of a document: the one named by the
    vendor that was sniffed, if any. *)
Lemma built_graph_entity p n :
  has_label (built_graph p) n "Entity" ↔ ∃ v, doc_vendor p = Some v ∧ n = entity_id v.
Proof.
  rewrite has_label_node_label. split.
  - intros Hn. apply (inv_entity _ _ _ _ (built_graph_inv p)) in Hn.
    destruct (doc_vendor p) as [v|]; [|done]. injection Hn as <-. eauto.
  - intros (v & Hv & ->).
    rewrite built_graph_keeps by (rewrite kind_label_entity_id; done).
    unfold graph_head. rewrite Hv.
    rewrite node_label_add_edge, node_label_add_node, decide_True by done.
    by rewrite attrs_head.
Qed.

Lemma built_graph_document p :
  has_label (built_graph p) (document_id p) "Document".
Proof.
  rewrite has_label_node_label.
  rewrite built_graph_keeps by (rewrite kind_label_document_id; done).
  unfold graph_head. destruct (doc_vendor p) as [v|].
  - rewrite node_label_add_edge, node_label_add_node.
    case_decide as Heq.
    + exfalso. pose proof (kind_label_entity_id v) as Hk. rewrite Heq in Hk.
      by rewrite kind_label_document_id in Hk.
    + rewrite node_label_add_node, decide_True by done. by rewrite attrs_head.
  - rewrite node_label_add_node, decide_True by done. by rewrite attrs_head.
Qed.

(** C7. A row whose cells are all missing, empty or whitespace gives no
    fragment record; every table-row fragment comes from a row that is
    not blank; and in the graph of the document every Chunk node, every
    [HAS_CHUNK] edge target and every [HAS_LINEITEM] or [MENTIONS] edge
    source is the id of such a fragment or of a paragraph. *)
Theorem blank_rows_are_skipped p :
  (∀ doc_id page_index r_i row,
      blank_row row → row_chunk p doc_id page_index r_i row = None)
  ∧ (∀ c, c ∈ table_rows p (document_id p) ↔
       ∃ pages j ts table r_i row,
         pdf_pages p = Some pages
         ∧ pages !! j = Some (Tables ts) ∧ reached pages j
         ∧ table ∈ ts ∧ table !! r_i = Some row ∧ ¬ blank_row row
         ∧ c = row_record p (document_id p) (S j) r_i row)
  ∧ snd (build_graph_and_maps p)
    = table_rows p (document_id p) ++ paragraph_chunks p (document_id p)
  ∧ (∀ n, has_label (built_graph p) n "Chunk" → is_fragment p n)
  ∧ (∀ u v, edge_rel (built_graph p) u v = Some (AStr "HAS_CHUNK") →
       u = document_id p ∧ is_fragment p v)
  ∧ (∀ u v, edge_rel (built_graph p) u v = Some (AStr "HAS_LINEITEM") →
       is_fragment p u)
  ∧ (∀ u v, edge_rel (built_graph p) u v = Some (AStr "MENTIONS") →
       is_fragment p u).
Proof.
  pose proof (built_graph_inv p) as [Ik Ie Ic Ihc Ihl Im].
  split; [intros; by apply row_chunk_None_iff|].
  split; [intros c; apply elem_of_table_rows|].
  split; [apply build_fragments|].
  split; [intros n Hn; by apply Ic|]. done.
Qed.

End BuiltGraph.

(** ** The corpus graph *)
Section Corpus.
Import Nx ExtractAndIndex.

Implicit Types (p q : pdf) (n : string) (G : DiGraph).

Definition corpus_graph (pdfs : list pdf) : DiGraph := fst (fst (build_corpus pdfs)).

(** The nodes labelled Entity. *)
Definition entity_nodes G : gset string :=
  dom (filter (fun kv => snd kv !! "label" = Some (AStr "Entity")) (nodes G)).

Lemma elem_of_entity_nodes G n : n ∈ entity_nodes G ↔ has_label G n "Entity".
Proof.
  unfold entity_nodes, has_label. rewrite elem_of_dom. unfold is_Some.
  setoid_rewrite map_lookup_filter_Some. simpl. split.
  - intros (d & -> & ?). done.
  - destruct (nodes G !! n) as [d|]; [|done]. simpl. eauto.
Qed.

(** Every label agrees with the kind of the identifier, and the Entity
    nodes are the entities of the vendors of the documents seen. *)
Definition corpus_inv (seen : list pdf) G : Prop :=
  (∀ n a, node_label G n = Some a → Some a = AStr <$> kind_label n)
  ∧ (∀ n, has_label G n "Entity" ↔
          ∃ p v, p ∈ seen ∧ doc_vendor p = Some v ∧ n = entity_id v).

Lemma corpus_step_graph st p :
  fst (fst (corpus_step st p)) = compose (fst (fst st)) (built_graph p).
Proof.
  destruct st as [[G dms] cs]. unfold corpus_step, built_graph.
  destruct (build_graph_and_maps p) as [[g dm] chunks]. reflexivity.
Qed.

Lemma corpus_inv_step seen G p :
  corpus_inv seen G → corpus_inv (seen ++ [p]) (compose G (built_graph p)).
Proof.
  intros [Hk He]. pose proof (built_graph_inv p) as [Ik _ _ _ _ _]. split.
  - intros n a. rewrite node_label_compose.
    destruct (node_label (built_graph p) n) as [b|] eqn:Hb.
    + intros [= <-]. by apply Ik.
    + apply Hk.
  - intros n. rewrite has_label_node_label, node_label_compose.
    setoid_rewrite elem_of_app. setoid_rewrite list_elem_of_singleton.
    destruct (node_label (built_graph p) n) as [b|] eqn:Hb.
    + split.
      * intros [= ->]. apply built_graph_entity in Hb as (v & ? & ->). eauto 6.
      * intros (q & v & [Hq| ->] & Hv & ->).
        -- assert (has_label G (entity_id v) "Entity") as HG by (apply He; eauto).
           apply Hk in HG. apply Ik in Hb. congruence.
        -- assert (has_label (built_graph p) (entity_id v) "Entity") as Hp
             by (apply built_graph_entity; eauto).
           rewrite has_label_node_label in Hp. congruence.
    + rewrite <- has_label_node_label, He. split.
      * intros (q & v & ? & ?). eauto 6.
      * intros (q & v & [Hq| ->] & Hv & ->); [eauto|].
        assert (has_label (built_graph p) (entity_id v) "Entity") as Hp
          by (apply built_graph_entity; eauto).
        rewrite has_label_node_label in Hp. congruence.
Qed.

Lemma fold_corpus_inv pdfs seen st :
  corpus_inv seen (fst (fst st)) →
  corpus_inv (seen ++ pdfs) (fst (fst (fold_left corpus_step pdfs st))).
Proof.
  revert seen st. induction pdfs as [|p pdfs IH]; intros seen st Hst.
  - by rewrite app_nil_r.
  - simpl. rewrite (cons_middle p), app_assoc. apply IH.
    rewrite corpus_step_graph. by apply corpus_inv_step.
Qed.

(** The Entity nodes of the corpus graph are the entities of the
    vendors sniffed in its documents. *)
Lemma corpus_graph_entity pdfs n :
  has_label (corpus_graph pdfs) n "Entity" ↔
  ∃ p v, p ∈ pdfs ∧ doc_vendor p = Some v ∧ n = entity_id v.
Proof.
  pose proof (fold_corpus_inv pdfs [] (Nx.empty, [], [])) as [_ He].
  - split; [done|]. intros n'. split; [done|]. by intros (? & ? & ?%elem_of_nil & _).
  - apply He.
Qed.

(** Two documents whose vendor lines differ in case only. *)
Definition vendor_pdf (name vendor : string) : pdf :=
  {| pdf_name := name; pdf_path := ("data/pdfs/" ++ name)%string; pdf_size := 1024;
     pdf_textract := inr [("Vendor: " ++ vendor)%string]; pdf_pages := Some [] |}.

Definition acme_upper : pdf := vendor_pdf "a.pdf" "ACME".
Definition acme_lower : pdf := vendor_pdf "b.pdf" "acme".

(** C3, as stated, fails: the vendors ACME and acme are equal up to
    case, and the merged graph has an Entity node for each. *)
Lemma entity_not_merged_across_case :
  doc_vendor acme_upper = Some "ACME"
  ∧ doc_vendor acme_lower = Some "acme"
  ∧ Py.lower "ACME" = Py.lower "acme"
  ∧ entity_id "ACME" = "ENT:7926b8f32ca03e02"
  ∧ entity_id "acme" = "ENT:bbc4a469d673c321"
  ∧ entity_nodes (corpus_graph [acme_upper; acme_lower])
    = {[ "ENT:7926b8f32ca03e02"; "ENT:bbc4a469d673c321" ]}
  ∧ size (entity_nodes (corpus_graph [acme_upper; acme_lower])) = 2.
Proof. vm_compute. repeat split; reflexivity. Qed.

(** C3, amended. Two documents whose sniffed vendor is the same string,
    character for character, give one Entity node in the merged graph
    when that name is not empty, the node whose id is made from the
    type and the name as sniffed and from nothing of the documents; when
    the name is empty they give no Entity node. *)
Theorem same_vendor_one_entity p q v :
  sniff_vendor (fulltext p) = Some v →
  sniff_vendor (fulltext q) = Some v →
  entity_nodes (corpus_graph [p; q])
  = if Py.truthy v
    then {[ make_id "ENT" (PDict [("type", Json.Str "Vendor"); ("name", Json.Str v)]) ]}
    else ∅.
Proof.
  intros Hp Hq. apply set_eq. intros n.
  rewrite elem_of_entity_nodes, corpus_graph_entity.
  assert (∀ d, d ∈ [p; q] → doc_vendor d = if Py.truthy v then Some v else None) as Hdoc.
  { intros d Hd. unfold doc_vendor.
    apply elem_of_cons in Hd as [->|Hd]; [by rewrite Hp|].
    apply list_elem_of_singleton in Hd as ->. by rewrite Hq. }
  fold (entity_id v). destruct (Py.truthy v).
  - rewrite elem_of_singleton. split.
    + intros (d & w & Hd & Hw & ->). rewrite (Hdoc d Hd) in Hw. congruence.
    + intros ->. exists p, v. split; [by left|]. split; [apply Hdoc; by left | done].
  - split; [|by intros ?%elem_of_empty].
    intros (d & w & Hd & Hw & _). rewrite (Hdoc d Hd) in Hw. done.
Qed.

Lemma same_vendor_one_entity_witness :
  entity_nodes (corpus_graph [acme_upper; vendor_pdf "c.pdf" "ACME"])
  = {[ entity_id "ACME" ]}
  ∧ entity_nodes (corpus_graph [vendor_pdf "a.pdf" EmptyString; vendor_pdf "b.pdf" EmptyString])
    = ∅.
Proof.
  split.
  - apply (same_vendor_one_entity acme_upper (vendor_pdf "c.pdf" "ACME") "ACME");
      vm_compute; reflexivity.
  - apply (same_vendor_one_entity (vendor_pdf "a.pdf" EmptyString)
             (vendor_pdf "b.pdf" EmptyString) EmptyString);
      vm_compute; reflexivity.
Defined.

End Corpus.

(** ** Identifiers *)
Section Identifiers.
Import ExtractAndIndex.

Lemma string_compare_OT (a b : string) :
  OrdersEx.String_as_OT.compare a b = String.compare a b.
Proof.
  reflexivity.
Qed.

Lemma string_leb_iff (a b : string) :
  String.leb a b = true ↔ a = b ∨ OrdersEx.String_as_OT.lt a b.
Proof.
  unfold String.leb, OrdersEx.String_as_OT.lt.
  change (OrdersEx.String_as_OT.compare a b) with (String.compare a b).
  destruct (String.compare a b) eqn:Hc.
  - apply String.compare_eq_iff in Hc. by split; [left|].
  - by split; [right|].
  - split; [done|]. intros [->|?]; [|done].
    pose proof (String.compare_antisym b b) as Ha. rewrite Hc in Ha. discriminate Ha.
Qed.

Lemma string_leb_trans (a b c : string) :
  String.leb a b = true → String.leb b c = true → String.leb a c = true.
Proof.
  rewrite !string_leb_iff. intros [->|Hab] [->|Hbc]; auto.
  right. by etransitivity.
Qed.

#[local] Instance key_le_trans : Transitive Json.key_le.
Proof. intros a b c. unfold Json.key_le. apply string_leb_trans. Qed.

#[local] Instance key_le_total : Total Json.key_le.
Proof. intros a b. unfold Json.key_le. apply String.leb_total. Qed.

(** Sorting by key forgets the order in which the keys were inserted. *)
Lemma sorted_items_perm (d1 d2 : Json.dict) :
  d1 ≡ₚ d2 → NoDup (map fst d1) →
  merge_sort Json.key_le d1 = merge_sort Json.key_le d2.
Proof.
  intros Hp Hnd.
  apply (StronglySorted_unique_strong Json.key_le);
    [| apply StronglySorted_merge_sort; apply _ ..|].
  - intros x1 x2 H1 H2 Hle1 Hle2.
    rewrite merge_sort_Permutation in H1, H2. rewrite <- Hp in H2.
    assert (fst x1 = fst x2) as Hk by (by apply String.leb_antisym).
    clear Hle1 Hle2 Hp. induction d1 as [|y d1 IH]; [by apply elem_of_nil in H1|].
    simpl in Hnd. apply NoDup_cons in Hnd as [Hy Hnd].
    apply elem_of_cons in H1 as [->|H1], H2 as [->|H2]; auto.
    + exfalso. apply Hy. rewrite Hk. apply list_elem_of_In, in_map, list_elem_of_In, H2.
    + exfalso. apply Hy. rewrite <- Hk. apply list_elem_of_In, in_map, list_elem_of_In, H1.
  - by rewrite !merge_sort_Permutation.
Qed.

Lemma dumps_perm (d1 d2 : Json.dict) :
  d1 ≡ₚ d2 → NoDup (map fst d1) → Json.dumps d1 = Json.dumps d2.
Proof. intros Hp Hnd. unfold Json.dumps. by rewrite (sorted_items_perm d1 d2). Qed.

Lemma text_length (l : list ascii) : String.length (Py.text l) = length l.
Proof. induction l as [|x l IH]; simpl; [done | by rewrite IH]. Qed.

Lemma chars_text (l : list ascii) : Py.chars (Py.text l) = l.
Proof. apply list_ascii_of_string_of_list_ascii. Qed.

Lemma text_chars (s : string) : Py.text (Py.chars s) = s.
Proof. apply string_of_list_ascii_of_string. Qed.

Lemma slice_to_length n (s : string) : String.length (Py.slice_to n s) <= n.
Proof. unfold Py.slice_to. rewrite text_length, length_take. lia. Qed.

Lemma compress_length h blk t last : length (Blake2s.compress h blk t last) = 8.
Proof. unfold Blake2s.compress. by rewrite length_map, length_seq. Qed.

Lemma absorb_length fuel h t msg : length (Blake2s.absorb fuel h t msg) = 8.
Proof.
  revert h t msg. induction fuel as [|fuel IH]; intros h t msg; cbn [Blake2s.absorb].
  - apply compress_length.
  - destruct (length msg <=? 64)%nat; [apply compress_length | apply IH].
Qed.

Lemma word_bytes_flat_length (ws : list Z) :
  length (flat_map Blake2s.word_bytes ws) = 4 * length ws.
Proof.
  induction ws as [|w ws IH]; [done|]. cbn [flat_map].
  rewrite length_app, IH. unfold Blake2s.word_bytes.
  rewrite length_map, length_seq. cbn [length]. lia.
Qed.

Definition is_byte (b : Z) : Prop := (0 <= b < 256)%Z.

Lemma word_bytes_flat_range (ws : list Z) :
  Forall is_byte (flat_map Blake2s.word_bytes ws).
Proof.
  induction ws as [|w ws IH]; [constructor|]. cbn [flat_map].
  apply Forall_app. split; [|done]. unfold Blake2s.word_bytes.
  apply Forall_forall. intros b [i [<- _]]%list_elem_of_In%in_map_iff.
  apply Z.mod_pos_bound. lia.
Qed.

(** An 8-byte digest is 8 bytes. *)
Lemma digest_8_bytes (msg : list Z) :
  length (Blake2s.digest 8 msg) = 8 ∧ Forall is_byte (Blake2s.digest 8 msg).
Proof.
  unfold Blake2s.digest. split.
  - rewrite length_take, word_bytes_flat_length, absorb_length. lia.
  - apply Forall_take, word_bytes_flat_range.
Qed.

(** The digits of [hexdigest]. *)
Definition is_hex (c : ascii) : Prop := c ∈ Py.chars "0123456789abcdef".

Lemma hex_char_is_hex (n : Z) : (0 <= n < 16)%Z → is_hex (Blake2s.hex_char n).
Proof.
  intros Hn. unfold is_hex.
  assert (n ∈ (Z.of_nat <$> seq 0 16)) as Hin.
  { apply list_elem_of_fmap. exists (Z.to_nat n). split; [lia|].
    apply list_elem_of_In, in_seq. lia. }
  simpl in Hin. repeat (apply elem_of_cons in Hin as [->|Hin];
    [vm_compute; repeat (first [by left | right]) |]).
  by apply elem_of_nil in Hin.
Qed.

Lemma hex_bytes_spec (bs : list Z) :
  Forall is_byte bs →
  length (flat_map Blake2s.hex_byte bs) = 2 * length bs
  ∧ Forall is_hex (flat_map Blake2s.hex_byte bs).
Proof.
  induction 1 as [|b bs Hb _ [IHl IHf]]; [by split|].
  cbn [flat_map Blake2s.hex_byte app length].
  split; [rewrite IHl; lia|]. unfold is_byte in Hb.
  constructor; [apply hex_char_is_hex; split;
                  [apply Z.div_pos; lia | apply Z.div_lt_upper_bound; lia]|].
  constructor; [apply hex_char_is_hex, Z.mod_pos_bound; lia | done].
Qed.

(** What is hashed: a mapping is written with sorted keys and cut at
    2048 characters, a text is taken as it is. *)
Definition canonical (p : payload) : string :=
  match p with
  | PDict d => Py.slice_to 2048 (Json.dumps d)
  | PStr s => s
  end.

(** C6. [make_id] always returns the kind, a colon and the 16 hex
    digits of the 8-byte digest of the canonical payload; the canonical
    form of a mapping has at most 2048 characters and does not depend
    on the order of its keys, so neither does the id. *)
Theorem make_id_kind_colon_16_hex (kind : string) (p : payload) :
  (∃ h, make_id kind p = (kind ++ ":" ++ h)%string
        ∧ h = Blake2s.hexdigest 8 (Blake2s.encode (canonical p))
        ∧ length (Blake2s.digest 8 (Blake2s.encode (canonical p))) = 8
        ∧ String.length h = 16
        ∧ Forall is_hex (Py.chars h))
  ∧ (∀ d, String.length (canonical (PDict d)) <= 2048)
  ∧ (∀ d1 d2, d1 ≡ₚ d2 → NoDup (map fst d1) →
       make_id kind (PDict d1) = make_id kind (PDict d2)).
Proof.
  split; [|split].
  - exists (Blake2s.hexdigest 8 (Blake2s.encode (canonical p))).
    destruct (digest_8_bytes (Blake2s.encode (canonical p))) as [Hl Hb].
    destruct (hex_bytes_spec _ Hb) as [Hhl Hhf].
    split; [by destruct p|]. split; [done|]. split; [done|].
    unfold Blake2s.hexdigest. rewrite text_length, chars_text, Hhl, Hl. done.
  - intros d. apply slice_to_length.
  - intros d1 d2 Hp Hnd. unfold make_id. by rewrite (dumps_perm d1 d2).
Qed.

End Identifiers.

(** ** What a match of the pattern engine means *)
Section RegexMeaning.
Import Re.

Implicit Types (r : regex) (w s : list ascii) (g : option (list ascii)).

(** [rel] holds of [n] consecutive pieces of [w], threading the
    captured group. *)
Fixpoint iter (n : nat) (rel : list ascii → option (list ascii) → option (list ascii) → Prop)
    w g g' : Prop :=
  match n with
  | O => w = [] ∧ g' = g
  | S n' => ∃ w1 w2 g1, w = w1 ++ w2 ∧ rel w1 g g1 ∧ iter n' rel w2 g1 g'
  end.

(** [sem r w g g']: the pattern [r] matches exactly the text [w], and
    group 1 goes from [g] to [g']. *)
Fixpoint sem r w g g' : Prop :=
  match r with
  | Eps => w = [] ∧ g' = g
  | Chr p => ∃ c, w = [c] ∧ p c = true ∧ g' = g
  | Cat r1 r2 => ∃ w1 w2 g1, w = w1 ++ w2 ∧ sem r1 w1 g g1 ∧ sem r2 w2 g1 g'
  | Opt r1 => (w = [] ∧ g' = g) ∨ sem r1 w g g'
  | Rep r1 lo hi =>
      ∃ n, lo <= n ∧ (∀ h, hi = Some h → n <= lo + (h - lo)) ∧ iter n (sem r1) w g g'
  | Grp r1 => ∃ g1, sem r1 w g g1 ∧ g' = Some w
  end.

Definition step_sound {A} (m : @step A)
    (rel : list ascii → option (list ascii) → option (list ascii) → Prop) : Prop :=
  ∀ s g k a, m s g k = Some a →
    ∃ w s' g', s = w ++ s' ∧ rel w g g' ∧ k g' s' = Some a.

Lemma iter_app n1 n2 rel w1 w2 g g1 g2 :
  iter n1 rel w1 g g1 → iter n2 rel w2 g1 g2 → iter (n1 + n2) rel (w1 ++ w2) g g2.
Proof.
  revert w1 g. induction n1 as [|n1 IH]; intros w1 g; simpl.
  - intros [-> ->]. done.
  - intros (u1 & u2 & g' & -> & Hr & Hi) H2.
    exists u1, (u2 ++ w2), g'. rewrite <- app_assoc. eauto.
Qed.

Lemma exactly_sound {A} (m : @step A) rel n :
  step_sound m rel → step_sound (exactly m n) (iter n rel).
Proof.
  intros Hm. induction n as [|n IH]; intros s g k a; simpl.
  - intros Hk. exists [], s, g. done.
  - intros (w1 & s1 & g1 & -> & Hr & Hrest)%Hm.
    apply IH in Hrest as (w2 & s2 & g2 & -> & Hi & Hk).
    exists (w1 ++ w2), s2, g2. rewrite <- app_assoc. split; [done|].
    split; [|done]. exists w1, w2, g1. done.
Qed.

Lemma upto_sound {A} (m : @step A) rel n :
  step_sound m rel →
  step_sound (upto m n) (fun w g g' => ∃ j, j <= n ∧ iter j rel w g g').
Proof.
  intros Hm. induction n as [|n IH]; intros s g k a; simpl.
  - intros Hk. exists [], s, g. split; [done|]. split; [|done]. exists 0. done.
  - destruct (m s g _) as [a'|] eqn:Hstep.
    + intros [= ->].
      apply Hm in Hstep as (w1 & s1 & g1 & -> & Hr & Hrest).
      apply IH in Hrest as (w2 & s2 & g2 & -> & (j & Hj & Hi) & Hk).
      exists (w1 ++ w2), s2, g2. rewrite <- app_assoc. split; [done|].
      split; [|done]. exists (S j). split; [lia|]. exists w1, w2, g1. done.
    + intros Hk. exists [], s, g. split; [done|]. split; [|done]. exists 0.
      split; [lia | done].
Qed.

Lemma run_sound {A} r : step_sound (@run A r) (sem r).
Proof.
  induction r as [|p|r1 IH1 r2 IH2|r1 IH1|r1 IH1 lo hi|r1 IH1]; intros s g k a; simpl.
  - intros Hk. exists [], s, g. done.
  - destruct s as [|c s]; [done|]. destruct (p c) eqn:Hp; [|done].
    intros Hk. exists [c], s, g. split; [done|]. split; [|done]. by exists c.
  - intros (w1 & s1 & g1 & -> & H1 & Hrest)%IH1.
    apply IH2 in Hrest as (w2 & s2 & g2 & -> & H2 & Hk).
    exists (w1 ++ w2), s2, g2. rewrite <- app_assoc. split; [done|].
    split; [|done]. exists w1, w2, g1. done.
  - destruct (run r1 s g k) as [a'|] eqn:Hr.
    + intros [= ->]. apply IH1 in Hr as (w & s' & g' & -> & ? & ?).
      exists w, s', g'. split; [done|]. split; [by right | done].
    + intros Hk. exists [], s, g. split; [done|]. split; [by left | done].
  - intros (w1 & s1 & g1 & -> & Hi1 & Hrest)%(exactly_sound _ _ _ IH1).
    apply (upto_sound _ _ _ IH1) in Hrest as (w2 & s2 & g2 & -> & (j & Hj & Hi2) & Hk).
    exists (w1 ++ w2), s2, g2. rewrite <- app_assoc. split; [done|].
    split; [|done]. exists (lo + j). split; [lia|]. split.
    + intros h ->. lia.
    + by eapply iter_app.
  - intros (w & s' & g' & -> & Hs & Hk)%IH1.
    rewrite length_app in Hk.
    replace (length w + length s' - length s') with (length w) in Hk by lia.
    rewrite take_app_length in Hk.
    exists w, s', (Some w). split; [done|]. split; [|done]. by exists g'.
Qed.

(** A successful search found the pattern somewhere in the text, and
    returns what group 1 captured there. *)
Lemma search_chars_sound r s grp :
  search_chars r s = Some grp →
  ∃ before w rest g',
    s = before ++ w ++ rest ∧ sem r w None g' ∧ grp = default [] g'.
Proof.
  induction s as [|c s IH]; simpl.
  - destruct (match_here r []) as [x|] eqn:Hm; [|done].
    intros [= ->]. apply run_sound in Hm as (w & s' & g' & -> & Hs & [= <-]).
    exists [], w, s', g'. done.
  - destruct (match_here r (c :: s)) as [x|] eqn:Hm.
    + intros [= ->]. apply run_sound in Hm as (w & s' & g' & Heq & Hs & [= <-]).
      exists [], w, s', g'. done.
    + intros (before & w & rest & g' & -> & ? & ?)%IH.
      exists (c :: before), w, rest, g'. done.
Qed.

Lemma iter_chr n p w g g' :
  iter n (sem (Chr p)) w g g' →
  g' = g ∧ length w = n ∧ Forall (fun c => p c = true) w.
Proof.
  revert w g. induction n as [|n IH]; intros w g; simpl.
  - intros [-> ->]. split; [done|]. split; [done|]. constructor.
  - intros (w1 & w2 & g1 & -> & (c & -> & Hp & ->) & (-> & <- & Hf)%IH).
    split; [done|]. split; [done|]. by constructor.
Qed.

Lemma sem_word_i l w g g' :
  sem (word_i l) w g g' →
  g' = g ∧ map Py.lower_char w = map Py.lower_char l.
Proof.
  revert w g. induction l as [|c l IH]; intros w g; simpl.
  - intros [-> ->]. done.
  - intros (w1 & w2 & g1 & -> & (x & -> & Hx & ->) & (-> & Hl)%IH).
    split; [done|]. simpl. rewrite Hl. f_equal. by apply Ascii.eqb_eq.
Qed.

End RegexMeaning.

(** ** The grand total *)
Section GrandTotal.
Import Re ExtractAndIndex.


(** What one label yields: the number found after it, when it reads as
    a float once commas and spaces are removed. *)
Definition label_attempt (label fulltext : string) : option Float.t :=
  search (total_rx label) fulltext
    ≫= (fun g => Float.of_string (Py.remove_char " " (Py.remove_char "," g))).




(** A text on which the first label matches a number that does not
    read, and the third label gives the result. *)
Definition total_fall_through : string :=
  ("total 7 7" ++ String "010" "grand total" ++ String "010" "1.2.3")%string.

Lemma sniff_grand_total_falls_through :
  search (total_rx "grand total") total_fall_through = Some "1.2.3"
  ∧ label_attempt "grand total" total_fall_through = None
  ∧ label_attempt "contract total" total_fall_through = None
  ∧ sniff_grand_total total_fall_through = Some (Float.Dec 77 0).
Proof. vm_compute. done. Qed.

(** The number can be long: after the 40 characters the pattern may
    skip, the digits left are all read, and [float] rounds them to a
    binary64, or gives the infinity when they are too many. *)
Definition total_long : string :=
  ("total " ++ Py.text (repeat "7"%char 39) ++ "12345678901234567890")%string.

Definition total_huge : string := ("total " ++ Py.text (repeat "9"%char 450))%string.

Lemma sniff_grand_total_rounds :
  search (total_rx "total") total_long = Some "12345678901234567890"
  ∧ sniff_grand_total total_long = Some (Float.Dec 12345678901234567000 0)
  ∧ Float.repr (Float.Dec 12345678901234567000 0) = "1.2345678901234567e+19"
  ∧ sniff_grand_total total_huge = Some Float.Inf
  ∧ sniff_grand_total "total 12345678901234567890" = Some (Float.Dec 90 0).
Proof. vm_compute. done. Qed.

End GrandTotal.

(** ** More on retrieval *)
Section RetrievalMore.
Import Nx ExtractAndIndex GraphRag.

Implicit Types (chunk_map : gmap string chunk) (scope : option (gset string)).

Lemma context_loop_zero chunk_map scope hits :
  context_loop chunk_map scope 0 hits [] =
  take 1 (omap (surviving_text chunk_map scope) hits).
Proof.
  induction hits as [|h rest IH]; [done|].
  rewrite context_loop_step. cbn [omap list_omap].
  destruct (surviving_text chunk_map scope h) as [t|]; [|done].
  reflexivity.
Qed.

(** The limit [k] is tested after a text is appended: the result is the
    first [k] surviving texts, and one text still comes back for
    [k = 0]. *)
Theorem top_context_limit_after_append
    (emb : string → nat → list hit) chunk_map (question : string) scope (k : nat) :
  top_context emb chunk_map question scope k =
  take (Nat.max 1 k) (omap (surviving_text chunk_map scope) (emb question 60)).
Proof.
  unfold top_context. destruct k as [|k].
  - apply context_loop_zero.
  - rewrite context_loop_take by (simpl; lia).
    replace (Nat.max 1 (S k)) with (S k) by lia. done.
Qed.

(** With a scope that is not empty, every text handed to the answerer is
    the text of a hit whose id is in the scope. *)
Theorem scoped_context_stays_in_scope
    (emb : string → nat → list hit) (G : DiGraph) chunk_map
    (question : string) (entities : option (list string)) (t : string) :
  ask_scope G entities ≠ ∅ →
  t ∈ ask_context emb G chunk_map question entities →
  ∃ h rec, h ∈ emb question 60 ∧ h_id h ∈ ask_scope G entities
           ∧ chunk_map !! h_id h = Some rec ∧ c_text rec = t.
Proof.
  intros Hne. unfold ask_context, or_none.
  rewrite bool_decide_eq_false_2 by done.
  unfold top_context. rewrite context_loop_take by (simpl; lia).
  intros Ht%subseteq_take.
  apply list_elem_of_omap in Ht as (h & Hh & Hs).
  unfold surviving_text in Hs. case_decide as Hd; [done|].
  apply fmap_Some in Hs as (rec & Hrec & ->).
  exists h, rec. split; [done|]. split; [|done].
  destruct (decide (h_id h ∈ ask_scope G entities)); [done|]. exfalso. by apply Hd.
Qed.

Definition scope_chunk (id text : string) : chunk :=
  {| c_id := id; c_text := text; c_docname := "a.pdf"; c_source := "data/pdfs/a.pdf";
     c_type := "paragraph"; c_page := None |}.

Definition scope_chunk_map : gmap string chunk :=
  chunk_map_of [scope_chunk "A" "about X"; scope_chunk "B" "about Y";
                scope_chunk "C" "about nothing"].

Definition scope_index (question : string) (limit : nat) : list hit :=
  [{| h_id := "C" |}; {| h_id := "B" |}; {| h_id := "A" |}].

Lemma scoped_context_stays_in_scope_witness :
  ∃ h rec, h ∈ scope_index "who?" 60 ∧ h_id h ∈ ask_scope scope_graph (Some ["X"])
           ∧ scope_chunk_map !! h_id h = Some rec ∧ c_text rec = "about X".
Proof.
  apply (scoped_context_stays_in_scope scope_index scope_graph scope_chunk_map
           "who?" (Some ["X"]) "about X").
  - vm_compute. discriminate.
  - vm_compute. left.
Defined.

Lemma fold_insert_lookup (cs : list chunk) (m : gmap string chunk) (k : string) :
  fold_left (fun m c => <[c_id c := c]> m) cs m !! k =
  match last (filter (fun c => c_id c = k) cs) with
  | Some c => Some c
  | None => m !! k
  end.
Proof.
  revert m. induction cs as [|c cs IH]; intros m; [done|].
  cbn [fold_left]. rewrite IH, filter_cons.
  destruct (decide (c_id c = k)) as [<-|Hne].
  - rewrite last_cons. destruct (last (filter _ cs)); [done|].
    by rewrite lookup_insert_eq.
  - destruct (last (filter _ cs)); [done|]. by rewrite lookup_insert_ne.
Qed.

(** The chunk map holds, for every id, the last fragment of the list
    with that id; every fragment id is bound, and nothing else is. *)
Theorem chunk_map_last_wins (cs : list chunk) (k : string) :
  chunk_map_of cs !! k = last (filter (fun c => c_id c = k) cs)
  ∧ (is_Some (chunk_map_of cs !! k) ↔ ∃ c, c ∈ cs ∧ c_id c = k)
  ∧ (∀ c, chunk_map_of cs !! k = Some c → c ∈ cs ∧ c_id c = k).
Proof.
  assert (chunk_map_of cs !! k = last (filter (fun c => c_id c = k) cs)) as Heq.
  { unfold chunk_map_of. rewrite fold_insert_lookup.
    by destruct (last (filter _ cs)). }
  assert (∀ c, chunk_map_of cs !! k = Some c → c ∈ cs ∧ c_id c = k) as Hin.
  { intros c. rewrite Heq. intros Hl%last_Some_elem_of.
    by apply list_elem_of_filter in Hl as [? ?]. }
  split; [done|]. split; [|done]. split.
  - intros [c Hc]. exists c. by apply Hin.
  - intros (c & Hc & Hk). rewrite Heq.
    destruct (last (filter (fun c => c_id c = k) cs)) as [c'|] eqn:Hl; [done|].
    apply last_None in Hl.
    assert (c ∈ filter (fun c => c_id c = k) cs) as Hf by (by apply list_elem_of_filter).
    rewrite Hl in Hf. by apply elem_of_nil in Hf.
Qed.

(** The scope of a name depends on the name up to case only. *)
Theorem cids_for_entity_ignores_case (G : DiGraph) (name1 name2 : string) :
  Py.lower name1 = Py.lower name2 →
  cids_for_entity G name1 = cids_for_entity G name2.
Proof.
  intros Hl. unfold cids_for_entity.
  assert (targets G name1 = targets G name2) as ->; [|done].
  apply set_eq. intros n. rewrite !elem_of_targets. unfold is_target.
  by rewrite Hl.
Qed.

Lemma cids_for_entity_ignores_case_witness :
  cids_for_entity acme_graph "ACME" = cids_for_entity acme_graph "Acme".
Proof. apply cids_for_entity_ignores_case. vm_compute. reflexivity. Defined.

End RetrievalMore.

(** ** More on extraction *)
Section ExtractionMore.
Import Nx ExtractAndIndex.

Implicit Types (p : pdf) (doc_id : string).

(** One fragment per paragraph, in the order given, with the text
    unchanged, the kind paragraph, no page, and the id of its position;
    a single text from the extractor is one paragraph. *)
Theorem paragraph_chunks_one_per_paragraph p doc_id :
  map c_text (paragraph_chunks p doc_id) = paragraphs p
  ∧ (∀ i c, paragraph_chunks p doc_id !! i = Some c →
       c_id c = paragraph_id doc_id i (c_text c)
       ∧ c_type c = "paragraph" ∧ c_page c = None
       ∧ c_docname c = pdf_name p ∧ c_source c = pdf_path p)
  ∧ (∀ s, pdf_textract p = inl s → map c_text (paragraph_chunks p doc_id) = [s]).
Proof.
  assert (map c_text (paragraph_chunks p doc_id) = paragraphs p) as Hmap.
  { apply list_eq. intros i. unfold paragraph_chunks. fold (paragraphs p).
    change (@map chunk string) with (@fmap list _ chunk string).
    rewrite list_lookup_fmap, paragraph_loop_lookup.
    by destruct (paragraphs p !! i). }
  split; [done|]. split.
  - intros i c. unfold paragraph_chunks. rewrite paragraph_loop_lookup.
    destruct (_ !! i) as [t|]; [|done]. intros [= <-]. done.
  - intros s Hs. rewrite Hmap. unfold paragraphs. by rewrite Hs.
Qed.

(** The document with other pages. *)
Definition with_pages p (pages : option (list page_result)) : pdf :=
  {| pdf_name := pdf_name p; pdf_path := pdf_path p; pdf_size := pdf_size p;
     pdf_textract := pdf_textract p; pdf_pages := pages |}.

Lemma rows_loop_same_names p q doc_id page_index r_i table :
  pdf_name p = pdf_name q → pdf_path p = pdf_path q →
  rows_loop p doc_id page_index r_i table = rows_loop q doc_id page_index r_i table.
Proof.
  intros Hn Hp. revert r_i. induction table as [|row table IH]; intros r_i; [done|].
  cbn [rows_loop]. rewrite IH. unfold row_chunk. by rewrite Hn, Hp.
Qed.

Lemma pages_loop_same_names p q doc_id page_index pages :
  pdf_name p = pdf_name q → pdf_path p = pdf_path q →
  pages_loop p doc_id page_index pages = pages_loop q doc_id page_index pages.
Proof.
  intros Hn Hp. revert page_index.
  induction pages as [|pg pages IH]; intros page_index; [done|].
  destruct pg as [| |ts]; cbn [pages_loop]; [done | apply IH |].
  rewrite IH. f_equal. unfold tables_loop.
  induction ts as [|t ts IHt]; [done|]. cbn [flat_map].
  by rewrite IHt, (rows_loop_same_names p q).
Qed.

Lemma pages_loop_stops p doc_id page_index before after :
  pages_loop p doc_id page_index (before ++ ExtractRaises :: after) =
  pages_loop p doc_id page_index before.
Proof.
  revert page_index. induction before as [|pg before IH]; intros page_index; [done|].
  destruct pg as [| |ts]; cbn [pages_loop app]; [done | apply IH | by rewrite IH].
Qed.

(** A page whose table extraction raises ends the rows of the document:
    the rows of the pages before it are kept as they are, the pages
    after it give nothing; a PDF that cannot be opened gives no row. *)
Theorem table_rows_stop_at_raising_page p doc_id before after :
  pdf_pages p = Some (before ++ ExtractRaises :: after) →
  table_rows p doc_id = table_rows (with_pages p (Some before)) doc_id
  ∧ table_rows (with_pages p None) doc_id = [].
Proof.
  intros Hp. split; [|done]. unfold table_rows. rewrite Hp. cbn [pdf_pages with_pages].
  rewrite pages_loop_stops. by apply pages_loop_same_names.
Qed.

Definition raising_pdf : pdf :=
  {| pdf_name := "a.pdf"; pdf_path := "data/pdfs/a.pdf"; pdf_size := 10;
     pdf_textract := inr [];
     pdf_pages := Some ([Tables [[[Some "Widget"; Some "12.50"]]]]
                        ++ ExtractRaises :: [Tables [[[Some "Lost"; Some "1.00"]]]]) |}.

Lemma table_rows_stop_at_raising_page_witness :
  table_rows raising_pdf "DOC:0"
  = table_rows (with_pages raising_pdf
                  (Some [Tables [[[Some "Widget"; Some "12.50"]]]])) "DOC:0"
  ∧ table_rows (with_pages raising_pdf None) "DOC:0" = [].
Proof.
  apply (table_rows_stop_at_raising_page raising_pdf "DOC:0"
           [Tables [[[Some "Widget"; Some "12.50"]]]]
           [Tables [[[Some "Lost"; Some "1.00"]]]]).
  reflexivity.
Defined.

(** The line item of a table-row fragment: its text is cut at the bars,
    and with two parts or more whose last one reads as money, the item
    has the other parts as description and that amount as cost. *)
Definition row_line_item (rc : chunk) : option LineItem :=
  let parts := map Py.strip (Py.split "|" (c_text rc)) in
  if (2 <=? length parts)%nat then
    (fun ext =>
       {| li_desc := Py.slice_to 200 (Py.join " | " (removelast parts));
          li_qty := None; li_unit := None; li_unit_cost := None;
          li_ext_cost := Some ext; li_page := c_page rc |})
      <$> parse_money (List.last parts EmptyString)
  else None.

Lemma row_step_items doc_id ent st rc :
  snd (row_step doc_id ent st rc) = snd st ++ option_list (row_line_item rc).
Proof.
  destruct st as [g items]. unfold row_step, row_line_item.
  destruct (2 <=? _)%nat; [|by rewrite app_nil_r].
  destruct (parse_money _); [done | by rewrite app_nil_r].
Qed.

Lemma fold_row_step_items doc_id ent l st :
  snd (fold_left (row_step doc_id ent) l st) = snd st ++ omap row_line_item l.
Proof.
  revert st. induction l as [|rc l IH]; intros st; [by rewrite app_nil_r|].
  cbn [fold_left omap list_omap]. rewrite IH, row_step_items.
  destruct (row_line_item rc); cbn [option_list]; by rewrite <- app_assoc.
Qed.

Lemma docmap_record p :
  snd (fst (build_graph_and_maps p)) =
  {| dm_doc_id := document_id p; dm_docname := pdf_name p;
     dm_vendor := sniff_vendor (fulltext p);
     dm_grand_total := sniff_grand_total (fulltext p);
     dm_items := omap row_line_item (table_rows p (document_id p)) |}.
Proof.
  unfold build_graph_and_maps, fulltext.
  match goal with |- context [fold_left (row_step ?d ?e) ?l ?st] =>
    pose proof (fold_row_step_items d e l st) as Hitems;
    destruct (fold_left (row_step d e) l st) as [g items] end.
  cbn [snd fst] in *. rewrite Hitems. reflexivity.
Qed.

(** The summary record of a document: its id and name, the vendor text
    and the total as sniffed from the paragraphs, and one line item, in
    row order, for each table-row fragment whose last part reads as
    money; every item has a cost and the page of its row. *)
Theorem build_docmap p :
  let dm := snd (fst (build_graph_and_maps p)) in
  dm_doc_id dm = document_id p
  ∧ dm_docname dm = pdf_name p
  ∧ dm_vendor dm = sniff_vendor (fulltext p)
  ∧ dm_grand_total dm = sniff_grand_total (fulltext p)
  ∧ dm_items dm = omap row_line_item (table_rows p (document_id p))
  ∧ Forall (fun li => is_Some (li_ext_cost li) ∧ is_Some (li_page li)) (dm_items dm).
Proof.
  rewrite docmap_record.
  cbn [dm_doc_id dm_docname dm_vendor dm_grand_total dm_items].
  repeat (split; [done|]).
  apply Forall_forall. intros li (rc & Hrc & Hli)%list_elem_of_omap.
  apply elem_of_table_rows in Hrc as (? & ? & ? & ? & ? & ? & _ & _ & _ & _ & _ & _ & ->).
  unfold row_line_item in Hli. destruct (2 <=? _)%nat; [|done].
  apply fmap_Some in Hli as (ext & _ & ->). cbn. split; eauto.
Qed.

End ExtractionMore.

(** ** More on the corpus graph *)
Section CorpusMore.
Import Nx ExtractAndIndex GraphRag.

Implicit Types (p : pdf) (G H : DiGraph) (n u v : string).

Lemma corpus_graph_snoc pdfs p :
  corpus_graph (pdfs ++ [p]) = compose (corpus_graph pdfs) (built_graph p).
Proof.
  unfold corpus_graph, build_corpus. rewrite fold_left_app. cbn [fold_left].
  apply corpus_step_graph.
Qed.

Lemma dom_merge {K} `{Countable K} (a b : gmap K (gmap string attr)) :
  dom (merge a b) = dom a ∪ dom b.
Proof.
  apply set_eq. intros k. rewrite elem_of_union, !elem_of_dom. unfold merge.
  rewrite lookup_union_with. unfold is_Some.
  destruct (a !! k) as [x|], (b !! k) as [y|]; simpl; naive_solver.
Qed.

Lemma corpus_graph_dom pdfs :
  (∀ n, n ∈ dom (nodes (corpus_graph pdfs)) ↔
        ∃ p, p ∈ pdfs ∧ n ∈ dom (nodes (built_graph p)))
  ∧ (∀ e, e ∈ dom (edges (corpus_graph pdfs)) ↔
        ∃ p, p ∈ pdfs ∧ e ∈ dom (edges (built_graph p))).
Proof.
  induction pdfs as [|p pdfs IH] using rev_ind.
  - split; intros x; (split; [by intros ?%not_elem_of_empty | by intros (? & ?%elem_of_nil & _)]).
  - destruct IH as [IHn IHe]. rewrite corpus_graph_snoc. cbn [compose nodes edges].
    rewrite !dom_merge. split; intros x; rewrite elem_of_union;
      setoid_rewrite elem_of_app; setoid_rewrite list_elem_of_singleton.
    + rewrite IHn. naive_solver.
    + rewrite IHe. naive_solver.
Qed.

(** The corpus graph is the union by identifier of the graphs of its
    documents: a node or an edge is in it exactly when it is in the graph
    of one of the documents. *)
Theorem corpus_graph_is_union pdfs :
  (∀ n, n ∈ dom (nodes (corpus_graph pdfs)) ↔
        ∃ p, p ∈ pdfs ∧ n ∈ dom (nodes (built_graph p)))
  ∧ (∀ e, e ∈ dom (edges (corpus_graph pdfs)) ↔
        ∃ p, p ∈ pdfs ∧ e ∈ dom (edges (built_graph p))).
Proof. apply corpus_graph_dom. Qed.

(** The four characters an identifier starts with. *)
Definition id_kind n : string := Py.slice_to 4 n.

(** The kinds an edge of the builder joins. *)
Definition edge_kinds : list (string * string) :=
  [("DOC:", "ENT:"); ("DOC:", "TBL:"); ("DOC:", "PCH:");
   ("TBL:", "LIT:"); ("LIT:", "ENT:"); ("PCH:", "ENT:")].

Definition edges_ok G : Prop :=
  ∀ u v, (u, v) ∈ dom (edges G) → (id_kind u, id_kind v) ∈ edge_kinds.

Lemma id_kind_make_id (prefix : string) pl k :
  (∀ h, id_kind (prefix ++ ":" ++ h)%string = k) → id_kind (make_id prefix pl) = k.
Proof. intros Hk. destruct (make_id_form prefix pl) as [h ->]. apply Hk. Qed.

Lemma dom_edges_add_edge G u v a :
  dom (edges (add_edge G u v a)) = {[ (u, v) ]} ∪ dom (edges G).
Proof. unfold add_edge, update. cbn [edges]. by rewrite dom_insert_L. Qed.

Lemma edges_ok_add_edge G u v a :
  edges_ok G → (id_kind u, id_kind v) ∈ edge_kinds → edges_ok (add_edge G u v a).
Proof.
  intros HG Hk u' v'. rewrite dom_edges_add_edge, elem_of_union, elem_of_singleton.
  intros [[= -> ->]|?]; [done | by apply HG].
Qed.

Lemma edges_ok_add_node G n a : edges_ok G → edges_ok (add_node G n a).
Proof. done. Qed.

Lemma table_rows_id_kind p doc_id c :
  c ∈ table_rows p doc_id → id_kind (c_id c) = "TBL:".
Proof.
  rewrite elem_of_table_rows.
  intros (? & ? & ? & ? & ? & ? & _ & _ & _ & _ & _ & _ & ->).
  by apply id_kind_make_id.
Qed.

Lemma paragraph_chunks_id_kind p doc_id c :
  c ∈ paragraph_chunks p doc_id → id_kind (c_id c) = "PCH:".
Proof.
  intros [i Hi]%list_elem_of_lookup. unfold paragraph_chunks in Hi.
  rewrite paragraph_loop_lookup in Hi.
  destruct (_ !! i) as [t|]; [|done]. injection Hi as <-. by apply id_kind_make_id.
Qed.

Lemma id_kind_document_id p : id_kind (document_id p) = "DOC:".
Proof. by apply id_kind_make_id. Qed.

Lemma id_kind_entity_id v : id_kind (entity_id v) = "ENT:".
Proof. by apply id_kind_make_id. Qed.

Lemma row_step_edges_ok p (ent : option string) st rc :
  edges_ok (fst st) → id_kind (c_id rc) = "TBL:" →
  (∀ e, ent = Some e → id_kind e = "ENT:") →
  edges_ok (fst (row_step (document_id p) ent st rc)).
Proof.
  destruct st as [g items]. intros Hg Hk He. unfold row_step.
  match goal with |- context [add_edge (add_node g ?n ?a) ?u ?v ?b] =>
    assert (edges_ok (add_edge (add_node g n a) u v b)) as Hg1 end.
  { apply edges_ok_add_edge; [done|]. rewrite id_kind_document_id, Hk. set_solver. }
  destruct (if (2 <=? _)%nat then _ else _) as [ext|]; [|done].
  match goal with |- context [add_edge (add_node ?g0 ?n ?a) ?u ?v ?b] =>
    assert (edges_ok (add_edge (add_node g0 n a) u v b)) as Hg2 end.
  { apply edges_ok_add_edge; [done|]. rewrite Hk.
    rewrite (id_kind_make_id "LIT" _ "LIT:") by done. set_solver. }
  destruct ent as [e|]; [|done]. cbn [fst].
  apply edges_ok_add_edge; [done|].
  rewrite (id_kind_make_id "LIT" _ "LIT:") by done. rewrite (He e) by done. set_solver.
Qed.

Lemma para_step_edges_ok p (ent : option string) g pc :
  edges_ok g → id_kind (c_id pc) = "PCH:" →
  (∀ e, ent = Some e → id_kind e = "ENT:") →
  edges_ok (para_step (document_id p) ent g pc).
Proof.
  intros Hg Hk He. unfold para_step.
  match goal with |- context [add_edge (add_node g ?n ?a) ?u ?v ?b] =>
    assert (edges_ok (add_edge (add_node g n a) u v b)) as Hg1 end.
  { apply edges_ok_add_edge; [done|]. rewrite id_kind_document_id, Hk. set_solver. }
  destruct ent as [e|]; [|done].
  apply edges_ok_add_edge; [done|]. rewrite Hk, (He e) by done. set_solver.
Qed.

Lemma built_graph_edges_ok p : edges_ok (built_graph p).
Proof.
  rewrite built_graph_unfold.
  assert (∀ e, entity_id <$> doc_vendor p = Some e → id_kind e = "ENT:") as He.
  { intros e (v & _ & ->)%fmap_Some. apply id_kind_entity_id. }
  assert (edges_ok (graph_head p)) as Hhead.
  { unfold graph_head. destruct (doc_vendor p) as [v|]; [|intros ?? ?%not_elem_of_empty; done].
    apply edges_ok_add_edge; [intros ?? ?%not_elem_of_empty; done|].
    rewrite id_kind_document_id, id_kind_entity_id. set_solver. }
  assert (∀ l st, edges_ok (fst st) → (∀ c, c ∈ l → id_kind (c_id c) = "TBL:") →
    edges_ok (fst (fold_left (row_step (document_id p) (entity_id <$> doc_vendor p)) l st)))
    as Hrows.
  { induction l as [|c l IH]; intros st Hst Hl; [done|]. cbn [fold_left]. apply IH.
    - apply row_step_edges_ok; [done | apply Hl; left | done].
    - intros c' Hc'. apply Hl. by right. }
  assert (∀ l g, edges_ok g → (∀ c, c ∈ l → id_kind (c_id c) = "PCH:") →
    edges_ok (fold_left (para_step (document_id p) (entity_id <$> doc_vendor p)) l g))
    as Hparas.
  { induction l as [|c l IH]; intros g Hg Hl; [done|]. cbn [fold_left]. apply IH.
    - apply para_step_edges_ok; [done | apply Hl; left | done].
    - intros c' Hc'. apply Hl. by right. }
  apply Hparas; [apply Hrows; [done|]|].
  - intros c ?. by eapply table_rows_id_kind.
  - intros c ?. by eapply paragraph_chunks_id_kind.
Qed.

Lemma corpus_graph_edges_ok pdfs : edges_ok (corpus_graph pdfs).
Proof.
  intros u v Huv. destruct (corpus_graph_dom pdfs) as [_ He].
  apply He in Huv as (p & _ & Hp). by apply (built_graph_edges_ok p).
Qed.

Lemma corpus_graph_kind pdfs n a :
  node_label (corpus_graph pdfs) n = Some a → Some a = AStr <$> kind_label n.
Proof.
  pose proof (fold_corpus_inv pdfs [] (Nx.empty, [], [])) as [Hk _].
  - split; [done|]. intros n'. split; [done|]. by intros (? & ? & ?%elem_of_nil & _).
  - apply Hk.
Qed.

Lemma kind_label_id_kind n l :
  kind_label n = Some l →
  (l = "Entity" → id_kind n = "ENT:")
  ∧ (l = "Chunk" → id_kind n = "PCH:" ∨ id_kind n = "TBL:").
Proof.
  unfold kind_label, id_kind.
  destruct (String.eqb_spec (Py.slice_to 4 n) "DOC:") as [->|_]; [by intros [= <-]|].
  destruct (String.eqb_spec (Py.slice_to 4 n) "ENT:") as [->|_]; [by intros [= <-]|].
  destruct (String.eqb_spec (Py.slice_to 4 n) "PCH:") as [->|_];
    [intros [= <-]; split; [done | by left]|].
  destruct (String.eqb_spec (Py.slice_to 4 n) "TBL:") as [->|_];
    [intros [= <-]; split; [done | by right]|].
  cbn [orb]. destruct (String.eqb_spec (Py.slice_to 4 n) "LIT:") as [->|_];
    [by intros [= <-] | done].
Qed.

(** The candidate set of an entity name holds paragraph chunks only: a
    table row reaches its entity through a line item, two hops away, so
    no table-row chunk is ever in a scope. *)
Theorem entity_scope_has_paragraphs_only pdfs (name c : string) :
  c ∈ cids_for_entity (corpus_graph pdfs) name → id_kind c = "PCH:".
Proof.
  intros (ent & d & Hd & [Hl _] & Hc & Hhop)%elem_of_cids_for_entity.
  assert (node_label (corpus_graph pdfs) ent = Some (AStr "Entity")) as Hent.
  { unfold node_label. by rewrite Hd. }
  apply corpus_graph_kind in Hent. apply corpus_graph_kind in Hc.
  destruct (kind_label ent) as [le|] eqn:Hke; [|done]. injection Hent as <-.
  destruct (kind_label c) as [lc|] eqn:Hkc; [|done]. injection Hc as <-.
  apply kind_label_id_kind in Hke as [Hke _]. specialize (Hke eq_refl).
  apply kind_label_id_kind in Hkc as [_ Hkc]. specialize (Hkc eq_refl).
  destruct Hhop as [Hin|Hout].
  - apply corpus_graph_edges_ok in Hin. rewrite Hke in Hin.
    destruct Hkc as [Hkc|Hkc]; [done|]. rewrite Hkc in Hin.
    exfalso. revert Hin. unfold edge_kinds.
    rewrite !elem_of_cons, elem_of_nil. naive_solver.
  - apply corpus_graph_edges_ok in Hout. rewrite Hke in Hout.
    exfalso. revert Hout. unfold edge_kinds.
    rewrite !elem_of_cons, elem_of_nil. naive_solver.
Qed.

Definition table_pdf : pdf :=
  {| pdf_name := "a.pdf"; pdf_path := "data/pdfs/a.pdf"; pdf_size := 10;
     pdf_textract := inr ["Vendor: ACME"];
     pdf_pages := Some [Tables [[[Some "Widget"; Some "12.50"]]]] |}.

Lemma entity_scope_has_paragraphs_only_witness :
  id_kind (paragraph_id (document_id table_pdf) 0 "Vendor: ACME") = "PCH:".
Proof.
  apply (entity_scope_has_paragraphs_only [table_pdf] "acme").
  vm_compute. reflexivity.
Defined.

End CorpusMore.

(** ** What the graph of a document contains *)
Section BuiltGraphMore.
Import Nx ExtractAndIndex GraphRag.

Implicit Types (p : pdf) (g : DiGraph) (n u v key : string).

Definition node_attr g n key : option attr := nodes g !! n ≫= (fun d => d !! key).

Lemma node_attr_add_node g n a m key :
  node_attr (add_node g n a) m key =
  if decide (n = m)
  then match a !! key with Some x => Some x | None => node_attr g m key end
  else node_attr g m key.
Proof. unfold node_attr, add_node. cbn [nodes]. apply update_lookup. Qed.

Lemma node_attr_add_edge g u v a m key :
  node_attr (add_edge g u v a) m key = node_attr g m key.
Proof.
  unfold node_attr, add_edge. cbn [nodes]. rewrite !update_lookup, lookup_empty.
  repeat case_decide; done.
Qed.

Lemma dom_edges_add_node g n a : dom (edges (add_node g n a)) = dom (edges g).
Proof. done. Qed.

Lemma row_step_edges doc_id ent st rc :
  dom (edges (fst st)) ∪ {[ (doc_id, c_id rc) ]}
  ⊆ dom (edges (fst (row_step doc_id ent st rc))).
Proof.
  destruct st as [g items]. unfold row_step.
  destruct (if (2 <=? _)%nat then _ else _) as [ext|]; [destruct ent as [e|]|];
    cbn [fst]; rewrite ?dom_edges_add_edge, ?dom_edges_add_node, ?dom_edges_add_edge,
      ?dom_edges_add_node; set_solver.
Qed.

Lemma para_step_edges doc_id ent g pc :
  dom (edges g) ∪ {[ (doc_id, c_id pc) ]}
  ∪ from_option (fun e => {[ (c_id pc, e) ]}) ∅ ent
  ⊆ dom (edges (para_step doc_id ent g pc)).
Proof.
  unfold para_step. destruct ent as [e|]; cbn [from_option];
    rewrite ?dom_edges_add_edge, ?dom_edges_add_node; set_solver.
Qed.

Lemma row_step_chunk doc_id ent st rc n :
  kind_label n = Some "Chunk" →
  node_label (fst st) n = Some (AStr "Chunk") ∨ n = c_id rc →
  node_label (fst (row_step doc_id ent st rc)) n = Some (AStr "Chunk").
Proof.
  destruct st as [g items]. intros Hk Hn. unfold row_step.
  assert (∀ pl, n ≠ make_id "LIT" pl) as Hlit.
  { intros pl ->. by rewrite kind_label_lit in Hk. }
  destruct (if (2 <=? _)%nat then _ else _) as [ext|]; [destruct ent as [e|]|];
    cbn [fst];
    rewrite ?node_label_add_edge, ?node_label_add_node, ?node_label_add_edge,
      ?node_label_add_node, ?attrs_head;
    repeat case_decide; subst; try done; try (by destruct (Hlit _));
    by destruct Hn.
Qed.

Lemma para_step_chunk doc_id ent g pc n :
  node_label g n = Some (AStr "Chunk") ∨ n = c_id pc →
  node_label (para_step doc_id ent g pc) n = Some (AStr "Chunk").
Proof.
  intros Hn. unfold para_step.
  destruct ent as [e|];
    rewrite ?node_label_add_edge, ?node_label_add_node, ?attrs_head;
    case_decide; subst; try done; by destruct Hn.
Qed.

Lemma fold_row_step_has doc_id ent l st :
  (∀ n, kind_label n = Some "Chunk" →
        node_label (fst st) n = Some (AStr "Chunk") ∨ (∃ c, c ∈ l ∧ n = c_id c) →
        node_label (fst (fold_left (row_step doc_id ent) l st)) n = Some (AStr "Chunk"))
  ∧ (∀ e, e ∈ dom (edges (fst st)) ∨ (∃ c, c ∈ l ∧ e = (doc_id, c_id c)) →
          e ∈ dom (edges (fst (fold_left (row_step doc_id ent) l st)))).
Proof.
  revert st. induction l as [|rc l IH]; intros st.
  - split; [intros n _ [?|(? & ?%elem_of_nil & _)]; done
           | intros e [?|(? & ?%elem_of_nil & _)]; done].
  - cbn [fold_left]. destruct (IH (row_step doc_id ent st rc)) as [IHn IHe]. split.
    + intros n Hk Hn. apply IHn; [done|].
      destruct Hn as [Hn|(c & [->|Hc]%elem_of_cons & ->)]; [| |right; eauto];
        left; apply row_step_chunk; auto.
    + intros e He. apply IHe.
      destruct He as [He|(c & [->|Hc]%elem_of_cons & ->)]; [| |right; eauto];
        left; apply row_step_edges; set_solver.
Qed.

Lemma fold_para_step_has doc_id ent l g :
  (∀ n, node_label g n = Some (AStr "Chunk") ∨ (∃ c, c ∈ l ∧ n = c_id c) →
        node_label (fold_left (para_step doc_id ent) l g) n = Some (AStr "Chunk"))
  ∧ (∀ e, e ∈ dom (edges g)
          ∨ (∃ c, c ∈ l ∧ (e = (doc_id, c_id c) ∨ ent = Some (snd e) ∧ fst e = c_id c)) →
          e ∈ dom (edges (fold_left (para_step doc_id ent) l g))).
Proof.
  revert g. induction l as [|pc l IH]; intros g.
  - split; [intros n [?|(? & ?%elem_of_nil & _)]; done
           | intros e [?|(? & ?%elem_of_nil & _)]; done].
  - cbn [fold_left]. destruct (IH (para_step doc_id ent g pc)) as [IHn IHe]. split.
    + intros n Hn. apply IHn.
      destruct Hn as [Hn|(c & [->|Hc]%elem_of_cons & ->)]; [| |right; eauto];
        left; apply para_step_chunk; auto.
    + intros e He. apply IHe.
      destruct He as [He|(c & [->|Hc]%elem_of_cons & Hce)]; [| |right; eauto];
        left; apply para_step_edges; [set_solver|].
      destruct Hce as [->|[-> Hf]]; [set_solver|].
      destruct e as [eu ev]. cbn in *. subst. set_solver.
Qed.

Lemma row_step_attr_keeps doc_id ent st rc e key :
  kind_label e ≠ Some "Chunk" → kind_label e ≠ Some "LineItem" →
  kind_label (c_id rc) = Some "Chunk" →
  node_attr (fst (row_step doc_id ent st rc)) e key = node_attr (fst st) e key.
Proof.
  destruct st as [g items]. intros Hc Hl Hk. unfold row_step.
  destruct (if (2 <=? _)%nat then _ else _) as [ext|];
    [destruct ent as [e'|]|]; cbn [fst];
    rewrite ?node_attr_add_edge, ?node_attr_add_node, ?node_attr_add_edge,
      ?node_attr_add_node;
    repeat case_decide; subst; try done;
    try (exfalso; apply Hl, kind_label_lit); by exfalso.
Qed.

Lemma para_step_attr_keeps doc_id ent g pc e key :
  kind_label e ≠ Some "Chunk" →
  kind_label (c_id pc) = Some "Chunk" →
  node_attr (para_step doc_id ent g pc) e key = node_attr g e key.
Proof.
  intros Hc Hk. unfold para_step.
  destruct ent as [e'|];
    rewrite ?node_attr_add_edge, ?node_attr_add_node;
    case_decide; subst; done.
Qed.

Lemma built_graph_attr_keeps p e key :
  kind_label e ≠ Some "Chunk" → kind_label e ≠ Some "LineItem" →
  node_attr (built_graph p) e key = node_attr (graph_head p) e key.
Proof.
  intros Hc Hl. rewrite built_graph_unfold.
  assert (∀ l g, (∀ c, c ∈ l → kind_label (c_id c) = Some "Chunk") →
    node_attr (fold_left (para_step (document_id p) (entity_id <$> doc_vendor p)) l g) e key
    = node_attr g e key) as Hparas.
  { induction l as [|c l IH]; intros g Hk; [done|]. cbn [fold_left].
    rewrite IH by (intros; apply Hk; by right).
    apply para_step_attr_keeps; [done | apply Hk; left]. }
  assert (∀ l st, (∀ c, c ∈ l → kind_label (c_id c) = Some "Chunk") →
    node_attr (fst (fold_left (row_step (document_id p) (entity_id <$> doc_vendor p)) l st))
      e key = node_attr (fst st) e key) as Hrows.
  { induction l as [|c l IH]; intros st Hk; [done|]. cbn [fold_left].
    rewrite IH by (intros; apply Hk; by right).
    apply row_step_attr_keeps; [done | done | apply Hk; left]. }
  rewrite Hparas, Hrows; try done.
  - intros c ?. by eapply table_rows_kind.
  - intros c ?. by eapply paragraph_chunks_kind.
Qed.

(** Every fragment of a document has its Chunk node and an edge from the
    Document node; when a vendor was found, its Entity node carries the
    name, the document points to it, every paragraph points to it, and
    scoping to that name on the graph of the document selects every
    paragraph. *)
Theorem built_graph_holds_fragments p :
  (∀ c, c ∈ fragments p →
     has_label (built_graph p) (c_id c) "Chunk"
     ∧ (document_id p, c_id c) ∈ dom (edges (built_graph p)))
  ∧ (∀ v, doc_vendor p = Some v →
       node_attr (built_graph p) (entity_id v) "name" = Some (AStr v)
       ∧ (document_id p, entity_id v) ∈ dom (edges (built_graph p))
       ∧ ∀ c, c ∈ paragraph_chunks p (document_id p) →
           (c_id c, entity_id v) ∈ dom (edges (built_graph p))
           ∧ c_id c ∈ cids_for_entity (built_graph p) v).
Proof.
  set (doc := document_id p). set (ent := entity_id <$> doc_vendor p).
  pose proof (built_graph_unfold p) as Hg. fold doc ent in Hg.
  destruct (fold_row_step_has doc ent (table_rows p doc) (graph_head p, [])) as [Hrn Hre].
  destruct (fold_para_step_has doc ent (paragraph_chunks p doc)
              (fst (fold_left (row_step doc ent) (table_rows p doc) (graph_head p, []))))
    as [Hpn Hpe].
  rewrite <- Hg in Hpn, Hpe.
  assert (∀ c, c ∈ fragments p →
     has_label (built_graph p) (c_id c) "Chunk"
     ∧ (doc, c_id c) ∈ dom (edges (built_graph p))) as Hfrag.
  { intros c Hc. unfold fragments in Hc. fold doc in Hc.
    apply elem_of_app in Hc as [Hc|Hc].
    - split.
      + apply Hpn. left. apply Hrn; [by eapply table_rows_kind | right; eauto].
      + apply Hpe. left. apply Hre. right. eauto.
    - split; [apply Hpn; right; eauto | apply Hpe; right; eauto]. }
  split; [done|]. intros v Hv.
  assert (node_attr (built_graph p) (entity_id v) "name" = Some (AStr v)) as Hname.
  { rewrite built_graph_attr_keeps by (rewrite kind_label_entity_id; done).
    unfold graph_head. rewrite Hv.
    rewrite node_attr_add_edge, node_attr_add_node, decide_True by done.
    reflexivity. }
  assert ((doc, entity_id v) ∈ dom (edges (built_graph p))) as Hdoc.
  { apply Hpe. left. apply Hre. left. unfold graph_head. rewrite Hv. cbn [fst].
    rewrite dom_edges_add_edge. set_solver. }
  split; [done|]. split; [done|]. intros c Hc.
  assert ((c_id c, entity_id v) ∈ dom (edges (built_graph p))) as Hedge.
  { apply Hpe. right. exists c. split; [done|]. right. unfold ent. rewrite Hv. done. }
  split; [done|]. apply elem_of_cids_for_entity.
  assert (has_label (built_graph p) (entity_id v) "Entity") as Hent
    by (apply built_graph_entity; eauto).
  unfold has_label in Hent. unfold node_attr in Hname.
  destruct (nodes (built_graph p) !! entity_id v) as [d|] eqn:Hd; [|done].
  exists (entity_id v), d. split; [done|]. split.
  - split; [done|]. cbn in Hname. by rewrite Hname.
  - split; [|by left]. apply Hfrag. unfold fragments. apply elem_of_app. by right.
Qed.

End BuiltGraphMore.

(** ** Every match is found *)
Section RegexComplete.
Import Re.

Implicit Types (r : regex) (w s : list ascii) (g : option (list ascii)).

(** A pattern that matches no empty text. *)
Definition nonempty r : Prop := ∀ w g g', sem r w g g' → w ≠ [].

(** Unbounded repetitions repeat patterns that consume something, as all
    the patterns of the program do. *)
Fixpoint wf r : Prop :=
  match r with
  | Eps | Chr _ => True
  | Cat r1 r2 => wf r1 ∧ wf r2
  | Opt r1 | Grp r1 => wf r1
  | Rep r1 _ hi => wf r1 ∧ (hi = None → nonempty r1)
  end.

Definition step_complete {A} (m : @step A)
    (rel : list ascii → option (list ascii) → option (list ascii) → Prop) : Prop :=
  ∀ w s' g g' k, rel w g g' → is_Some (k g' s') → is_Some (m (w ++ s') g k).

Lemma iter_split n1 n2 rel w g g' :
  iter (n1 + n2) rel w g g' →
  ∃ w1 w2 g1, w = w1 ++ w2 ∧ iter n1 rel w1 g g1 ∧ iter n2 rel w2 g1 g'.
Proof.
  revert w g. induction n1 as [|n1 IH]; intros w g; cbn [Nat.add iter].
  - intros Hi. exists [], w, g. done.
  - intros (u1 & u2 & g1 & -> & Hr & (v1 & v2 & g2 & -> & H1 & H2)%IH).
    exists (u1 ++ v1), v2, g2. rewrite app_assoc. split; [done|].
    split; [|done]. exists u1, v1, g1. done.
Qed.

Lemma iter_length n rel w g g' :
  (∀ u h h', rel u h h' → u ≠ []) → iter n rel w g g' → n <= length w.
Proof.
  intros Hne. revert w g. induction n as [|n IH]; intros w g; cbn [iter]; [lia|].
  intros (u1 & u2 & g1 & -> & Hr & Hi%IH).
  apply Hne in Hr. rewrite length_app. destruct u1; [done | simpl; lia].
Qed.

Lemma exactly_complete {A} (m : @step A) rel n :
  step_complete m rel → step_complete (exactly m n) (iter n rel).
Proof.
  intros Hm. induction n as [|n IH]; intros w s' g g' k; cbn [iter exactly].
  - intros [-> ->] Hk. done.
  - intros (w1 & w2 & g1 & -> & Hr & Hi) Hk. rewrite <- app_assoc.
    eapply Hm; [done|]. by eapply IH.
Qed.

Lemma upto_complete {A} (m : @step A) rel n j w s' g g' k :
  step_complete m rel → j <= n → iter j rel w g g' → is_Some (k g' s') →
  is_Some (upto m n (w ++ s') g k).
Proof.
  intros Hm. revert j w g. induction n as [|n IH]; intros j w g Hj Hi Hk.
  - assert (j = 0) as -> by lia. destruct Hi as [-> ->]. done.
  - cbn [upto]. destruct j as [|j].
    + destruct Hi as [-> ->]. by destruct (m _ _ _).
    + destruct Hi as (w1 & w2 & g1 & -> & Hr & Hi). rewrite <- app_assoc.
      assert (is_Some (m (w1 ++ w2 ++ s') g (fun g0 s0 => upto m n s0 g0 k))) as [a Ha].
      { eapply Hm; [done|]. eapply (IH j); [lia | done | done]. }
      rewrite Ha. done.
Qed.

Lemma run_complete {A} r : wf r → step_complete (@run A r) (sem r).
Proof.
  induction r as [|p|r1 IH1 r2 IH2|r1 IH1|r1 IH1 lo hi|r1 IH1];
    intros Hwf w s' g g' k; cbn [sem run].
  - intros [-> ->] Hk. done.
  - intros (c & -> & Hp & ->) Hk. cbn. by rewrite Hp.
  - destruct Hwf as [Hw1 Hw2].
    intros (w1 & w2 & g1 & -> & H1 & H2) Hk. rewrite <- app_assoc.
    eapply IH1; [done | done |]. by eapply IH2.
  - intros [[-> ->]|Hs] Hk.
    + by destruct (run r1 _ _ _).
    + destruct (IH1 Hwf w s' g g' k Hs Hk) as [a ->]. done.
  - destruct Hwf as [Hw1 Hne].
    intros (n & Hlo & Hhi & Hi) Hk.
    replace n with (lo + (n - lo)) in Hi by lia.
    apply iter_split in Hi as (w1 & w2 & g1 & -> & Hi1 & Hi2). rewrite <- app_assoc.
    eapply (exactly_complete _ _ _ (IH1 Hw1)); [done|].
    eapply (upto_complete _ _ _ (n - lo)); [by apply IH1 | | done | done].
    destruct hi as [h|].
    + specialize (Hhi h eq_refl). lia.
    + apply (iter_length _ _ _ _ _ (Hne eq_refl)) in Hi2. rewrite length_app. lia.
  - intros (g1 & Hs & ->) Hk. eapply IH1; [done | done |].
    rewrite length_app.
    replace (length w + length s' - length s') with (length w) by lia.
    by rewrite take_app_length.
Qed.

(** A text that holds a match of the pattern is never searched in
    vain. *)
Lemma search_chars_complete r before w rest g' :
  wf r → sem r w None g' → is_Some (search_chars r (before ++ w ++ rest)).
Proof.
  intros Hwf Hs.
  assert (is_Some (match_here r (w ++ rest))) as Hhere.
  { unfold match_here. eapply run_complete; [done | done | done]. }
  induction before as [|c before IH]; cbn [app].
  - destruct (w ++ rest); cbn [search_chars]; by destruct Hhere as [found ->].
  - cbn [search_chars]. by destruct (match_here r (c :: before ++ w ++ rest)).
Qed.

Lemma nonempty_chr p : nonempty (Chr p).
Proof. intros w g g' (c & -> & _). done. Qed.

Lemma iter_chr_intro p w g :
  Forall (fun c => p c = true) w → iter (length w) (sem (Chr p)) w g g.
Proof.
  induction 1 as [|c w Hc _ IH]; cbn [length iter]; [done|].
  exists [c], w, g. split; [done|]. split; [by exists c | done].
Qed.

Lemma sem_word_i_intro l w g :
  map Py.lower_char w = map Py.lower_char l → sem (word_i l) w g g.
Proof.
  revert w. induction l as [|c l IH]; intros [|x w]; cbn [map word_i sem]; try done.
  intros [= Hx Hw]. exists [x], w, g. split; [done|]. split; [|by apply IH].
  exists x. split; [done|]. split; [|done]. by apply Ascii.eqb_eq.
Qed.

Lemma wf_word_i l : wf (word_i l).
Proof. induction l; cbn; auto. Qed.

End RegexComplete.

(** ** When the sniffers find something *)
Section SniffersMore.
Import Re ExtractAndIndex.

Lemma search_is_Some r (s : string) :
  is_Some (search r s) ↔ is_Some (search_chars r (Py.chars s)).
Proof. unfold search. by rewrite fmap_is_Some. Qed.



Lemma dot_not_newline (w : list ascii) :
  Forall (fun c => negb (Ascii.eqb c "010"%char) = true) w →
  Forall (fun c => c ≠ "010"%char) w.
Proof.
  intros Hw. eapply Forall_impl; [exact Hw|].
  intros c Hc. by apply Ascii.eqb_neq, negb_true_iff.
Qed.



(** Where a vendor line sits in the text: the label in any case,
    optional whitespace, a colon or a hyphen, optional whitespace (line
    breaks included), and a character of a line. *)
Definition vendor_match (label : string) (s : list ascii) : Prop :=
  ∃ before lab ws1 sep ws2 x rest,
    s = before ++ lab ++ ws1 ++ [sep] ++ ws2 ++ [x] ++ rest
    ∧ map Py.lower_char lab = map Py.lower_char (Py.chars label)
    ∧ Forall (fun c => Py.isspace c = true) ws1
    ∧ (sep = ":"%char ∨ sep = "-"%char)
    ∧ Forall (fun c => Py.isspace c = true) ws2
    ∧ x ≠ "010"%char.

Lemma wf_vendor_rx label : wf (vendor_rx label).
Proof.
  unfold vendor_rx, star, plus. cbn [wf].
  repeat split; try done; try apply wf_word_i; intros _; apply nonempty_chr.
Qed.

Lemma vendor_rx_sound label (text grp : string) :
  search (vendor_rx label) text = Some grp →
  vendor_match label (Py.chars text)
  ∧ Py.chars grp ≠ [] ∧ Forall (fun c => c ≠ "010"%char) (Py.chars grp).
Proof.
  unfold search. intros (l & Hs & ->)%fmap_Some. rewrite chars_text.
  apply search_chars_sound in Hs as (before & w & rest & g' & Htext & Hsem & ->).
  unfold vendor_rx in Hsem. cbn [sem] in Hsem.
  destruct Hsem as (lab & w1 & g1 & -> & [-> Hlab]%sem_word_i & Hsem).
  destruct Hsem as (ws1 & w2 & g2 & -> & (n & _ & _ & [-> [_ Hws1]]%iter_chr) & Hsem).
  destruct Hsem as (sp & w3 & g3 & -> & (sep & -> & Hsep & ->) & Hsem).
  destruct Hsem as (ws2 & w4 & g4 & -> & (m & _ & _ & [-> [_ Hws2]]%iter_chr) & Hsem).
  destruct Hsem as (g5 & (k & Hk & _ & [-> [Hklen Hline%dot_not_newline]]%iter_chr) & ->).
  destruct w4 as [|x w4]; [simpl in Hklen; lia|]. cbn [default].
  split; [|split; [done | done]].
  exists before, lab, ws1, sep, ws2, x, (w4 ++ rest).
  split; [by rewrite Htext, <- !app_assoc|]. split; [done|]. split; [done|].
  split.
  { cbn in Hsep. rewrite orb_false_r in Hsep. apply orb_true_iff in Hsep.
    destruct Hsep as [->%Ascii.eqb_eq| ->%Ascii.eqb_eq]; auto. }
  split; [done|]. by inversion Hline.
Qed.

Lemma vendor_rx_complete label (text : string) :
  vendor_match label (Py.chars text) → is_Some (search (vendor_rx label) text).
Proof.
  intros (before & lab & ws1 & sep & ws2 & x & rest & Htext & Hlab & Hws1 & Hsep & Hws2 & Hx).
  apply search_is_Some. rewrite Htext.
  replace (before ++ lab ++ ws1 ++ [sep] ++ ws2 ++ [x] ++ rest)
    with (before ++ (lab ++ ws1 ++ [sep] ++ ws2 ++ [x]) ++ rest)
    by (by rewrite <- !app_assoc).
  apply (search_chars_complete _ _ _ _ (Some [x])); [apply wf_vendor_rx|].
  unfold vendor_rx. cbn [sem].
  exists lab, (ws1 ++ [sep] ++ ws2 ++ [x]), None.
  split; [done|]. split; [by apply sem_word_i_intro|].
  exists ws1, ([sep] ++ ws2 ++ [x]), None. split; [done|]. split.
  { exists (length ws1). split; [lia|]. split; [done|]. by apply iter_chr_intro. }
  exists [sep], (ws2 ++ [x]), None. split; [done|]. split.
  { exists sep. split; [done|]. split; [|done]. by destruct Hsep as [->| ->]. }
  exists ws2, [x], None. split; [done|]. split.
  { exists (length ws2). split; [lia|]. split; [done|]. by apply iter_chr_intro. }
  exists None. split; [|done]. exists 1. split; [lia|]. split; [done|].
  apply (iter_chr_intro _ [x]). constructor; [|done].
  by apply negb_true_iff, Ascii.eqb_neq.
Qed.

Lemma lstrip_suffix (l : list ascii) : ∃ pre, l = pre ++ Py.lstrip_chars l.
Proof.
  induction l as [|c l [pre IH]]; [by exists []|]. cbn [Py.lstrip_chars].
  destruct (Py.isspace c); [|by exists []].
  exists (c :: pre). cbn. by rewrite <- IH.
Qed.

Lemma lstrip_Forall (P : ascii → Prop) (l : list ascii) :
  Forall P l → Forall P (Py.lstrip_chars l).
Proof.
  intros Hl. destruct (lstrip_suffix l) as [pre Hpre]. rewrite Hpre in Hl.
  by apply Forall_app in Hl as [_ ?].
Qed.

Lemma lstrip_snoc (l : list ascii) x :
  Py.isspace x = false → ∃ l', Py.lstrip_chars (l ++ [x]) = l' ++ [x].
Proof.
  intros Hx. induction l as [|c l [l' IH]]; cbn [app Py.lstrip_chars].
  - rewrite Hx. by exists [].
  - destruct (Py.isspace c); [by exists l' | by exists (c :: l)].
Qed.

Lemma strip_chars_spec (s : string) :
  (∀ P : ascii → Prop, Forall P (Py.chars s) → Forall P (Py.chars (Py.strip s)))
  ∧ (∀ c rest, Py.chars (Py.strip s) = c :: rest → Py.isspace c = false).
Proof.
  unfold Py.strip. rewrite chars_text. split.
  - intros P HP. apply Forall_rev, lstrip_Forall, Forall_rev, lstrip_Forall, HP.
  - intros c rest. destruct (Py.lstrip_chars (Py.chars s)) as [|x l] eqn:Hl; [done|].
    pose proof (lstrip_head _ _ _ Hl) as Hx. cbn [rev].
    destruct (lstrip_snoc (rev l) x Hx) as [l' ->].
    rewrite rev_app_distr. cbn. by intros [= <- _].
Qed.

(** The vendor that is sniffed: found exactly when the text has a vendor
    line or a client line; when found it has at most 120 characters,
    holds no line break and does not start with whitespace (it can be
    empty). *)
Theorem sniff_vendor_spec (text : string) :
  (is_Some (sniff_vendor text) ↔
     vendor_match "Vendor" (Py.chars text) ∨ vendor_match "Client" (Py.chars text))
  ∧ (∀ x, sniff_vendor text = Some x →
       String.length x <= 120
       ∧ Forall (fun c => c ≠ "010"%char) (Py.chars x)
       ∧ (∀ c rest, Py.chars x = c :: rest → Py.isspace c = false)).
Proof.
  unfold sniff_vendor. cbn [sniff_vendor_loop]. split.
  - split.
    + destruct (search (vendor_rx "Vendor") text) as [g|] eqn:Hv.
      { intros _. left. by apply vendor_rx_sound in Hv as [? _]. }
      destruct (search (vendor_rx "Client") text) as [g|] eqn:Hc; [|by intros [? ?]].
      intros _. right. by apply vendor_rx_sound in Hc as [? _].
    + intros [[g Hg]%vendor_rx_complete|[g Hg]%vendor_rx_complete].
      * by rewrite Hg.
      * rewrite Hg. by destruct (search (vendor_rx "Vendor") text).
  - assert (∀ label g x, search (vendor_rx label) text = Some g →
              Py.slice_to 120 (Py.strip g) = x →
              String.length x <= 120
              ∧ Forall (fun c => c ≠ "010"%char) (Py.chars x)
              ∧ (∀ c rest, Py.chars x = c :: rest → Py.isspace c = false)) as Hres.
    { intros label g x (_ & _ & Hline)%vendor_rx_sound <-.
      destruct (strip_chars_spec g) as [Hall Hhead].
      split; [apply slice_to_length|]. unfold Py.slice_to. rewrite chars_text. split.
      - apply Forall_take, Hall, Hline.
      - intros c rest Hc. destruct (Py.chars (Py.strip g)) as [|c' l] eqn:Hs; [done|].
        cbn in Hc. injection Hc as <- _. by eapply Hhead. }
    intros x.
    destruct (search (vendor_rx "Vendor") text) as [g|] eqn:Hv.
    { intros [= Hx]. by eapply Hres. }
    destruct (search (vendor_rx "Client") text) as [g|] eqn:Hc; [|done].
    intros [= Hx]. by eapply Hres.
Qed.

End SniffersMore.

(** ** What [parse_money] reads *)
Section MoneyMore.
Import Re ExtractAndIndex.

Implicit Types (w s : list ascii).

Definition is_separator (c : ascii) : Prop := c = ","%char ∨ c = " "%char.

(** The text the pattern runs on: no comma and no space is left. *)
Definition stripped_chars (s : string) : list ascii :=
  filter (fun x => x ≠ " "%char) (filter (fun x => x ≠ ","%char) (Py.chars s)).

Lemma stripped_chars_spec (s : string) :
  Py.chars (Py.remove_char " " (Py.remove_char "," s)) = stripped_chars s.
Proof. unfold Py.remove_char, stripped_chars. by rewrite !chars_text. Qed.

Lemma elem_of_stripped (s : string) c :
  c ∈ stripped_chars s ↔ c ∈ Py.chars s ∧ ¬ is_separator c.
Proof.
  unfold stripped_chars, is_separator. rewrite !list_elem_of_filter. tauto.
Qed.

Lemma wf_money_rx : wf money_rx.
Proof.
  unfold money_rx, star. cbn [wf]. repeat split; try done.
  - intros _. apply nonempty_chr.
  - intros _ w g g' (w1 & w2 & g1 & -> & (c & -> & _) & _). done.
Qed.

(** The shape of what group 1 captures. *)
Definition money_group (grp : list ascii) : Prop :=
  ∃ ds groups frac,
    grp = ds ++ groups ++ frac
    ∧ 1 <= length ds <= 3
    ∧ Forall (fun c => Py.isdigit c = true) ds
    ∧ (groups = [] ∨ ∃ sep more, groups = sep :: more ∧ is_separator sep)
    ∧ (frac = [] ∨ ∃ d1 d2, frac = ["."%char; d1; d2]
                           ∧ Py.isdigit d1 = true ∧ Py.isdigit d2 = true).

Lemma money_rx_sound w g' :
  sem money_rx w None g' →
  ∃ lead grp, w = lead ++ grp ∧ g' = Some grp ∧ money_group grp.
Proof.
  unfold money_rx. cbn [sem].
  intros (dollar & w1 & g1 & -> & _ & Hsem).
  destruct Hsem as (ws & w2 & g2 & -> & _ & Hsem).
  destruct Hsem as (g3 & Hsem & ->).
  exists (dollar ++ ws), w2. split; [by rewrite <- app_assoc|]. split; [done|].
  destruct Hsem as (ds & w3 & g4 & -> & (n & Hn1 & Hn3 & [-> [Hlen Hds]]%iter_chr) & Hsem).
  destruct Hsem as (groups & frac & g5 & -> & (m & _ & _ & Hgroups) & Hfrac).
  exists ds, groups, frac. split; [done|].
  split; [specialize (Hn3 3 eq_refl); lia|]. split; [done|]. split.
  - destruct m as [|m]; [left; by destruct Hgroups|]. right.
    destruct Hgroups as (u1 & u2 & h & -> & (v1 & v2 & h' & -> & (sep & -> & Hsep & ->) & _) & _).
    exists sep, (v2 ++ u2). split; [done|]. unfold is_separator.
    cbn in Hsep. rewrite orb_false_r in Hsep. apply orb_true_iff in Hsep.
    destruct Hsep as [->%Ascii.eqb_eq| ->%Ascii.eqb_eq]; auto.
  - destruct Hfrac as [[-> _]|Hfrac]; [by left|]. right.
    destruct Hfrac as (pt & dd & h & -> & (c & -> & ->%Ascii.eqb_eq & ->) & Hdd).
    destruct Hdd as (k & Hk2 & Hk2' & [_ [Hklen Hdd]]%iter_chr).
    specialize (Hk2' 2 eq_refl).
    destruct dd as [|d1 [|d2 [|d3 dd]]]; simpl in Hklen; try lia.
    exists d1, d2. inversion Hdd as [|? ? Hd1 Hdd']. inversion Hdd'. done.
Qed.

Lemma span_digits_app ds rest :
  Forall (fun c => Py.isdigit c = true) ds →
  match rest with [] => True | c :: _ => Py.isdigit c = false end →
  Float.span_digits (ds ++ rest) = (ds, rest).
Proof.
  intros Hds Hrest. induction Hds as [|d ds Hd _ IH]; cbn [app].
  - destruct rest as [|c rest]; [done|]. cbn [Float.span_digits]. by rewrite Hrest.
  - cbn [Float.span_digits]. by rewrite Hd, IH.
Qed.

Lemma digits_value_bound (l : list ascii) (acc : N) :
  Forall (fun c => Py.isdigit c = true) l →
  (fold_left (fun a c => 10 * a + Float.digit_value c) l acc
   < (acc + 1) * 10 ^ N.of_nat (length l))%N.
Proof.
  intros Hl. revert acc. induction Hl as [|c l Hc _ IH]; intros acc.
  - cbn. lia.
  - cbn [fold_left length]. eapply N.lt_le_trans; [apply IH|].
    assert (Float.digit_value c <= 9)%N as Hd.
    { unfold Float.digit_value. unfold Py.isdigit, Py.between in Hc.
      apply andb_true_iff in Hc as [_ Hc%N.leb_le]. lia. }
    rewrite Nat2N.inj_succ, N.pow_succ_r'. nia.
Qed.

(** A float below one thousand, with at most two decimals. *)
Definition below_1000 (x : Float.t) : Prop :=
  Float.finite x = true
  ∧ (Float.units x < 1000 * 10 ^ N.of_nat (Float.places x))%N ∧ Float.places x <= 2.

Lemma norm_below (u : N) (p : nat) :
  (u < 1000 * 10 ^ N.of_nat p)%N → p <= 2 → below_1000 (Float.norm u p).
Proof.
  revert u. induction p as [|p IH]; intros u Hu Hp; cbn [Float.norm].
  - split; [done|]. split; [done | cbn; lia].
  - destruct (u mod 10 =? 0)%N; [|split; [done|]; split; [done | cbn; lia]].
    destruct (IH (u / 10)%N) as (H0 & H1 & H2); [|lia|split; [done|]; split; [done | lia]].
    rewrite Nat2N.inj_succ, N.pow_succ_r' in Hu.
    apply N.Div0.div_lt_upper_bound. lia.
Qed.

(** A literal of at most 15 digits and 300 decimals is read as it is. *)
Lemma of_decimal_short (u : N) (p : nat) :
  (u < 10 ^ 15)%N → p <= 300 → Float.of_decimal u p = Float.norm u p.
Proof.
  intros Hu Hp. unfold Float.of_decimal.
  replace (u <? 10 ^ 15)%N with true by (symmetry; apply N.ltb_lt; lia).
  replace (p <=? 300)%nat with true by (symmetry; apply Nat.leb_le; lia).
  done.
Qed.

Lemma money_group_float grp :
  money_group grp → (∀ c, c ∈ grp → ¬ is_separator c) →
  ∃ x, Float.of_chars grp = Some x ∧ below_1000 x.
Proof.
  intros (ds & groups & frac & -> & Hlen & Hds & Hgroups & Hfrac) Hsep.
  destruct Hgroups as [->|(sep & more & -> & Hs)].
  2:{ exfalso. apply (Hsep sep); [|done]. set_solver. }
  cbn [app]. unfold Float.of_chars.
  destruct Hfrac as [->|(d1 & d2 & -> & Hd1 & Hd2)].
  - rewrite span_digits_app by done.
    destruct ds as [|d ds]; [simpl in Hlen; lia|].
    pose proof (digits_value_bound (d :: ds) 0 Hds) as Hb.
    assert (10 ^ N.of_nat (length (d :: ds)) <= 10 ^ 3)%N as Hp
      by (apply N.pow_le_mono_r; lia).
    eexists. split; [done|]. unfold Float.digits_value.
    rewrite of_decimal_short by lia. apply norm_below; [|lia].
    cbn [N.of_nat Nat.of_num_uint] in *. lia.
  - rewrite span_digits_app by done.
    cbn [forallb length]. rewrite Hd1, Hd2. cbn [andb Ascii.eqb Bool.eqb].
    replace (length ds + 2 =? 0)%nat with false by (symmetry; apply Nat.eqb_neq; lia).
    cbn [negb andb].
    assert (Forall (fun c => Py.isdigit c = true) (ds ++ [d1; d2])) as Hall
      by (apply Forall_app; split; [done | by repeat constructor]).
    pose proof (digits_value_bound _ 0 Hall) as Hb.
    rewrite length_app in Hb. cbn [length] in Hb.
    assert (10 ^ N.of_nat (length ds + 2) <= 10 ^ 5)%N as Hp
      by (apply N.pow_le_mono_r; lia).
    eexists. split; [done|]. unfold Float.digits_value.
    rewrite of_decimal_short by lia. apply norm_below; [|lia].
    change (N.of_nat 2) with 2%N. lia.
Qed.

Lemma parse_money_found (s grp : string) :
  search money_rx (Py.remove_char " " (Py.remove_char "," s)) = Some grp →
  (∃ d, d ∈ Py.chars s ∧ Py.isdigit d = true)
  ∧ ∃ x, Float.of_string grp = Some x ∧ below_1000 x.
Proof.
  unfold search. intros (l & Hs & ->)%fmap_Some. rewrite stripped_chars_spec in Hs.
  unfold Float.of_string. rewrite chars_text.
  apply search_chars_sound in Hs as (before & w & rest & g' & Htext & Hsem & ->).
  apply money_rx_sound in Hsem as (lead & grp & -> & -> & Hgrp). cbn [default].
  assert (∀ c, c ∈ grp → c ∈ Py.chars s ∧ ¬ is_separator c) as Hin.
  { intros c Hc. apply elem_of_stripped. rewrite Htext. set_solver. }
  split.
  - destruct Hgrp as (ds & groups & frac & -> & Hlen & Hds & _).
    destruct ds as [|d ds]; [simpl in Hlen; lia|]. exists d.
    split; [apply Hin; set_solver | by inversion Hds].
  - apply money_group_float; [done|]. intros c Hc. by apply Hin.
Qed.

(** [parse_money] gives nothing exactly for the texts without a digit;
    what it gives is below one thousand and has at most two decimals,
    because the separators are removed before the pattern reads groups of
    three digits. *)
Theorem parse_money_spec (s : string) :
  (parse_money s = None ↔ Forall (fun c => Py.isdigit c = false) (Py.chars s))
  ∧ (∀ x, parse_money s = Some x → below_1000 x).
Proof.
  pose proof (parse_money_found s) as Hfound.
  unfold parse_money. split.
  - split.
    + intros Hnone. apply Forall_forall. intros d Hd.
      destruct (Py.isdigit d) eqn:Hdig; [exfalso|done].
      assert (d ∈ stripped_chars s) as Hds.
      { apply elem_of_stripped. split; [done|]. by intros [->| ->]. }
      apply list_elem_of_split in Hds as (before & rest & Hsplit).
      assert (is_Some (search money_rx (Py.remove_char " " (Py.remove_char "," s)))) as [grp Hg].
      { apply search_is_Some. rewrite stripped_chars_spec, Hsplit.
        change (d :: rest) with ([d] ++ rest).
        apply (search_chars_complete _ _ _ _ (Some [d])); [apply wf_money_rx|].
        unfold money_rx. cbn [sem].
        exists [], [d], None. split; [done|]. split; [by left|].
        exists [], [d], None. split; [done|]. split; [by exists 0|].
        exists None. split; [|done].
        exists [d], [], None. split; [done|]. split.
        { exists 1. split; [lia|]. split; [intros h [= <-]; lia|].
          by apply (iter_chr_intro _ [d]); constructor. }
        exists [], [], None. split; [done|]. split; [by exists 0 | by left]. }
      rewrite Hg in Hnone. apply Hfound in Hg as [_ (x & Hx & _)]. congruence.
    + intros Hnodigit.
      destruct (search money_rx _) as [grp|] eqn:Hg; [|done].
      destruct (Hfound grp eq_refl) as [(d & Hd & Hdig) _].
      rewrite Forall_forall in Hnodigit. apply Hnodigit in Hd. congruence.
  - intros x. destruct (search money_rx _) as [grp|] eqn:Hg; [|done].
    destruct (Hfound grp eq_refl) as [_ (y & Hy & Hbelow)]. congruence.
Qed.

End MoneyMore.

(** ** The total of a document: order of the labels and reading of the number *)
Section GrandTotalOrder.
Import Re ExtractAndIndex.

Implicit Types (l : list ascii).












End GrandTotalOrder.

(** ** Consequences for line items and row identifiers *)
Section RowsMore.
Import Nx ExtractAndIndex.

(** No line item of a summary costs a thousand or more. *)
Theorem line_items_below_1000 (p : pdf) (li : LineItem) :
  li ∈ dm_items (snd (fst (build_graph_and_maps p))) →
  ∃ x, li_ext_cost li = Some x ∧ below_1000 x.
Proof.
  rewrite docmap_record. cbn [dm_items].
  intros (rc & _ & Hli)%list_elem_of_omap.
  unfold row_line_item in Hli. destruct (2 <=? _)%nat; [|done].
  apply fmap_Some in Hli as (ext & Hext & ->). cbn [li_ext_cost].
  exists ext. split; [done|]. unfold parse_money in Hext.
  destruct (Re.search money_rx _) as [grp|] eqn:Hg; [|done].
  apply parse_money_found in Hg as [_ (y & Hy & Hbelow)]. congruence.
Qed.

Definition priced_pdf : pdf :=
  {| pdf_name := "a.pdf"; pdf_path := "data/pdfs/a.pdf"; pdf_size := 10;
     pdf_textract := inr [];
     pdf_pages := Some [Tables [[[Some "Crane hire"; Some "$12,500.00"]]]] |}.

Lemma line_items_below_1000_witness :
  ∃ x, li_ext_cost
         {| li_desc := "Crane hire"; li_qty := None; li_unit := None;
            li_unit_cost := None; li_ext_cost := Some (Float.Dec 125 0);
            li_page := Some 1 |} = Some x ∧ below_1000 x.
Proof.
  apply (line_items_below_1000 priced_pdf). vm_compute. left.
Defined.

Lemma chars_append (a b : string) : Py.chars (a ++ b)%string = Py.chars a ++ Py.chars b.
Proof.
  unfold Py.chars. induction a as [|c a IH]; [done|].
  change (c :: list_ascii_of_string (a ++ b)%string
          = c :: list_ascii_of_string a ++ list_ascii_of_string b).
  by rewrite IH.
Qed.

Lemma string_length_chars (s : string) : String.length s = length (Py.chars s).
Proof.
  unfold Py.chars. induction s as [|c s IH]; [done|].
  simpl. by rewrite IH.
Qed.

Lemma slice_to_append (n : nat) (a b : string) :
  n <= String.length a → Py.slice_to n (a ++ b)%string = Py.slice_to n a.
Proof.
  intros Hn. unfold Py.slice_to. rewrite chars_append, take_app_le; [done|].
  by rewrite <- string_length_chars.
Qed.

Lemma string_app_assoc (a b c : string) : ((a ++ b) ++ c = a ++ b ++ c)%string.
Proof.
  induction a as [|x a IH]; [done|].
  change (String x ((a ++ b) ++ c) = String x (a ++ b ++ c))%string. by rewrite IH.
Qed.

(** The payload of a table-row id, keys in the order of the source. *)
Definition row_payload (doc_id : string) (page_index r_i : nat) (cells : list string)
  : Json.dict :=
  [("doc", Json.Str doc_id); ("p", Json.Int (Z.of_nat page_index));
   ("r", Json.Int (Z.of_nat r_i)); ("c", Json.Arr (map Json.Str (take 10 cells)))].

Lemma row_payload_dumps doc_id page_index r_i cells :
  ∃ rest,
    Json.dumps (row_payload doc_id page_index r_i cells) =
    (("{" ++ Json.quote "c" ++ ": "
          ++ Json.dumps_value (Json.Arr (map Json.Str (take 10 cells)))) ++ rest)%string.
Proof.
  eexists. unfold Json.dumps, row_payload.
  change (merge_sort Json.key_le ?l) with
    [("c", Json.Arr (map Json.Str (take 10 cells))); ("doc", Json.Str doc_id);
     ("p", Json.Int (Z.of_nat page_index)); ("r", Json.Int (Z.of_nat r_i))].
  cbn [map Py.join Json.dumps_item fst snd].
  rewrite !string_app_assoc. reflexivity.
Qed.

(** The keys are sorted, so the cells come first in what is hashed: when
    the first ten cells of a row take 2042 characters or more, the cut at
    2048 leaves out the document, the page and the row index, and the id
    of the row is the same wherever the row stands. *)
Theorem long_row_id_ignores_position
    (p : pdf) (doc1 doc2 : string) (page1 page2 r1 r2 : nat) (row : list (option string)) :
  2042 <= String.length
            (Json.dumps_value (Json.Arr (map Json.Str (take 10 (row_cells row))))) →
  c_id (row_record p doc1 page1 r1 row) = c_id (row_record p doc2 page2 r2 row).
Proof.
  intros Hlong. unfold row_record. cbn [c_id]. unfold make_id.
  fold (row_payload doc1 page1 r1 (row_cells row)).
  fold (row_payload doc2 page2 r2 (row_cells row)).
  destruct (row_payload_dumps doc1 page1 r1 (row_cells row)) as [rest1 ->].
  destruct (row_payload_dumps doc2 page2 r2 (row_cells row)) as [rest2 ->].
  assert (String.length (Json.quote "c") = 3) as Hq by (vm_compute; reflexivity).
  assert (2048 <= String.length
            ("{" ++ Json.quote "c" ++ ": "
             ++ Json.dumps_value (Json.Arr (map Json.Str (take 10 (row_cells row)))))%string)
    as Hcut.
  { rewrite !string_length_chars, !chars_append, !length_app, <- !string_length_chars.
    rewrite Hq. cbn [String.length]. lia. }
  rewrite (slice_to_append _ _ rest1 Hcut), (slice_to_append _ _ rest2 Hcut).
  reflexivity.
Qed.

Definition long_row : list (option string) := [Some (Py.text (repeat "a"%char 2100))].

Lemma long_row_id_ignores_position_witness :
  c_id (row_record priced_pdf "DOC:1" 1 0 long_row)
  = c_id (row_record priced_pdf "DOC:2" 7 3 long_row).
Proof.
  apply (long_row_id_ignores_position priced_pdf "DOC:1" "DOC:2" 1 7 0 3 long_row).
  apply Nat.leb_le. vm_compute. reflexivity.
Defined.

End RowsMore.

(** ** The graph, the fragments and the chunk map together *)
Section Together.
Import Nx ExtractAndIndex GraphRag.

Implicit Types (p : pdf) (g G : DiGraph) (n u v : string).

Lemma chunk_map_bound (cs : list chunk) (k : string) :
  is_Some (chunk_map_of cs !! k) ↔ ∃ c, c ∈ cs ∧ c_id c = k.
Proof.
  unfold chunk_map_of. rewrite fold_insert_lookup, lookup_empty.
  destruct (last (filter (fun c => c_id c = k) cs)) as [c|] eqn:Hl.
  - split; [|done]. intros _. exists c.
    apply last_Some_elem_of, list_elem_of_filter in Hl as [? ?]. done.
  - split; [by intros [? ?]|]. intros (c & Hc & Hk).
    apply last_None in Hl.
    assert (c ∈ filter (fun c => c_id c = k) cs) as Hf by (by apply list_elem_of_filter).
    rewrite Hl in Hf. by apply elem_of_nil in Hf.
Qed.

Lemma fold_corpus_step pdfs st :
  snd (fst (fold_left corpus_step pdfs st))
    = snd (fst st) ++ map (fun p => snd (fst (build_graph_and_maps p))) pdfs
  ∧ snd (fold_left corpus_step pdfs st) = snd st ++ flat_map fragments pdfs.
Proof.
  revert st. induction pdfs as [|p pdfs IH]; intros st.
  - cbn. by rewrite !app_nil_r.
  - cbn [fold_left map flat_map]. destruct (IH (corpus_step st p)) as [-> ->].
    destruct st as [[G dms] cs]. unfold corpus_step.
    pose proof (build_fragments p) as Hf.
    destruct (build_graph_and_maps p) as [[g dm] chunks]. cbn [fst snd] in *.
    rewrite Hf, <- !app_assoc. done.
Qed.

(** The run over the PDFs gives one summary per document, in the order
    of the documents, and the fragments of the documents one after the
    other, table rows before paragraphs. *)
Theorem build_corpus_outputs (pdfs : list pdf) :
  snd (fst (build_corpus pdfs)) = map (fun p => snd (fst (build_graph_and_maps p))) pdfs
  ∧ snd (build_corpus pdfs) = flat_map fragments pdfs
  ∧ length (snd (fst (build_corpus pdfs))) = length pdfs.
Proof.
  unfold build_corpus. destruct (fold_corpus_step pdfs (Nx.empty, [], [])) as [-> ->].
  cbn [fst snd app]. by rewrite length_map.
Qed.

Lemma corpus_graph_chunk pdfs n :
  has_label (corpus_graph pdfs) n "Chunk" →
  ∃ p, p ∈ pdfs ∧ has_label (built_graph p) n "Chunk".
Proof.
  induction pdfs as [|p pdfs IH] using rev_ind; [done|].
  rewrite corpus_graph_snoc, !has_label_node_label, node_label_compose.
  setoid_rewrite elem_of_app. setoid_rewrite list_elem_of_singleton.
  destruct (node_label (built_graph p) n) as [a|] eqn:Hp.
  - intros [= ->]. exists p. split; [by right | done].
  - intros (q & ? & ?)%IH. exists q. split; [by left | done].
Qed.

(** Every Chunk node of the corpus graph is a key of the chunk map built
    in the same run, so an id that a scope selects can always be
    resolved to a fragment. *)
Theorem corpus_chunks_are_mapped (pdfs : list pdf) (n : string) :
  has_label (corpus_graph pdfs) n "Chunk" →
  ∃ c, chunk_map_of (snd (build_corpus pdfs)) !! n = Some c ∧ c_id c = n.
Proof.
  intros (p & Hp & Hn)%corpus_graph_chunk.
  apply (inv_chunk _ _ _ _ (built_graph_inv p)) in Hn as (c & Hc & ->).
  assert (is_Some (chunk_map_of (snd (build_corpus pdfs)) !! c_id c)) as [c' Hc'].
  { apply chunk_map_bound. exists c. split; [|done].
    unfold build_corpus. destruct (fold_corpus_step pdfs (Nx.empty, [], [])) as [_ ->].
    cbn [snd app]. apply list_elem_of_In, in_flat_map. exists p.
    split; by apply list_elem_of_In. }
  exists c'. split; [done|].
  unfold chunk_map_of in Hc'. rewrite fold_insert_lookup in Hc'.
  destruct (last (filter _ _)) as [c''|] eqn:Hl; [|by rewrite lookup_empty in Hc'].
  injection Hc' as ->.
  by apply last_Some_elem_of, list_elem_of_filter in Hl as [? ?].
Qed.

Lemma corpus_chunks_are_mapped_witness :
  ∃ c, chunk_map_of (snd (build_corpus [table_pdf]))
         !! paragraph_id (document_id table_pdf) 0 "Vendor: ACME" = Some c
       ∧ c_id c = paragraph_id (document_id table_pdf) 0 "Vendor: ACME".
Proof.
  apply (corpus_chunks_are_mapped [table_pdf]). vm_compute. reflexivity.
Defined.

(** Citing the id of an indexed fragment gives back the document name,
    the page and the kind of that fragment, when no two fragments share
    an id. *)
Theorem cite_indexed_fragment (cs : list chunk) (c : chunk) :
  c ∈ cs → NoDup (map c_id cs) →
  resolve_refs (chunk_map_of cs) [c_id c] =
  [{| r_id := c_id c; r_docname := Some (c_docname c);
      r_page := c_page c; r_type := Some (c_type c) |}].
Proof.
  intros Hc Hnd.
  assert (chunk_map_of cs !! c_id c = Some c) as Hlook.
  { unfold chunk_map_of. rewrite fold_insert_lookup.
    destruct (last (filter (fun x => c_id x = c_id c) cs)) as [c'|] eqn:Hl.
    - apply last_Some_elem_of, list_elem_of_filter in Hl as [Hid Hc'].
      f_equal. clear -Hc Hc' Hid Hnd.
      induction cs as [|x cs IH]; [by apply elem_of_nil in Hc|].
      cbn in Hnd. apply NoDup_cons in Hnd as [Hx Hnd].
      apply elem_of_cons in Hc as [->|Hc], Hc' as [->|Hc']; auto.
      + exfalso. apply Hx. rewrite <- Hid.
        apply list_elem_of_In, in_map, list_elem_of_In, Hc'.
      + exfalso. apply Hx. rewrite Hid.
        apply list_elem_of_In, in_map, list_elem_of_In, Hc.
    - apply last_None in Hl.
      assert (c ∈ filter (fun x => c_id x = c_id c) cs) as Hf
        by (by apply list_elem_of_filter).
      rewrite Hl in Hf. by apply elem_of_nil in Hf. }
  unfold resolve_refs. cbn [map]. by rewrite Hlook.
Qed.

Lemma cite_indexed_fragment_witness :
  resolve_refs (chunk_map_of [scope_chunk "A" "about X"; scope_chunk "B" "about Y"]) ["B"] =
  [{| r_id := "B"; r_docname := Some "a.pdf"; r_page := None; r_type := Some "paragraph" |}].
Proof.
  apply (cite_indexed_fragment
           [scope_chunk "A" "about X"; scope_chunk "B" "about Y"]
           (scope_chunk "B" "about Y")).
  - right. left.
  - cbn. repeat constructor; set_solver.
Defined.

(** Every node carries a label. *)
Definition labelled g : Prop := ∀ n, n ∈ dom (nodes g) → is_Some (node_label g n).

Lemma dom_nodes_update (k : string) new (m : gmap string (gmap string attr)) :
  dom (update k new m) = {[ k ]} ∪ dom m.
Proof. unfold update. by rewrite dom_insert_L. Qed.

Lemma labelled_add_node g n a :
  labelled g → is_Some (a !! "label") → labelled (add_node g n a).
Proof.
  intros Hg [l Hl] m. unfold add_node. cbn [nodes]. rewrite dom_nodes_update.
  fold (add_node g n a). rewrite node_label_add_node, Hl.
  intros [->%elem_of_singleton|Hm]%elem_of_union.
  - by rewrite decide_True.
  - case_decide; [done | by apply Hg].
Qed.

Lemma labelled_add_edge g u v a :
  labelled g → is_Some (node_label g u) → is_Some (node_label g v) →
  labelled (add_edge g u v a).
Proof.
  intros Hg Hu Hv m. rewrite node_label_add_edge.
  unfold add_edge. cbn [nodes]. rewrite !dom_nodes_update.
  intros [->%elem_of_singleton|[->%elem_of_singleton|Hm]%elem_of_union]%elem_of_union;
    [done | done | by apply Hg].
Qed.

Lemma add_node_label_mono g n a m :
  is_Some (node_label g m) → is_Some (node_label (add_node g n a) m).
Proof.
  intros Hm. rewrite node_label_add_node. case_decide; [|done].
  by destruct (a !! "label").
Qed.

Lemma row_step_labelled doc_id ent st rc :
  labelled (fst st) → is_Some (node_label (fst st) doc_id) →
  (∀ e, ent = Some e → is_Some (node_label (fst st) e)) →
  labelled (fst (row_step doc_id ent st rc))
  ∧ ∀ m, is_Some (node_label (fst st) m) →
         is_Some (node_label (fst (row_step doc_id ent st rc)) m).
Proof.
  destruct st as [g items]. cbn [fst]. intros Hg Hd He. unfold row_step.
  set (g1 := add_node g (c_id rc) _).
  assert (labelled g1) as Hg1 by (apply labelled_add_node; [done | by rewrite attrs_head]).
  assert (∀ m, is_Some (node_label g m) → is_Some (node_label g1 m)) as Hm1
    by (intros m; apply add_node_label_mono).
  assert (is_Some (node_label g1 (c_id rc))) as Hrc.
  { unfold g1. rewrite node_label_add_node, decide_True by done. by rewrite attrs_head. }
  set (g2 := add_edge g1 doc_id (c_id rc) _).
  assert (labelled g2) as Hg2 by (apply labelled_add_edge; auto).
  assert (∀ m, is_Some (node_label g m) → is_Some (node_label g2 m)) as Hm2.
  { intros m Hm. unfold g2. rewrite node_label_add_edge. auto. }
  destruct (if (2 <=? _)%nat then _ else _) as [ext|]; [|by split].
  set (g3 := add_node g2 _ _).
  assert (labelled g3) as Hg3 by (apply labelled_add_node; [done | by rewrite attrs_head]).
  assert (∀ m, is_Some (node_label g m) → is_Some (node_label g3 m)) as Hm3
    by (intros m Hm; apply add_node_label_mono; auto).
  set (g4 := add_edge g3 (c_id rc) _ _).
  assert (labelled g4) as Hg4.
  { apply labelled_add_edge; [done | |].
    - apply add_node_label_mono. unfold g2. by rewrite node_label_add_edge.
    - unfold g3. rewrite node_label_add_node, decide_True by done. by rewrite attrs_head. }
  assert (∀ m, is_Some (node_label g m) → is_Some (node_label g4 m)) as Hm4.
  { intros m Hm. unfold g4. rewrite node_label_add_edge. auto. }
  destruct ent as [e|]; cbn [fst]; [|by split]. split.
  - apply labelled_add_edge; [done | | apply Hm4, He; done].
    unfold g4. rewrite node_label_add_edge. unfold g3.
    rewrite node_label_add_node, decide_True by done. by rewrite attrs_head.
  - intros m Hm. rewrite node_label_add_edge. auto.
Qed.

Lemma para_step_labelled doc_id ent g pc :
  labelled g → is_Some (node_label g doc_id) →
  (∀ e, ent = Some e → is_Some (node_label g e)) →
  labelled (para_step doc_id ent g pc)
  ∧ ∀ m, is_Some (node_label g m) → is_Some (node_label (para_step doc_id ent g pc) m).
Proof.
  intros Hg Hd He. unfold para_step.
  set (g1 := add_node g (c_id pc) _).
  assert (labelled g1) as Hg1 by (apply labelled_add_node; [done | by rewrite attrs_head]).
  assert (∀ m, is_Some (node_label g m) → is_Some (node_label g1 m)) as Hm1
    by (intros m; apply add_node_label_mono).
  assert (is_Some (node_label g1 (c_id pc))) as Hpc.
  { unfold g1. rewrite node_label_add_node, decide_True by done. by rewrite attrs_head. }
  set (g2 := add_edge g1 doc_id (c_id pc) _).
  assert (labelled g2) as Hg2 by (apply labelled_add_edge; auto).
  assert (∀ m, is_Some (node_label g m) → is_Some (node_label g2 m)) as Hm2.
  { intros m Hm. unfold g2. rewrite node_label_add_edge. auto. }
  destruct ent as [e|]; [|by split]. split.
  - apply labelled_add_edge; [done | | apply Hm2, He; done].
    unfold g2. by rewrite node_label_add_edge.
  - intros m Hm. rewrite node_label_add_edge. auto.
Qed.

Lemma built_graph_labelled p : labelled (built_graph p).
Proof.
  rewrite built_graph_unfold.
  set (doc := document_id p). set (ent := entity_id <$> doc_vendor p).
  set (ok := fun g : DiGraph =>
    labelled g ∧ is_Some (node_label g doc)
    ∧ ∀ e, ent = Some e → is_Some (node_label g e)).
  assert (ok (graph_head p)) as Hhead.
  { unfold ok, graph_head. fold doc. unfold ent.
    set (g0 := add_node Nx.empty doc _).
    assert (labelled g0) as Hg0.
    { apply labelled_add_node; [|by rewrite attrs_head].
      intros n Hn. by apply not_elem_of_empty in Hn. }
    assert (is_Some (node_label g0 doc)) as Hd.
    { unfold g0. rewrite node_label_add_node, decide_True by done. by rewrite attrs_head. }
    destruct (doc_vendor p) as [v|]; [|by repeat split].
    set (g1 := add_node g0 (entity_id v) _).
    assert (is_Some (node_label g1 (entity_id v))) as He.
    { unfold g1. rewrite node_label_add_node, decide_True by done. by rewrite attrs_head. }
    assert (is_Some (node_label g1 doc)) as Hd1 by (by apply add_node_label_mono).
    split; [|split].
    - apply labelled_add_edge; [|done|done].
      apply labelled_add_node; [done | by rewrite attrs_head].
    - by rewrite node_label_add_edge.
    - intros e [= <-]. by rewrite node_label_add_edge. }
  assert (∀ l st, ok (fst st) → ok (fst (fold_left (row_step doc ent) l st))) as Hrows.
  { induction l as [|c l IH]; intros st Hst; [done|]. cbn [fold_left]. apply IH.
    destruct Hst as (Hl & Hd & He).
    destruct (row_step_labelled doc ent st c Hl Hd He) as [Hl' Hm'].
    split; [done|]. split; [by apply Hm'|]. intros e Hee. by apply Hm', He. }
  assert (∀ l g, ok g → ok (fold_left (para_step doc ent) l g)) as Hparas.
  { induction l as [|c l IH]; intros g Hg; [done|]. cbn [fold_left]. apply IH.
    destruct Hg as (Hl & Hd & He).
    destruct (para_step_labelled doc ent g c Hl Hd He) as [Hl' Hm'].
    split; [done|]. split; [by apply Hm'|]. intros e Hee. by apply Hm', He. }
  apply Hparas, Hrows, Hhead.
Qed.

(** Every node of the corpus graph carries a label, the one that goes
    with the kind of its id: no edge leaves an end point behind as a bare
    node. *)
Theorem corpus_graph_nodes_labelled (pdfs : list pdf) (n : string) :
  n ∈ dom (nodes (corpus_graph pdfs)) →
  ∃ l, has_label (corpus_graph pdfs) n l ∧ kind_label n = Some l.
Proof.
  intros Hn.
  assert (is_Some (node_label (corpus_graph pdfs) n)) as [a Ha].
  { revert Hn. induction pdfs as [|p pdfs IH] using rev_ind.
    - by intros ?%not_elem_of_empty.
    - rewrite corpus_graph_snoc, node_label_compose. cbn [compose nodes].
      rewrite dom_merge. intros [Hn|Hn]%elem_of_union.
      + destruct (node_label (built_graph p) n); [done | by apply IH].
      + by destruct (built_graph_labelled p n Hn) as [a ->]. }
  pose proof (corpus_graph_kind pdfs n a Ha) as Hk.
  destruct (kind_label n) as [l|] eqn:Hl; [|done]. injection Hk as ->.
  exists l. split; [by apply has_label_node_label | done].
Qed.

Lemma corpus_graph_nodes_labelled_witness :
  ∃ l, has_label (corpus_graph [table_pdf]) (document_id table_pdf) l
       ∧ kind_label (document_id table_pdf) = Some l.
Proof.
  apply (corpus_graph_nodes_labelled [table_pdf]). vm_compute. reflexivity.
Defined.

End Together.

(** ** What is handed to the semantic index *)
Section IndexStream.
Import Nx ExtractAndIndex GraphRag.

(** The metadata of an indexed item; [m_page] is absent when the
    fragment has no page. *)
Record meta : Type := {
  m_text : string;
  m_docname : string;
  m_source : string;
  m_type : string;
  m_page : option nat
}.

(** The generator [stream] of the main block. *)
Definition stream (all_chunks_for_index : list chunk) : list (string * meta) :=
  map (fun ch =>
         (c_id ch,
          {| m_text := c_text ch; m_docname := c_docname ch; m_source := c_source ch;
             m_type := c_type ch; m_page := c_page ch |}))
      all_chunks_for_index.

(** The index is fed one item per fragment, in order, under the id of
    the fragment, and every id it is fed is a key of the chunk map of the
    same run, bound to a fragment with that id: within a run no hit is
    stale. The chunk map can be smaller than the stream, since fragments
    that share an id are one key. *)
Theorem index_items_are_mapped (cs : list chunk) :
  map fst (stream cs) = map c_id cs
  ∧ (∀ id m, (id, m) ∈ stream cs →
       ∃ c, chunk_map_of cs !! id = Some c ∧ c_id c = id)
  ∧ size (chunk_map_of cs) <= length (stream cs).
Proof.
  split; [|split].
  - unfold stream. rewrite map_map. done.
  - intros id m Hin. unfold stream in Hin.
    apply list_elem_of_In, in_map_iff in Hin as (c & [= <- _] & Hc%list_elem_of_In).
    assert (is_Some (chunk_map_of cs !! c_id c)) as [c' Hc']
      by (apply chunk_map_bound; eauto).
    exists c'. split; [done|].
    unfold chunk_map_of in Hc'. rewrite fold_insert_lookup in Hc'.
    destruct (last (filter _ _)) as [c''|] eqn:Hl; [|by rewrite lookup_empty in Hc'].
    injection Hc' as ->.
    by apply last_Some_elem_of, list_elem_of_filter in Hl as [? ?].
  - unfold stream. rewrite length_map. unfold chunk_map_of.
    assert (∀ (m : gmap string chunk),
      size (fold_left (fun m c => <[c_id c := c]> m) cs m) <= size m + length cs) as Hsize.
    { induction cs as [|c l IH]; intros m; cbn [fold_left length]; [lia|].
      etransitivity; [apply IH|].
      destruct (m !! c_id c) as [old|] eqn:Hm.
      - rewrite map_size_insert_Some by eauto. lia.
      - rewrite map_size_insert_None by done. lia. }
    specialize (Hsize ∅). by rewrite map_size_empty in Hsize.
Qed.

End IndexStream.

(** ** A document processed again *)
Section Reprocess.
Import Nx ExtractAndIndex.

Implicit Types (p : pdf) (n key name : string) (g : DiGraph).

Lemma node_attr_compose G H n key :
  node_attr (compose G H) n key =
  match node_attr H n key with
  | Some a => Some a
  | None => node_attr G n key
  end.
Proof. unfold node_attr, compose. cbn [nodes]. apply merge_lookup. Qed.

Lemma row_step_docname doc_id ent st rc n name :
  kind_label n = Some "Chunk" → c_docname rc = name →
  node_attr (fst st) n "docname" = Some (AStr name) ∨ n = c_id rc →
  node_attr (fst (row_step doc_id ent st rc)) n "docname" = Some (AStr name).
Proof.
  destruct st as [g items]. intros Hk <- Hn. unfold row_step.
  assert (∀ pl, n ≠ make_id "LIT" pl) as Hlit.
  { intros pl ->. by rewrite kind_label_lit in Hk. }
  destruct (if (2 <=? _)%nat then _ else _) as [ext|]; [destruct ent as [e|]|];
    cbn [fst];
    rewrite ?node_attr_add_edge, ?node_attr_add_node, ?node_attr_add_edge,
      ?node_attr_add_node;
    repeat case_decide; subst; try done; try (by destruct (Hlit _));
    by destruct Hn.
Qed.

Lemma para_step_docname doc_id ent g pc n name :
  c_docname pc = name →
  node_attr g n "docname" = Some (AStr name) ∨ n = c_id pc →
  node_attr (para_step doc_id ent g pc) n "docname" = Some (AStr name).
Proof.
  intros <- Hn. unfold para_step.
  destruct ent as [e|];
    rewrite ?node_attr_add_edge, ?node_attr_add_node;
    case_decide; subst; try done; by destruct Hn.
Qed.

Lemma fold_row_step_docname doc_id ent name l st n :
  Forall (fun c => c_docname c = name) l → kind_label n = Some "Chunk" →
  node_attr (fst st) n "docname" = Some (AStr name) ∨ (∃ c, c ∈ l ∧ n = c_id c) →
  node_attr (fst (fold_left (row_step doc_id ent) l st)) n "docname" = Some (AStr name).
Proof.
  intros Hl Hk. revert st. induction Hl as [|rc l Hrc _ IH]; intros st.
  - intros [?|(? & ?%elem_of_nil & _)]; done.
  - cbn [fold_left]. intros Hn. apply IH.
    destruct Hn as [Hn|(c & [->|Hc]%elem_of_cons & ->)]; [| |right; eauto];
      left; apply row_step_docname; auto.
Qed.

Lemma fold_para_step_docname doc_id ent name l g n :
  Forall (fun c => c_docname c = name) l →
  node_attr g n "docname" = Some (AStr name) ∨ (∃ c, c ∈ l ∧ n = c_id c) →
  node_attr (fold_left (para_step doc_id ent) l g) n "docname" = Some (AStr name).
Proof.
  intros Hl. revert g. induction Hl as [|pc l Hpc _ IH]; intros g.
  - intros [?|(? & ?%elem_of_nil & _)]; done.
  - cbn [fold_left]. intros Hn. apply IH.
    destruct Hn as [Hn|(c & [->|Hc]%elem_of_cons & ->)]; [| |right; eauto];
      left; apply para_step_docname; auto.
Qed.

Lemma table_rows_docname p doc_id :
  Forall (fun c => c_docname c = pdf_name p) (table_rows p doc_id).
Proof.
  apply Forall_forall. intros c.
  rewrite elem_of_table_rows.
  by intros (? & ? & ? & ? & ? & ? & _ & _ & _ & _ & _ & _ & ->).
Qed.

Lemma paragraph_chunks_docname p doc_id :
  Forall (fun c => c_docname c = pdf_name p) (paragraph_chunks p doc_id).
Proof.
  apply Forall_forall. intros c [i Hi]%list_elem_of_lookup. unfold paragraph_chunks in Hi.
  rewrite paragraph_loop_lookup in Hi.
  destruct (_ !! i) as [t|]; [|done]. by injection Hi as <-.
Qed.

(** The node of every fragment of a document carries the name of that
    document in the graph built from it. *)
Lemma built_graph_docname p c :
  c ∈ fragments p →
  node_attr (built_graph p) (c_id c) "docname" = Some (AStr (pdf_name p)).
Proof.
  intros Hc. rewrite built_graph_unfold.
  apply fold_para_step_docname; [apply paragraph_chunks_docname|].
  unfold fragments in Hc. apply elem_of_app in Hc as [Hc|Hc]; [left | right; eauto].
  apply fold_row_step_docname;
    [apply table_rows_docname | by eapply table_rows_kind | right; eauto].
Qed.

(** Processing again a document of the run adds no node and no edge to
    the merged graph; every attribute the graph of that document sets is
    then the one the merged graph holds, and the node of each of its
    fragments carries its name: the document processed last wins. *)
Theorem corpus_graph_reprocess (pdfs : list pdf) p :
  p ∈ pdfs →
  dom (nodes (corpus_graph (pdfs ++ [p]))) = dom (nodes (corpus_graph pdfs))
  ∧ dom (edges (corpus_graph (pdfs ++ [p]))) = dom (edges (corpus_graph pdfs))
  ∧ (∀ n key a, node_attr (built_graph p) n key = Some a →
       node_attr (corpus_graph (pdfs ++ [p])) n key = Some a)
  ∧ (∀ c, c ∈ fragments p →
       node_attr (corpus_graph (pdfs ++ [p])) (c_id c) "docname"
       = Some (AStr (pdf_name p))).
Proof.
  intros Hp.
  destruct (corpus_graph_dom (pdfs ++ [p])) as [Hn' He'].
  destruct (corpus_graph_dom pdfs) as [Hn He].
  assert (∀ n key a, node_attr (built_graph p) n key = Some a →
            node_attr (corpus_graph (pdfs ++ [p])) n key = Some a) as Hlast.
  { intros n key a Ha. by rewrite corpus_graph_snoc, node_attr_compose, Ha. }
  split; [|split; [|split; [done|]]].
  - apply set_eq. intros n. rewrite Hn', Hn. setoid_rewrite elem_of_app.
    setoid_rewrite list_elem_of_singleton. naive_solver.
  - apply set_eq. intros e. rewrite He', He. setoid_rewrite elem_of_app.
    setoid_rewrite list_elem_of_singleton. naive_solver.
  - intros c Hc. by apply Hlast, built_graph_docname.
Qed.

(** Two documents with the same long row: the row has one id in both
    (its id leaves out the document), and its node carries the name of
    the document processed last, so processing the first one again
    changes the merged graph. *)
Definition long_pdf (name : string) : pdf :=
  {| pdf_name := name; pdf_path := ("data/pdfs/" ++ name)%string; pdf_size := 10;
     pdf_textract := inr [];
     pdf_pages := Some [Tables [[long_row]]] |}.

Definition long_row_id : string :=
  c_id (row_record (long_pdf "a.pdf") (document_id (long_pdf "a.pdf")) 1 0 long_row).

Lemma reprocess_changes_docname :
  node_attr (built_graph (long_pdf "b.pdf")) long_row_id "docname" = Some (AStr "b.pdf")
  ∧ node_attr (corpus_graph [long_pdf "a.pdf"; long_pdf "b.pdf"]) long_row_id "docname"
    = Some (AStr "b.pdf")
  ∧ node_attr (corpus_graph [long_pdf "a.pdf"; long_pdf "b.pdf"; long_pdf "a.pdf"])
      long_row_id "docname"
    = Some (AStr "a.pdf").
Proof. vm_compute. done. Qed.

Lemma corpus_graph_reprocess_witness :
  dom (nodes (corpus_graph ([long_pdf "a.pdf"; long_pdf "b.pdf"] ++ [long_pdf "a.pdf"])))
  = dom (nodes (corpus_graph [long_pdf "a.pdf"; long_pdf "b.pdf"]))
  ∧ dom (edges (corpus_graph ([long_pdf "a.pdf"; long_pdf "b.pdf"] ++ [long_pdf "a.pdf"])))
    = dom (edges (corpus_graph [long_pdf "a.pdf"; long_pdf "b.pdf"]))
  ∧ (∀ n key a, node_attr (built_graph (long_pdf "a.pdf")) n key = Some a →
       node_attr (corpus_graph ([long_pdf "a.pdf"; long_pdf "b.pdf"] ++ [long_pdf "a.pdf"]))
         n key = Some a)
  ∧ (∀ c, c ∈ fragments (long_pdf "a.pdf") →
       node_attr (corpus_graph ([long_pdf "a.pdf"; long_pdf "b.pdf"] ++ [long_pdf "a.pdf"]))
         (c_id c) "docname"
       = Some (AStr (pdf_name (long_pdf "a.pdf")))).
Proof.
  apply (corpus_graph_reprocess [long_pdf "a.pdf"; long_pdf "b.pdf"] (long_pdf "a.pdf")).
  by left.
Defined.

End Reprocess.
